(** * lit_annotator: chunking, footnote renumbering and the annotation pipeline

    A shallow embedding of [src/lit_annotator/__main__.py].

    Text.  A Python [str] is a sequence of code points.  Here a text is a
    list of 8-bit characters, read as the code points 0..255; on that range
    the class [\d] of the [re] module is exactly the ten digits [0-9] and the
    white space of [\s], [str.split] and [str.strip] is the twelve characters
    listed in [is_space].

    Integers.  Python integers are unbounded: counters and the chunk budget
    are in [Z]; lengths are in [nat].  [int] and [str] convert without the
    limit that recent interpreters put on the number of digits of such a
    conversion (4300 by default). *)

From Stdlib Require Import String Ascii List ZArith Lia Bool Arith.
From Stdlib Require Import Permutation Sorted DecimalString DecimalPos.
Import ListNotations.

Set Implicit Arguments.

Open Scope char_scope.
Open Scope list_scope.

(** ** Texts and character classes *)

Definition text := list ascii.

Definition lit (s : string) : text := list_ascii_of_string s.

Definition text_eq_dec : forall a b : text, {a = b} + {a <> b} :=
  list_eq_dec ascii_dec.

Definition text_eqb (a b : text) : bool :=
  if text_eq_dec a b then true else false.

(** [\d] on code points below 256. *)
Definition is_digit (c : ascii) : bool :=
  let n := nat_of_ascii c in (48 <=? n)%nat && (n <=? 57)%nat.

(** [str.isspace] on code points below 256: TAB..CR, FS..US, space, NEL,
    no-break space. *)
Definition is_space (c : ascii) : bool :=
  let n := nat_of_ascii c in
  ((9 <=? n) && (n <=? 13) || (28 <=? n) && (n <=? 32)
   || (n =? 133) || (n =? 160))%nat.

Definition newline : ascii := "010".

(** [s.startswith(p)] *)
Fixpoint starts_with (p s : text) : bool :=
  match p, s with
  | [], _ => true
  | a :: p', b :: s' => Ascii.eqb a b && starts_with p' s'
  | _ :: _, [] => false
  end.

(** The longest prefix of characters in a class, and what follows it. *)
Fixpoint span (f : ascii -> bool) (s : text) : text * text :=
  match s with
  | c :: s' =>
      if f c then let (a, b) := span f s' in (c :: a, b) else ([], s)
  | [] => ([], [])
  end.

(** [sep.join(parts)] *)
Fixpoint join (sep : text) (parts : list text) : text :=
  match parts with
  | [] => []
  | [p] => p
  | p :: rest => p ++ sep ++ join sep rest
  end.

(** [int(s)] for a string of decimal digits. *)
Definition digit_value (c : ascii) : Z := Z.of_nat (nat_of_ascii c) - 48.

Definition int (s : text) : Z :=
  fold_left (fun acc c => 10 * acc + digit_value c)%Z s 0%Z.

(** [str(n)] for an integer. *)
Definition str (n : Z) : text := lit (NilEmpty.string_of_int (Z.to_int n)).

(** ** The part of the [re] module the program uses

    A compiled pattern is tried at one position of the subject: it receives
    the text from that position to the end (so a lookahead can inspect what
    follows) and answers with the length of the match and the text of group 1.
    [scan] walks the subject from left to right the way [re.findall],
    [re.sub] and [re.split] do: at a position where the pattern matches the
    match is taken and the walk resumes behind it, elsewhere it moves on by
    one character.  None of the program's patterns matches the empty
    string. *)
Module Re.

Definition pattern := text -> option (nat * text).

Inductive piece :=
| Kept (c : ascii)          (* a character outside every match *)
| Hit (group : text).       (* one match, with its group 1 *)

(** [inside] counts the characters of the current match still to pass. *)
Fixpoint scan (p : pattern) (inside : nat) (s : text) : list piece :=
  match s with
  | [] => []
  | c :: s' =>
      match inside with
      | S k => scan p k s'
      | O =>
          match p s with
          | Some (n, g) => Hit g :: scan p (pred n) s'
          | None => Kept c :: scan p 0 s'
          end
      end
  end.

(** [pattern.findall(s)] for a pattern with one group. *)
Fixpoint groups (ps : list piece) : list text :=
  match ps with
  | [] => []
  | Kept _ :: r => groups r
  | Hit g :: r => g :: groups r
  end.

Definition findall (p : pattern) (s : text) : list text :=
  groups (scan p 0 s).

(** [re.sub(pattern, repl, s)] for a replacement without escapes. *)
Fixpoint replace (repl : text) (ps : list piece) : text :=
  match ps with
  | [] => []
  | Kept c :: r => c :: replace repl r
  | Hit _ :: r => repl ++ replace repl r
  end.

Definition sub (p : pattern) (repl : text) (s : text) : text :=
  replace repl (scan p 0 s).

(** [re.split(pattern, s)] for a pattern without groups: the texts between
    the matches, always at least one. *)
Fixpoint between (ps : list piece) : list text :=
  match ps with
  | [] => [[]]
  | Kept c :: r =>
      match between r with
      | cur :: more => (c :: cur) :: more
      | [] => [[c]]
      end
  | Hit _ :: r => [] :: between r
  end.

Definition split (p : pattern) (s : text) : list text :=
  between (scan p 0 s).

End Re.

(** ** Footnote markers

    [marker s] recognises ["[^" digits "]"] at the head of [s], with the
    digit run [\d+] taken greedily; it returns the identifier and the text
    behind the closing bracket.  Giving back digits cannot help the match,
    since the character behind a shorter run is a digit and not ["]"]. *)
Definition marker (s : text) : option (text * text) :=
  if starts_with (lit "[^") s then
    let (id, rest) := span is_digit (skipn 2 s) in
    match id with
    | [] => None
    | _ :: _ =>
        if starts_with (lit "]") rest then Some (id, skipn 1 rest) else None
    end
  else None.

Definition followed_by_colon (s : text) : bool := starts_with (lit ":") s.

(** [REF_PATTERN = re.compile(r"\[\^(\d+)\](?!:)")] *)
Definition REF_PATTERN : Re.pattern := fun s =>
  match marker s with
  | Some (id, rest) =>
      if followed_by_colon rest then None else Some (3 + length id, id)%nat
  | None => None
  end.

(** [DEF_PATTERN = re.compile(r"\[\^(\d+)\]:")] *)
Definition DEF_PATTERN : Re.pattern := fun s =>
  match marker s with
  | Some (id, rest) =>
      if followed_by_colon rest then Some (4 + length id, id)%nat else None
  | None => None
  end.

(** The two patterns built for one old identifier, [rf"\[\^{old}\]:"] and
    [rf"\[\^{old}\](?!:)"].  [old] was captured by [(\d+)], and digits stand
    for themselves in a regular expression, so both are literal. *)
Definition def_of (old : text) : Re.pattern := fun s =>
  let p := lit "[^" ++ old ++ lit "]:" in
  if starts_with p s then Some (length p, []) else None.

Definition ref_of (old : text) : Re.pattern := fun s =>
  let p := lit "[^" ++ old ++ lit "]" in
  if starts_with p s && negb (followed_by_colon (skipn (length p) s))
  then Some (length p, []) else None.

(** ** [sorted(set(ids), key=int)] *)

(** Iterating over a Python set yields each element once, in an order the
    language leaves open (for strings it follows the hashes, which change
    from one run of the interpreter to the next).  [set_list l] is that
    iteration over [set(l)]. *)
Class SetOrder := {
  set_list : list text -> list text;
  set_list_perm : forall l, Permutation (set_list l) (nodup text_eq_dec l)
}.

(** [sorted] is stable: elements with equal keys keep their order. *)
Fixpoint insert_by (key : text -> Z) (x : text) (l : list text) : list text :=
  match l with
  | [] => [x]
  | y :: l' =>
      if (key x <=? key y)%Z then x :: l else y :: insert_by key x l'
  end.

Fixpoint sorted_by (key : text -> Z) (l : list text) : list text :=
  match l with
  | [] => []
  | x :: l' => insert_by key x (sorted_by key l')
  end.

(** ** normalize_footnotes *)

(** The dict [mapping]: keys in insertion order, as [mapping.items()]
    yields them. *)
Definition mapping := list (text * text).

Definition in_mapping (old : text) (m : mapping) : bool :=
  existsb (fun kv => text_eqb (fst kv) old) m.

(** One turn of the first loop. *)
Definition assign (st : mapping * Z) (old_id : text) : mapping * Z :=
  let (m, counter) := st in
  if in_mapping old_id m then (m, counter)
  else (m ++ [(old_id, str counter)], (counter + 1)%Z).

(** One turn of the second loop: the definition form first, then the
    reference form. *)
Definition rewrite_one (t : text) (kv : text * text) : text :=
  let (old, new) := kv in
  let t1 := Re.sub (def_of old) (lit "[^" ++ new ++ lit "]:") t in
  Re.sub (ref_of old) (lit "[^" ++ new ++ lit "]") t1.

Definition footnote_ids `{SetOrder} (t : text) : list text :=
  let refs := Re.findall REF_PATTERN t in
  let defs := Re.findall DEF_PATTERN t in
  sorted_by int (set_list (refs ++ defs)).

Definition footnote_mapping `{SetOrder} (t : text) (start_number : Z)
  : mapping * Z :=
  fold_left assign (footnote_ids t) ([], start_number).

Definition normalize_footnotes `{SetOrder} (t : text) (start_number : Z)
  : text * Z :=
  let (m, counter) := footnote_mapping t start_number in
  (fold_left rewrite_one m t, counter).

(** One admissible iteration order: first occurrence first.  [nodup] keeps
    the last occurrence of each element, hence the two reversals. *)
Definition first_seen (l : list text) : list text :=
  rev (nodup text_eq_dec (rev l)).

(** ** split_into_chunks *)

(** [r'\n\s*\n'].  After the first newline, [\s*] first takes the whole run
    of white space and gives characters back until a newline follows; the
    character behind the whole run is not white space, hence not a newline,
    so the match ends at the last newline of the run. *)
Fixpoint last_newline (ws : text) : option nat :=
  match ws with
  | [] => None
  | c :: r =>
      match last_newline r with
      | Some k => Some (S k)
      | None => if Ascii.eqb c newline then Some 0%nat else None
      end
  end.

Definition BLANK_LINE : Re.pattern := fun s =>
  match s with
  | c :: s1 =>
      if Ascii.eqb c newline then
        match last_newline (fst (span is_space s1)) with
        | Some k => Some (k + 2, [])%nat
        | None => None
        end
      else None
  | [] => None
  end.

(** [s.strip()] *)
Fixpoint lstrip (s : text) : text :=
  match s with
  | c :: s' => if is_space c then lstrip s' else s
  | [] => []
  end.

Definition strip (s : text) : text := rev (lstrip (rev (lstrip s))).

(** [s.split()]: the maximal runs of characters that are not white space. *)
Fixpoint py_split (s : text) : list text :=
  match s with
  | [] => []
  | c :: s' =>
      if is_space c then py_split s'
      else
        match s' with
        | [] => [[c]]
        | d :: _ =>
            if is_space d then [c] :: py_split s'
            else
              match py_split s' with
              | w :: ws => (c :: w) :: ws
              | [] => [[c]]
              end
        end
  end.

Definition blank_line : text := [newline; newline].

(** The state of the loop of [split_into_chunks].  [close] is what is done
    to [current_chunk] when it is appended to [chunks]: the source joins
    its paragraphs with a blank line. *)
Section Chunking.

Variable A : Type.
Variable close : list text -> A.
Variable chunk_size : Z.

Record chunking := {
  chunks : list A;
  current_chunk : list text;
  current_length : nat
}.

Definition nonempty (l : list text) : bool :=
  match l with [] => false | _ :: _ => true end.

Definition add_paragraph (st : chunking) (para : text) : chunking :=
  let para_words := py_split para in
  let st1 :=
    if (Z.of_nat (current_length st + length para_words) >? chunk_size)%Z
       && nonempty (current_chunk st)
    then {| chunks := chunks st ++ [close (current_chunk st)];
            current_chunk := [];
            current_length := 0 |}
    else st in
  {| chunks := chunks st1;
     current_chunk := current_chunk st1 ++ [para];
     current_length := current_length st1 + length para_words |}.

Definition flush (st : chunking) : list A :=
  if nonempty (current_chunk st)
  then chunks st ++ [close (current_chunk st)]
  else chunks st.

Definition chunk_paragraphs (paragraphs : list text) : list A :=
  flush (fold_left add_paragraph paragraphs
           {| chunks := []; current_chunk := []; current_length := 0 |}).

End Chunking.

Definition paragraphs_of (t : text) : list text :=
  Re.split BLANK_LINE (strip t).

Definition CHUNK_SIZE : Z := 500.

Definition split_into_chunks (t : text) (chunk_size : Z) : list text :=
  chunk_paragraphs (join blank_line) chunk_size (paragraphs_of t).

(** The same loop with the paragraphs of every chunk kept apart. *)
Definition chunk_groups (chunk_size : Z) (paragraphs : list text)
  : list (list text) :=
  chunk_paragraphs (fun g => g) chunk_size paragraphs.

(** The word count of a chunk: the words of its paragraphs. *)
Definition word_count (g : list text) : nat :=
  list_sum (map (fun p => length (py_split p)) g).

(** ** get_genre_guidance *)

Open Scope string_scope.

(** Exceptions, with their messages. *)
Inductive exn :=
| RuntimeError (msg : string)
| KeyError (key : string)
| ServiceError (msg : string).   (* anything the client library raises *)

(** [guidance_map], a dict literal with distinct keys. *)
Definition guidance_map : list (string * string) :=
  [ ("literary fiction",
     "Focus on subtle emotional tone, literary metaphors, and abstract expressions.");
    ("sci-fi",
     "Explain technical or futuristic terms and unfamiliar concepts clearly.");
    ("fantasy",
     "Clarify mythical elements, symbolic terms, or invented vocabulary.");
    ("philosophy",
     "Emphasise logical structure, abstract concepts, and difficult sentence constructions.");
    ("biography",
     "Focus on historical references and less common vocabulary.");
    ("thriller",
     "Clarify idiomatic suspense language or psychological tension.");
    ("romance",
     "Highlight emotional tone and cultural idioms.");
    ("academic writing",
     "Explain formal constructions, logical connectors, and field-specific vocabulary.");
    ("self-help",
     "Clarify abstract motivational language and practical expressions.");
    ("children's book",
     "Add only minimal annotation — focus on occasionally unfamiliar terms.");
    ("other",
     "Annotate as usual based on clarity and learner needs.") ].

(** [d.get(k)], [None] when the key is absent. *)
Fixpoint dict_get (k : string) (d : list (string * string)) : option string :=
  match d with
  | [] => None
  | (k', v) :: d' => if String.eqb k' k then Some v else dict_get k d'
  end.

(** [guidance_map.get(genre, guidance_map["other"])].  The default is an
    argument of [get], so the subscript is evaluated first, and it raises
    [KeyError] when the key is absent. *)
Definition get_genre_guidance (genre : string) : exn + string :=
  match dict_get "other" guidance_map with
  | None => inl (KeyError "other")
  | Some default =>
      inr (match dict_get genre guidance_map with
           | Some g => g
           | None => default
           end)
  end.

(** ** The external service, retries and the run over a file *)

(** The rendered prompt is the template, with the guidance put in by
    [replace], formatted with the chunk: it is determined by the two. *)
Record prompt := { prompt_guidance : string; prompt_chunk : text }.

(** What [client.chat.completions.create] gives back: it raises, or returns
    a response whose [choices] carry a message content each ([None] when the
    content is missing). *)
Inductive outcome :=
| Raises (e : exn)
| Responds (choices : list (option text)).

(** What a run does to the outside, in order.  The prints that only
    announce a step (the overwrite warning, "Detecting genre", "saved to")
    are left out. *)
Inductive event :=
| Classify                               (* the request of detect_genre_intro *)
| Request (p : prompt)                   (* one request of annotate_chunk_with_prompt *)
| RetryNotice (e : exn) (delay : nat)    (* print("Error: ... retrying in ... seconds...") *)
| Sleep (delay : nat)                    (* time.sleep(delay) *)
| Progress (i n : nat)                   (* print("Processing chunk i/n ...") *)
| Report (genre guidance : string)       (* the two prints after the classification *)
| WriteText (output : text).             (* output_path.write_text(...) *)

Record world := {
  requests : nat;            (* annotation requests sent so far *)
  trace : list event
}.

Definition M (A : Type) : Type := world -> (exn + A) * world.

Definition ret {A} (a : A) : M A := fun w => (inr a, w).

Definition raise {A} (e : exn) : M A := fun w => (inl e, w).

Definition bind {A B} (m : M A) (k : A -> M B) : M B := fun w =>
  match m w with
  | (inr a, w') => k a w'
  | (inl e, w') => (inl e, w')
  end.

Definition emit (e : event) : M unit := fun w =>
  (inr tt, {| requests := requests w; trace := trace w ++ [e] |}).

Notation "x <- m ;; k" := (bind m (fun x => k))
  (at level 61, m at next level, right associativity).
Notation "m ;;; k" := (bind m (fun _ => k))
  (at level 61, right associativity).

(** [retry(max_attempts, delay)(func)]: the loop over [range(max_attempts)],
    then the [raise] behind it. *)
Section Retry.

Variable A : Type.
Variables max_attempts delay : nat.
Variable func : M A.

Definition exhausted : exn :=
  RuntimeError ("Failed after "
                ++ string_of_list_ascii (str (Z.of_nat max_attempts))
                ++ " attempts").

Fixpoint attempts (left : nat) : M A :=
  match left with
  | O => raise exhausted
  | S left' => fun w =>
      match func w with
      | (inr a, w') => (inr a, w')
      | (inl e, w') =>
          (emit (RetryNotice e delay) ;;; emit (Sleep delay) ;;;
           attempts left') w'
      end
  end.

Definition retry : M A := attempts max_attempts.

End Retry.

(** What [annotate_chunk_with_prompt] makes of an answer: the content of
    the first choice, or [RuntimeError] when there is no choice or its
    content is missing or empty. *)
Definition reply (o : outcome) : exn + text :=
  match o with
  | Raises e => inl e
  | Responds (Some (c :: content) :: _) => inr (c :: content)
  | Responds _ => inl (RuntimeError "Empty response from OpenAI")
  end.

Section Run.

Context {order : SetOrder}.

(** The classifier with the reading of its answer: a label, or an
    exception of the client library. *)
Variable detect_genre_intro : text -> exn + string.

(** The annotation service: its answer to the [n]-th request of the run. *)
Variable service : nat -> prompt -> outcome.

(** The body of [annotate_chunk_with_prompt]: one request, and what is
    made of the answer. *)
Definition annotate_once (p : prompt) : M text := fun w =>
  (reply (service (requests w) p),
   {| requests := S (requests w); trace := trace w ++ [Request p] |}).

(** [@retry()]: three attempts, five seconds. *)
Definition annotate_chunk_with_prompt (p : prompt) : M text :=
  retry 3 5 (annotate_once p).

(** The loop of [process_file] from chunk [i] on. *)
Fixpoint annotate_from (guidance : string) (n i : nat) (todo : list text)
  (footnote_counter : Z) (annotated_chunks : list text) : M (list text) :=
  match todo with
  | [] => ret annotated_chunks
  | chunk :: todo' =>
      emit (Progress (i + 1) n) ;;;
      annotated <- annotate_chunk_with_prompt
                     {| prompt_guidance := guidance; prompt_chunk := chunk |} ;;
      let (normalized, footnote_counter') :=
        normalize_footnotes annotated footnote_counter in
      annotate_from guidance n (S i) todo' footnote_counter'
        (annotated_chunks ++ [normalized])
  end.

Definition lift {A} (r : exn + A) : M A := fun w => (r, w).

(** [process_file], from the text of the input file to the text written
    to the output file. *)
Definition process_file (input_text : text) : M text :=
  let chunks := split_into_chunks input_text CHUNK_SIZE in
  emit Classify ;;;
  genre <- lift (detect_genre_intro input_text) ;;
  guidance <- lift (get_genre_guidance genre) ;;
  emit (Report genre guidance) ;;;
  annotated_chunks <- annotate_from guidance (length chunks) 0 chunks 1 [] ;;
  let output := join blank_line annotated_chunks in
  emit (WriteText output) ;;;
  ret output.

End Run.

Close Scope string_scope.

Definition start : world := {| requests := 0; trace := [] |}.

(** The texts of a sequence of answers, normalized in order with the
    counter handed on, as the loop of [process_file] does. *)
Fixpoint normalize_chunks `{SetOrder} (raw : list text) (counter : Z)
  : list text :=
  match raw with
  | [] => []
  | t :: rest =>
      let (normalized, counter') := normalize_footnotes t counter in
      normalized :: normalize_chunks rest counter'
  end.

(** The identifiers of the markers of a text, in the order of the text:
    [\[\^(\d+)\]], a definition or a reference. *)
Definition ANY_MARKER : Re.pattern := fun s =>
  match marker s with
  | Some (id, _) => Some (3 + length id, id)%nat
  | None => None
  end.

Definition marker_ids (t : text) : list Z :=
  map int (Re.findall ANY_MARKER t).

(** * The vocabulary of the properties *)

(** ** Chunks *)

(** A chunk is within the budget, or it is one paragraph. *)
Definition fits (B : Z) (g : list text) : Prop :=
  (Z.of_nat (word_count g) <= B)%Z \/ exists p, g = [p].

(** ** Paragraphs *)

(** The white space a text begins with. *)
Definition run (x : text) : text := fst (span is_space x).

(** No match of [P] begins in [p] when [ctx] follows it. *)
Definition quiet (P : Re.pattern) (p ctx : text) : Prop :=
  forall p1 c p2, p = p1 ++ c :: p2 -> P (c :: p2 ++ ctx) = None.

(** A text laid out as paragraphs with blank lines between them, the way
    [re.split] cuts it: the last paragraph has no blank line in it; any
    other is followed by a text [y] that begins with a blank line of [n]
    characters, behind which the layout goes on. *)
Inductive layout : text -> list text -> Prop :=
| layout_last p : quiet BLANK_LINE p [] -> layout p [p]
| layout_cons p y n g ps :
    quiet BLANK_LINE p y -> BLANK_LINE y = Some (n, g) ->
    layout (skipn n y) ps ->
    layout (p ++ y) (p :: ps).

(** ** Identifiers and mappings *)

(** [K, K+1, ..., K+n-1] *)
Fixpoint upfrom (K : Z) (n : nat) : list Z :=
  match n with
  | O => []
  | S n' => K :: upfrom (K + 1) n'
  end.

Definition ascending (l : list text) : Prop :=
  Sorted (fun a b => (int a <= int b)%Z) l.

Definition below (a b : text) : Prop := (int a < int b)%Z.

(** The distinct identifiers of a text, references and definitions alike. *)
Definition distinct_ids (t : text) : list text :=
  nodup text_eq_dec
    (Re.findall REF_PATTERN t ++ Re.findall DEF_PATTERN t).

(** The identifiers of a text have distinct values: no two of them spell
    the same number. *)
Definition distinct_values (t : text) : Prop :=
  NoDup (map int (distinct_ids t)).

(** A check of [distinct_values] that computes. *)
Definition distinct_values_b (t : text) : bool :=
  let vs := map int (distinct_ids t) in
  Nat.eqb (length (nodup Z.eq_dec vs)) (length vs).

(** Renumbering as the mapping reads: every marker whose identifier is a
    key of the mapping gets the new identifier the mapping gives to that
    key, all markers at once. *)
Definition mapped (m : mapping) (old : text) : text :=
  match find (fun kv => text_eqb (fst kv) old) m with
  | Some kv => snd kv
  | None => old
  end.

Fixpoint renumber (m : mapping) (ps : list Re.piece) : text :=
  match ps with
  | [] => []
  | Re.Kept c :: r => c :: renumber m r
  | Re.Hit id :: r => lit "[^" ++ mapped m id ++ lit "]" ++ renumber m r
  end.

Definition rename_markers (m : mapping) (t : text) : text :=
  renumber m (Re.scan ANY_MARKER 0 t).

(** The identifiers of a document at their first occurrence are 1, 2, ...,
    N, in this order. *)
Definition first_occurrences (ids : list Z) : list Z :=
  rev (nodup Z.eq_dec (rev ids)).

Definition numbered_from_one (ids : list Z) : Prop :=
  exists N, first_occurrences ids = upfrom 1 N.

(** ** Bracketed text *)

Definition open_bracket : ascii := "[".

Definition close_bracket : ascii := "]".

Definition is_bracket (c : ascii) : bool :=
  Ascii.eqb c open_bracket || Ascii.eqb c close_bracket.

(** What stands between ["[^"] and the next ["]"] and has a character that
    is not a digit. *)
Definition not_an_identifier (s : text) : bool :=
  existsb (fun c => negb (is_digit c)) s
  && forallb (fun c => negb (is_bracket c)) s.

Definition bracketed (s : text) : text := lit "[^" ++ s ++ lit "]".

(** A pattern is blind to a stretch [M] of the text before [post] when no
    match begins in [M] and a match that begins before [M] ends before it,
    and is found the same with or without what follows. *)
Record blind (P : Re.pattern) (M post : text) : Prop := {
  blind_before : forall c p, P (c :: p ++ M ++ post) = P (c :: p);
  blind_within : forall s n g, P s = Some (n, g) -> (n <= length s)%nat;
  blind_inside : forall q1 c q2, M = q1 ++ c :: q2 -> P (c :: q2 ++ post) = None
}.

(** ** Parses *)

(** The text of a parse: a character for itself, a marker in brackets. *)
Fixpoint render (ps : list Re.piece) : text :=
  match ps with
  | [] => []
  | Re.Kept c :: r => c :: render r
  | Re.Hit id :: r => bracketed id ++ render r
  end.

(** A parse with its identifiers changed by [f]. *)
Definition retag (f : text -> text) (ps : list Re.piece) : list Re.piece :=
  map (fun p => match p with
                | Re.Kept c => Re.Kept c
                | Re.Hit id => Re.Hit (f id)
                end) ps.

(** What [(\d+)] captures: a run of digits that is not empty. *)
Definition identifier (id : text) : Prop :=
  id <> [] /\ forallb is_digit id = true.

(** A parse as the walk over a text yields it: no marker begins at a
    character it kept. *)
Fixpoint parsed (ps : list Re.piece) : Prop :=
  match ps with
  | [] => True
  | Re.Kept c :: r => marker (c :: render r) = None /\ parsed r
  | Re.Hit id :: r => identifier id /\ parsed r
  end.

(** Two parses with the same characters and markers at the same places. *)
Inductive alike : list Re.piece -> list Re.piece -> Prop :=
| alike_nil : alike [] []
| alike_kept c ps qs : alike ps qs -> alike (Re.Kept c :: ps) (Re.Kept c :: qs)
| alike_hit id id' ps qs :
    identifier id' -> alike ps qs -> alike (Re.Hit id :: ps) (Re.Hit id' :: qs).

(** The next piece is a colon. *)
Definition followed (r : list Re.piece) : bool :=
  match r with
  | Re.Kept c :: _ => Ascii.eqb ":" c
  | _ => false
  end.

(** What the two substitutions of one turn do to a parse: the first
    renames the markers of [o] before a colon, the second the others. *)
Fixpoint rename_defs (o n : text) (ps : list Re.piece) : list Re.piece :=
  match ps with
  | [] => []
  | Re.Kept c :: r => Re.Kept c :: rename_defs o n r
  | Re.Hit id :: r =>
      Re.Hit (if text_eqb id o && followed r then n else id)
      :: rename_defs o n r
  end.

Fixpoint rename_refs (o n : text) (ps : list Re.piece) : list Re.piece :=
  match ps with
  | [] => []
  | Re.Kept c :: r => Re.Kept c :: rename_refs o n r
  | Re.Hit id :: r =>
      Re.Hit (if text_eqb id o && negb (followed r) then n else id)
      :: rename_refs o n r
  end.

(** No new identifier of the mapping is a key further on. *)
Fixpoint no_collision (m : mapping) : bool :=
  match m with
  | [] => true
  | (_, new) :: m' => negb (in_mapping new m') && no_collision m'
  end.

(** One entry of the mapping, as a function on identifiers. *)
Definition swap (o n i : text) : text := if text_eqb i o then n else i.

(** ** Runs *)

(** The chunk a trace was at: the last progress line printed. *)
Fixpoint last_progress (tr : list event) : option nat :=
  match tr with
  | [] => None
  | e :: tr' =>
      match last_progress tr' with
      | Some i => Some i
      | None => match e with Progress i _ => Some i | _ => None end
      end
  end.

(** What [count] failed attempts from request [first] on leave in the
    trace: the request, the notice, the sleep, each time. *)
Fixpoint failed_rounds (service : nat -> prompt -> outcome) (p : prompt)
  (delay first count : nat) : list event :=
  match count with
  | O => []
  | S n =>
      match reply (service first p) with
      | inl e => [Request p; RetryNotice e delay; Sleep delay]
      | inr _ => []
      end ++ failed_rounds service p delay (S first) n
  end.

(** The [n]-th request of the run, sent with prompt [p], fails. *)
Definition fails (service : nat -> prompt -> outcome) (p : prompt) (n : nat)
  : Prop :=
  exists e, reply (service n p) = inl e.

(** ** Inputs the properties are tried on *)

(** Two answers of the annotation service, each numbered from 1 as the
    prompt asks. *)
Definition answer_one : text := lit "a[^1] [^1]: one".

Definition answer_two : text := lit "b[^1] c[^2] [^1]: two [^2]: three".

(** A document of two chunks: a paragraph of 500 words, then one more word. *)
Definition two_chunk_document : text :=
  concat (repeat (lit "word ") 500) ++ blank_line ++ lit "end".

Definition fiction (_ : text) : exn + string := inr "literary fiction"%string.

(** A service that is down, and one that answers the first request only. *)
Definition service_down (_ : nat) (_ : prompt) : outcome :=
  Raises (ServiceError "connection refused").

Definition service_down_after_one (n : nat) (_ : prompt) : outcome :=
  match n with
  | O => Responds [Some answer_one]
  | S _ => Raises (ServiceError "connection refused")
  end.

(** Answers the first request with the first answer, the others with the
    second. *)
Definition service_two_answers (n : nat) (_ : prompt) : outcome :=
  match n with
  | O => Responds [Some answer_one]
  | S _ => Responds [Some answer_two]
  end.

(** Fails twice, answers without content once, then answers. *)
Definition service_flaky (n : nat) (_ : prompt) : outcome :=
  match n with
  | 0 | 1 => Raises (ServiceError "timeout")
  | 2 => Responds [Some []]
  | _ => Responds [Some answer_one]
  end%nat.

(** ** Runs of normalize_footnotes *)

(** The identifiers of the references and of the definitions of a parse. *)
Fixpoint refs_of (ps : list Re.piece) : list text :=
  match ps with
  | [] => []
  | Re.Kept _ :: r => refs_of r
  | Re.Hit i :: r => if followed r then refs_of r else i :: refs_of r
  end.

Fixpoint defs_of (ps : list Re.piece) : list text :=
  match ps with
  | [] => []
  | Re.Kept _ :: r => defs_of r
  | Re.Hit i :: r => if followed r then i :: defs_of r else defs_of r
  end.

Fixpoint collision_free `{SetOrder} (raw : list text) (K : Z) : bool :=
  match raw with
  | [] => true
  | t :: rest =>
      no_collision (fst (footnote_mapping t K))
      && collision_free rest (snd (normalize_footnotes t K))
  end.

Fixpoint total_ids (raw : list text) : nat :=
  match raw with
  | [] => 0
  | t :: rest => length (distinct_ids t) + total_ids rest
  end.


(** What the second loop makes of one identifier: the entries of the
    mapping applied to it one after the other. *)
Definition chain (m : mapping) (i : text) : text :=
  fold_left (fun i kv => swap (fst kv) (snd kv) i) m i.

(** The markers of a text renamed by a function on identifiers. *)
Definition rename_by (f : text -> text) (t : text) : text :=
  render (retag f (Re.scan ANY_MARKER 0 t)).

(** The text outside the markers. *)
Definition unmarked (t : text) : text := Re.sub ANY_MARKER [] t.

(** Another admissible iteration order: the reverse of [nodup]. *)
Definition reversed_order : SetOrder :=
  {| set_list := fun l => rev (nodup text_eq_dec l);
     set_list_perm := fun l =>
       Permutation_sym (Permutation_rev (nodup text_eq_dec l)) |}.

(** Two spellings of the number one. *)
Definition two_spellings : text := lit "x[^1] y[^01]".

(** An answer numbered 5 and 7. *)
Definition answer_sparse : text := lit "c[^5] d[^7] [^5]: x [^7]: y".

(** ** Chunks that are full *)

(** [len(s.split())] *)
Definition len_words (s : text) : Z := Z.of_nat (length (py_split s)).

(** The first paragraph of [h] did not fit behind [g]. *)
Definition overflows (B : Z) (g h : list text) : Prop :=
  match h with
  | p :: _ => (Z.of_nat (word_count g + length (py_split p)) > B)%Z
  | [] => False
  end.

(** Every chunk but the last is followed by a paragraph that did not fit. *)
Fixpoint tight (B : Z) (gs : list (list text)) : Prop :=
  match gs with
  | [] => True
  | g :: rest =>
      match rest with
      | h :: _ => overflows B g h
      | [] => True
      end /\ tight B rest
  end.

(** What the loop of [split_into_chunks] keeps: the length it counts is the
    word count of the current chunk, and the chunks closed so far with the
    current one are tight. *)
Definition full (B : Z) (st : chunking (list text)) : Prop :=
  current_length st = word_count (current_chunk st)
  /\ match current_chunk st with
     | [] => chunks st = []
     | _ :: _ => tight B (chunks st ++ [current_chunk st])
     end.

(** ** What a run leaves *)

Definition is_write (e : event) : bool :=
  match e with WriteText _ => true | _ => false end.

(** The service gave [answer] to some request for [chunk]. *)
Definition answered (service : nat -> prompt -> outcome) (guidance : string)
  (chunk answer : text) : Prop :=
  answer <> []
  /\ exists n,
       reply (service n {| prompt_guidance := guidance;
                           prompt_chunk := chunk |}) = inr answer.

(** The loop of [process_file] over [chunks], the first of them chunk
    [i + 1] of [n], from request [first] of the run on, when every chunk
    gets an answer: a chunk takes [k] requests that fail, two at most, each
    with its notice and its sleep of five seconds, and one request more,
    which is answered.  [answers] are the answers in the order of the
    chunks, [ev] is what the loop leaves in the trace, and [last] is the
    number of requests sent when it ends. *)
Inductive served (service : nat -> prompt -> outcome) (guidance : string)
  (n : nat)
  : nat -> nat -> list text -> list text -> list event -> nat -> Prop :=
| served_nil i first : served service guidance n i first [] [] [] first
| served_cons i first chunk chunks k answer answers ev last :
    (k <= 2)%nat ->
    (forall j, (j < k)%nat ->
       fails service {| prompt_guidance := guidance; prompt_chunk := chunk |}
         (first + j)) ->
    reply (service (first + k)
             {| prompt_guidance := guidance; prompt_chunk := chunk |})
    = inr answer ->
    served service guidance n (S i) (first + k + 1) chunks answers ev last ->
    served service guidance n i first (chunk :: chunks) (answer :: answers)
      (Progress (i + 1) n
       :: failed_rounds service
            {| prompt_guidance := guidance; prompt_chunk := chunk |}
            5 first k
       ++ Request {| prompt_guidance := guidance; prompt_chunk := chunk |}
       :: ev)
      last.

(** ** detect_genre_intro: reading the answer of the classifier *)

(** [c.lower()] on code points below 256: the letters A-Z, and the letters
    from 192 to 222 but for the multiplication sign (215). *)
Definition lower_char (c : ascii) : ascii :=
  let n := nat_of_ascii c in
  if ((65 <=? n) && (n <=? 90)
      || (192 <=? n) && (n <=? 222) && negb (n =? 215))%nat
  then ascii_of_nat (n + 32) else c.

Definition lower (s : text) : text := map lower_char s.

(** A literal in lower case matched under [re.IGNORECASE]. *)
Fixpoint starts_with_ci (p s : text) : bool :=
  match p, s with
  | [], _ => true
  | a :: p', b :: s' => Ascii.eqb a (lower_char b) && starts_with_ci p' s'
  | _ :: _, [] => false
  end.

(** [.]: any character but the newline. *)
Definition is_dot (c : ascii) : bool := negb (Ascii.eqb c newline).

(** The index of the last character of [ws] that [.] matches. *)
Fixpoint last_dot (ws : text) : option nat :=
  match ws with
  | [] => None
  | c :: r =>
      match last_dot r with
      | Some k => Some (S k)
      | None => if is_dot c then Some 0%nat else None
      end
  end.

(** [r"genre:\s*(.+)"] with [re.IGNORECASE].  [\s*] takes the whole run of
    white space.  When a character follows the run it is not white space,
    hence not a newline, and [.+] runs from it to the end of the line.  When
    the text ends with the run, [\s*] gives characters back until [.] matches
    the one given back last. *)
Definition GENRE_PATTERN : Re.pattern := fun s =>
  if starts_with_ci (lit "genre:") s then
    let (ws, rest) := span is_space (skipn 6 s) in
    match rest with
    | _ :: _ =>
        let g := fst (span is_dot rest) in
        Some (6 + length ws + length g, g)%nat
    | [] =>
        match last_dot ws with
        | Some k =>
            let g := fst (span is_dot (skipn k ws)) in
            Some (6 + k + length g, g)%nat
        | None => None
        end
    end
  else None.

(** [re.search(pattern, s)]: the first position with a match, from the left;
    [None] when there is none.  The result is group 1 of the match. *)
Fixpoint search (p : Re.pattern) (s : text) : option text :=
  match p s with
  | Some (_, g) => Some g
  | None =>
      match s with
      | [] => None
      | _ :: s' => search p s'
      end
  end.

(** The last two lines of [detect_genre_intro], from the content of the
    answer to the label. *)
Definition read_genre (content : text) : string :=
  match search GENRE_PATTERN content with
  | Some g => string_of_list_ascii (lower (strip g))
  | None => "other"%string
  end.

Definition colon : ascii := ":".

(** ** The name of the output file *)

(** [s.rfind(c)]: the index of the last [c] of [s]. *)
Fixpoint rfind (c : ascii) (s : text) : option nat :=
  match s with
  | [] => None
  | a :: r =>
      match rfind c r with
      | Some k => Some (S k)
      | None => if Ascii.eqb a c then Some 0%nat else None
      end
  end.

(** [PurePath.stem], on the last component of the path: the name up to its
    last dot, unless that dot is the first or the last character of the
    name. *)
Definition stem (name : text) : text :=
  match rfind "." name with
  | Some i =>
      if ((0 <? i) && (i <? length name - 1))%nat then firstn i name
      else name
  | None => name
  end.

(** The name of [input_path.with_name(input_path.stem + "_annotated.txt")],
    from the name of [input_path].  [with_name] raises [ValueError] for a
    path without a name. *)
Definition output_name (name : text) : option text :=
  match name with
  | [] => None
  | _ :: _ => Some (stem name ++ lit "_annotated.txt")
  end.

(** ** Time spent waiting *)

(** The seconds slept in a trace. *)
Definition slept (tr : list event) : nat :=
  list_sum (map (fun e => match e with Sleep d => d | _ => 0%nat end) tr).

(** ** The paragraphs of a document, in the words of the specification

    "A maximal run of non-blank-line text delimited by one or more blank
    lines in the Document."  A line is what stands between two newlines; it
    is blank when it holds white space only. *)

Fixpoint lines (s : text) : list text :=
  match s with
  | [] => [[]]
  | c :: r =>
      if Ascii.eqb c newline then [] :: lines r
      else
        match lines r with
        | l :: ls => (c :: l) :: ls
        | [] => [[c]]
        end
  end.

Definition blank (l : text) : bool := forallb is_space l.

(** The maximal runs of lines that are not blank, every run with its
    newlines between the lines. *)
Fixpoint gather (ls : list text) : list text :=
  match ls with
  | [] => []
  | l :: rest =>
      if blank l then gather rest
      else
        match rest with
        | [] => [l]
        | l' :: _ =>
            if blank l' then l :: gather rest
            else
              match gather rest with
              | p :: ps => (l ++ newline :: p) :: ps
              | [] => [l]
              end
        end
  end.

Definition document_paragraphs (t : text) : list text := gather (lines t).

(** No line of the text is blank. *)
Definition solid (p : text) : Prop :=
  Forall (fun l => blank l = false) (lines p).

(** A text with a character that is not white space. *)
Definition has_text (t : text) : bool :=
  existsb (fun c => negb (is_space c)) t.

(** A document whose first paragraph is indented. *)
Definition indented_document : text := lit "  a" ++ blank_line ++ lit "b".

(** A document of three paragraphs with white space around it and a line
    of spaces between the first two. *)
Definition spaced_document : text :=
  lit " one" ++ [newline] ++ lit "two " ++ [newline; " "; newline]
  ++ lit " three" ++ blank_line ++ lit "four" ++ [newline; newline; " "].

(** A list with its first, or its last, element changed. *)
Definition on_first (f : text -> text) (ps : list text) : list text :=
  match ps with
  | [] => []
  | p :: r => f p :: r
  end.

Fixpoint on_last (f : text -> text) (ps : list text) : list text :=
  match ps with
  | [] => []
  | [p] => [f p]
  | p :: r => p :: on_last f r
  end.
(** * Properties *)

#[local] Arguments Ascii.eqb : simpl never.

(** ** Texts *)

Lemma starts_with_spec p : forall s,
  starts_with p s = true <-> exists r, s = p ++ r.
Proof.
  induction p as [|a p IH]; intro s; simpl.
  - split; eauto.
  - destruct s as [|b s].
    + split; [discriminate | intros [r Hr]; discriminate].
    + rewrite andb_true_iff, IH. split.
      * intros [E [r ->]]. apply Ascii.eqb_eq in E. subst. eauto.
      * intros [r Hr]. injection Hr as -> ->.
        split; [apply Ascii.eqb_refl | eauto].
Qed.

(** A text that goes on with a character the pattern does not contain
    matches no more and no less than the text cut there. *)
Lemma starts_with_app_stop p c x : ~ In c p -> forall s,
  starts_with p (s ++ c :: x) = starts_with p s.
Proof.
  induction p as [|a p IH]; intros Hc s; auto.
  destruct s as [|b s]; simpl.
  - destruct (Ascii.eqb_spec a c); auto. subst. exfalso. apply Hc; simpl; auto.
  - rewrite IH; auto. intro; apply Hc; simpl; auto.
Qed.

Lemma span_spec f s :
  s = fst (span f s) ++ snd (span f s) /\ forallb f (fst (span f s)) = true.
Proof.
  induction s as [|c s [IH1 IH2]]; simpl; auto.
  destruct (f c) eqn:E; simpl; auto.
  destruct (span f s) as [a b]; simpl in *. rewrite E.
  split; [now f_equal | assumption].
Qed.

Lemma span_app_stop f c x : f c = false -> forall s,
  span f (s ++ c :: x) = (fst (span f s), snd (span f s) ++ c :: x).
Proof.
  intros Hc s. induction s as [|b s IH]; simpl.
  - now rewrite Hc.
  - destruct (f b); auto. rewrite IH. now destruct (span f s).
Qed.

Lemma span_all f c x s :
  forallb f s = true -> f c = false -> span f (s ++ c :: x) = (s, c :: x).
Proof.
  intros Hs Hc. induction s as [|b s IH]; simpl in *.
  - now rewrite Hc.
  - apply andb_prop in Hs as [-> Hs]. now rewrite IH.
Qed.

Lemma first_seen_perm (l : list text) :
  Permutation (first_seen l) (nodup text_eq_dec l).
Proof.
  unfold first_seen. rewrite <- Permutation_rev.
  apply NoDup_Permutation; try apply NoDup_nodup.
  intro x. rewrite !nodup_In, <- in_rev. tauto.
Qed.

#[export] Instance first_seen_order : SetOrder :=
  {| set_list := first_seen; set_list_perm := first_seen_perm |}.

(** ** The chunker *)

Section ChunkerFacts.

Variable B : Z.

Let state := chunking (list text).
Let step : state -> text -> state := add_paragraph (fun g => g) B.

(** The loop that joins and the loop that keeps the paragraphs apart run
    in step. *)
Lemma chunk_paragraphs_close (A : Type) (close : list text -> A) ps :
  chunk_paragraphs close B ps = map close (chunk_groups B ps).
Proof.
  unfold chunk_groups, chunk_paragraphs.
  set (lower := fun st : state =>
         {| chunks := map close (chunks st);
            current_chunk := current_chunk st;
            current_length := current_length st |}).
  change {| chunks := @nil A; current_chunk := []; current_length := 0 |}
    with (lower {| chunks := []; current_chunk := []; current_length := 0 |}).
  generalize ({| chunks := @nil (list text); current_chunk := [];
                 current_length := 0 |}).
  induction ps as [|p ps IH]; intro st; simpl.
  - unfold flush; simpl. destruct (nonempty (current_chunk st)); simpl; auto.
    now rewrite map_app.
  - rewrite <- IH. f_equal. unfold add_paragraph, lower; simpl.
    destruct (_ && _); simpl; auto. now rewrite map_app.
Qed.

(** What the loop has gathered, flattened: the paragraphs seen so far. *)
Lemma flush_fold_concat ps : forall st : state,
  concat (flush (fun g => g) (fold_left step ps st))
  = concat (chunks st) ++ current_chunk st ++ ps.
Proof.
  induction ps as [|p ps IH]; intro st; simpl.
  - unfold flush. destruct (current_chunk st) as [|q qs]; simpl.
    + now rewrite app_nil_r.
    + rewrite concat_app; simpl. now rewrite !app_nil_r.
  - rewrite IH. unfold step, add_paragraph; simpl.
    destruct (_ && _) eqn:E; simpl.
    + rewrite concat_app; simpl. now rewrite app_nil_r, <- !app_assoc.
    + now rewrite <- !app_assoc.
Qed.

Lemma concat_chunk_groups ps : concat (chunk_groups B ps) = ps.
Proof. unfold chunk_groups, chunk_paragraphs. now rewrite flush_fold_concat. Qed.

(** No chunk is empty. *)
Lemma flush_fold_nonempty ps : forall st : state,
  Forall (fun g => g <> []) (chunks st) ->
  Forall (fun g => g <> []) (flush (fun g => g) (fold_left step ps st)).
Proof.
  induction ps as [|p ps IH]; intros st H; simpl.
  - unfold flush. destruct (current_chunk st) eqn:E; simpl; auto.
    apply Forall_app; split; auto. constructor; [congruence | constructor].
  - apply IH. unfold step, add_paragraph.
    destruct (nonempty (current_chunk st)) eqn:E;
      rewrite ?andb_true_r, ?andb_false_r; simpl; auto.
    destruct (_ >? _)%Z; simpl; auto.
    apply Forall_app; split; auto. constructor; [|constructor].
    destruct (current_chunk st); [discriminate | congruence].
Qed.

Lemma chunk_groups_nonempty ps : Forall (fun g => g <> []) (chunk_groups B ps).
Proof. apply flush_fold_nonempty. constructor. Qed.

Lemma word_count_app g h : word_count (g ++ h) = word_count g + word_count h.
Proof. unfold word_count. now rewrite map_app, list_sum_app. Qed.

Lemma flush_fold_fits ps : forall st : state,
  Forall (fits B) (chunks st) ->
  current_chunk st = [] \/ fits B (current_chunk st) ->
  current_length st = word_count (current_chunk st) ->
  Forall (fits B) (flush (fun g => g) (fold_left step ps st)).
Proof.
  induction ps as [|p ps IH]; intros st Hc Hcur Hlen; simpl.
  - unfold flush. destruct (current_chunk st) eqn:E; simpl; auto.
    apply Forall_app; split; auto. constructor; [|constructor].
    destruct Hcur; [discriminate | assumption].
  - apply IH; unfold step, add_paragraph.
    + destruct (_ && _) eqn:E; simpl; auto.
      apply andb_prop in E as [_ E].
      apply Forall_app; split; auto. constructor; [|constructor].
      destruct Hcur as [H|H]; auto. rewrite H in E; discriminate.
    + right. destruct (_ && _) eqn:E; simpl.
      * right; now exists p.
      * apply andb_false_iff in E as [E|E].
        -- left. rewrite word_count_app, <- Hlen.
           unfold word_count at 1; simpl. rewrite Nat.add_0_r.
           rewrite Z.gtb_ltb in E. apply Z.ltb_ge in E. lia.
        -- destruct (current_chunk st); [|discriminate].
           right; now exists p.
    + destruct (_ && _); simpl.
      * unfold word_count; simpl; lia.
      * rewrite word_count_app, Hlen. unfold word_count at 3; simpl; lia.
Qed.

Lemma chunk_groups_fit ps : Forall (fits B) (chunk_groups B ps).
Proof. apply flush_fold_fits; simpl; auto. Qed.

End ChunkerFacts.

Lemma join_app sep (g h : list text) :
  g <> [] -> h <> [] -> join sep (g ++ h) = join sep g ++ sep ++ join sep h.
Proof.
  intros Hg Hh. induction g as [|p g IH]; [congruence|].
  destruct g as [|q g].
  - simpl. destruct h; [congruence | reflexivity].
  - change (join sep ((p :: q :: g) ++ h))
      with (p ++ sep ++ join sep ((q :: g) ++ h)).
    rewrite IH by congruence.
    change (join sep (p :: q :: g)) with (p ++ sep ++ join sep (q :: g)).
    now rewrite <- !app_assoc.
Qed.

Lemma join_concat sep (gs : list (list text)) :
  Forall (fun g => g <> []) gs ->
  join sep (map (join sep) gs) = join sep (concat gs).
Proof.
  induction 1 as [|g gs Hg Hgs IH]; [reflexivity|].
  destruct gs as [|h gs].
  - simpl. now rewrite app_nil_r.
  - change (join sep (map (join sep) (g :: h :: gs)))
      with (join sep g ++ sep ++ join sep (map (join sep) (h :: gs))).
    rewrite IH. change (concat (g :: h :: gs)) with (g ++ concat (h :: gs)).
    rewrite join_app; auto.
    inversion Hgs; subst. simpl. destruct h; [congruence | discriminate].
Qed.

(** [re.split] never returns the empty list, so there is always a chunk. *)
Lemma between_nonempty ps : Re.between ps <> [].
Proof.
  destruct ps as [|[c|g] ps]; simpl; try discriminate.
  destruct (Re.between ps); discriminate.
Qed.

Lemma split_into_chunks_nonempty t B : split_into_chunks t B <> [].
Proof.
  unfold split_into_chunks. rewrite chunk_paragraphs_close.
  intro E. apply map_eq_nil in E.
  pose proof (concat_chunk_groups B (paragraphs_of t)) as C.
  rewrite E in C. simpl in C.
  symmetry in C. now apply between_nonempty in C.
Qed.

(** ** Chunks split again *)

Lemma BLANK_LINE_cons c x :
  BLANK_LINE (c :: x)
  = if Ascii.eqb c newline then
      match last_newline (run x) with
      | Some k => Some (k + 2, [])%nat
      | None => None
      end
    else None.
Proof. reflexivity. Qed.

Lemma BLANK_LINE_hit y n g :
  BLANK_LINE y = Some (n, g) ->
  exists x k, y = newline :: x /\ n = (k + 2)%nat /\ g = []
              /\ last_newline (run x) = Some k.
Proof.
  destruct y as [|c x]; [discriminate|]. rewrite BLANK_LINE_cons.
  destruct (Ascii.eqb_spec c newline) as [->|]; [|discriminate].
  destruct (last_newline (run x)) as [k|] eqn:E; [|discriminate].
  intro H; injection H as <- <-. eauto 6.
Qed.

Lemma space_or_word x :
  forallb is_space x = true
  \/ exists ws n r, x = ws ++ n :: r /\ forallb is_space ws = true
                    /\ is_space n = false.
Proof.
  induction x as [|c x IH]; [now left|].
  destruct (is_space c) eqn:E.
  - destruct IH as [IH|(ws & n & r & -> & Hws & Hn)].
    + left. simpl. now rewrite E.
    + right. exists (c :: ws), n, r. simpl. now rewrite E.
  - right. exists [], c, x. auto.
Qed.

Lemma run_cons_space c x : is_space c = true -> run (c :: x) = c :: run x.
Proof.
  intro H. unfold run. simpl. rewrite H. now destruct (span is_space x).
Qed.

Lemma run_all_space a b : forallb is_space a = true -> run (a ++ b) = a ++ run b.
Proof.
  induction a as [|c a IH]; simpl; intro H; auto.
  apply andb_prop in H as [Hc H].
  rewrite run_cons_space by assumption. now rewrite IH.
Qed.

Lemma run_word ws n r z :
  forallb is_space ws = true -> is_space n = false ->
  run ((ws ++ n :: r) ++ z) = ws.
Proof.
  intros Hws Hn. unfold run. rewrite <- app_assoc. simpl.
  now rewrite span_all.
Qed.

Lemma last_newline_app_newline a b : last_newline (a ++ newline :: b) <> None.
Proof.
  induction a as [|c a IH]; simpl.
  - destruct (last_newline b); discriminate.
  - destruct (last_newline (a ++ newline :: b)); [discriminate | congruence].
Qed.

(** Where the white space ahead holds no newline although a newline comes
    up, it ends before that newline, whatever comes instead. *)
Lemma run_stable x y :
  last_newline (run (x ++ newline :: y)) = None ->
  forall z, run (x ++ z) = run (x ++ newline :: y).
Proof.
  intros H z.
  destruct (space_or_word x) as [Hx|(ws & n & r & -> & Hws & Hn)].
  - exfalso. rewrite run_all_space, run_cons_space in H by auto.
    now apply last_newline_app_newline in H.
  - now rewrite !run_word.
Qed.

Lemma quiet_stable p y z :
  quiet BLANK_LINE p (newline :: y) -> quiet BLANK_LINE p z.
Proof.
  intros Hq p1 c p2 E. specialize (Hq p1 c p2 E).
  rewrite BLANK_LINE_cons in *.
  destruct (Ascii.eqb c newline); auto.
  destruct (last_newline (run (p2 ++ newline :: y))) eqn:F; [discriminate|].
  now rewrite (run_stable _ _ F z), F.
Qed.

Lemma quiet_cons P c p ctx :
  P (c :: p ++ ctx) = None -> quiet P p ctx -> quiet P (c :: p) ctx.
Proof.
  intros Hc Hq [|a p1] d p2 E; simpl in E; injection E as <- E.
  - now subst.
  - eauto.
Qed.

Lemma quiet_tail P c p ctx : quiet P (c :: p) ctx -> quiet P p ctx.
Proof.
  intros Hq p1 d p2 E. apply (Hq (c :: p1) d p2). simpl. now f_equal.
Qed.

(** The walk over a text, by cases. *)
Lemma scan_skip P s : forall k,
  Re.scan P k s = Re.scan P 0 (skipn k s).
Proof.
  induction s as [|c s IH]; intro k.
  - now destruct k.
  - destruct k as [|k]; [reflexivity|]. simpl. apply IH.
Qed.

Lemma scan_quiet P p ctx :
  quiet P p ctx ->
  Re.scan P 0 (p ++ ctx) = map Re.Kept p ++ Re.scan P 0 ctx.
Proof.
  induction p as [|c p IH]; intro Hq; [reflexivity|].
  change ((c :: p) ++ ctx) with (c :: p ++ ctx).
  cbn [Re.scan map app]. rewrite (Hq [] c p eq_refl).
  f_equal. apply IH. now apply quiet_tail in Hq.
Qed.

Lemma scan_taken P c s n g :
  P (c :: s) = Some (n, g) -> (1 <= n)%nat ->
  Re.scan P 0 (c :: s) = Re.Hit g :: Re.scan P 0 (skipn n (c :: s)).
Proof.
  intros H Hn. cbn [Re.scan]. rewrite H. f_equal. rewrite scan_skip.
  now replace n with (S (pred n)) at 2 by lia.
Qed.

Lemma scan_hit y n g :
  BLANK_LINE y = Some (n, g) ->
  Re.scan BLANK_LINE 0 y = Re.Hit g :: Re.scan BLANK_LINE 0 (skipn n y).
Proof.
  intro H. destruct (BLANK_LINE_hit _ H) as (x & k & -> & -> & _ & _).
  apply scan_taken; auto. lia.
Qed.

Lemma between_kept p r :
  Re.between (map Re.Kept p ++ r)
  = match Re.between r with
    | cur :: more => (p ++ cur) :: more
    | [] => [p]
    end.
Proof.
  destruct (Re.between r) as [|cur more] eqn:E;
    [now apply between_nonempty in E|].
  induction p as [|c p IH]; simpl.
  - now rewrite E.
  - now rewrite IH.
Qed.

Lemma split_of_layout s ps : layout s ps -> Re.split BLANK_LINE s = ps.
Proof.
  unfold Re.split. induction 1 as [p Hq|p y n g ps Hq Hy Hl IH].
  - rewrite <- (app_nil_r p) at 1. rewrite scan_quiet by assumption.
    rewrite between_kept. simpl. now rewrite app_nil_r.
  - rewrite scan_quiet by assumption. rewrite (scan_hit _ Hy).
    rewrite between_kept. simpl. rewrite IH. now rewrite app_nil_r.
Qed.

Lemma layout_extend c s cur more :
  layout s (cur :: more) -> BLANK_LINE (c :: s) = None ->
  layout (c :: s) ((c :: cur) :: more).
Proof.
  intros Hl Hc. inversion Hl as [p Hq|p y n g ps Hq Hy Hl']; subst.
  - apply layout_last. apply quiet_cons; auto. now rewrite app_nil_r.
  - change (c :: cur ++ y) with ((c :: cur) ++ y).
    eapply layout_cons; eauto. now apply quiet_cons.
Qed.

Lemma layout_of_split_upto n : forall s,
  (length s <= n)%nat -> layout s (Re.split BLANK_LINE s).
Proof.
  induction n as [|n IH]; intros s Hn.
  - destruct s; [|simpl in Hn; lia].
    apply layout_last. intros [|a p1] c p2 E; discriminate.
  - destruct s as [|c s].
    + apply layout_last. intros [|a p1] c p2 E; discriminate.
    + unfold Re.split. destruct (BLANK_LINE (c :: s)) as [[k g]|] eqn:E.
      * rewrite (scan_hit _ E). cbn [Re.between].
        change (c :: s) with ([] ++ c :: s) at 1.
        eapply layout_cons; eauto.
        -- intros [|a p1] d p2 F; discriminate.
        -- apply IH.
           destruct (BLANK_LINE_hit _ E) as (x & j & _ & -> & _ & _).
           rewrite length_skipn. cbn [length] in *. lia.
      * cbn [Re.scan]. rewrite E. cbn [Re.between].
        assert (L : layout s (Re.split BLANK_LINE s))
          by (apply IH; simpl in Hn; lia).
        unfold Re.split in L.
        destruct (Re.between (Re.scan BLANK_LINE 0 s)) as [|cur more] eqn:F.
        -- now apply between_nonempty in F.
        -- now apply layout_extend.
Qed.

Lemma layout_of_split s : layout s (Re.split BLANK_LINE s).
Proof. now apply (@layout_of_split_upto (length s)). Qed.

Lemma last_newline_bound w : forall k,
  last_newline w = Some k -> (k < length w)%nat.
Proof.
  induction w as [|c w IH]; intros k; simpl; [discriminate|].
  destruct (last_newline w) as [j|].
  - intro H; injection H as <-. specialize (IH j eq_refl). lia.
  - destruct (Ascii.eqb c newline); [|discriminate].
    intro H; injection H as <-. lia.
Qed.

Lemma last_newline_behind w : forall k,
  last_newline w = Some k -> last_newline (skipn (S k) w) = None.
Proof.
  induction w as [|c w IH]; intros k; simpl; [discriminate|].
  destruct (last_newline w) as [j|] eqn:E.
  - intro H; injection H as <-. now apply IH.
  - destruct (Ascii.eqb c newline); [|discriminate].
    intro H; injection H as <-. exact E.
Qed.

Lemma run_skipn x : forall j,
  (j <= length (run x))%nat -> run (skipn j x) = skipn j (run x).
Proof.
  induction x as [|c x IH]; intros j Hj.
  - now destruct j.
  - destruct j as [|j]; [reflexivity|].
    destruct (is_space c) eqn:E.
    + rewrite run_cons_space in * by assumption. simpl in *.
      apply IH. lia.
    + unfold run in Hj. simpl in Hj. rewrite E in Hj. simpl in Hj. lia.
Qed.

(** Behind a blank line the white space has no newline left. *)
Lemma behind_blank_line y n g :
  BLANK_LINE y = Some (n, g) -> last_newline (run (skipn n y)) = None.
Proof.
  intro H. destruct (BLANK_LINE_hit _ H) as (x & k & -> & -> & _ & Hk).
  replace (k + 2)%nat with (S (S k)) by lia.
  change (skipn (S (S k)) (newline :: x)) with (skipn (S k) x).
  rewrite run_skipn by (apply last_newline_bound in Hk; lia).
  now apply last_newline_behind.
Qed.

Lemma join_head sep q g :
  exists z, join sep (q :: g) = q ++ z.
Proof.
  destruct g as [|r g].
  - exists []. simpl. now rewrite app_nil_r.
  - eexists. reflexivity.
Qed.

(** The head of a layout begins with white space without a newline when
    the text does, also when its paragraphs are joined anew. *)
Lemma layout_head_run s q ps g after :
  layout s (q :: ps) -> q :: ps = (q :: g) ++ after ->
  last_newline (run s) = None ->
  last_newline (run (join blank_line (q :: g))) = None.
Proof.
  intros Hl E Hs.
  inversion Hl as [p Hq|p y n g' ps' Hq Hy Hl']; subst.
  - destruct g; [|destruct g; discriminate]. exact Hs.
  - destruct (BLANK_LINE_hit _ Hy) as (x & k & -> & _).
    destruct (join_head blank_line q g) as [z ->].
    now rewrite (run_stable _ _ Hs z).
Qed.

Lemma layout_prefix s ps :
  layout s ps -> forall g after,
  ps = g ++ after -> g <> [] -> layout (join blank_line g) g.
Proof.
  induction 1 as [p Hq|p y n g0 ps Hq Hy Hl IH]; intros g after E Hg.
  - destruct g as [|q g]; [congruence|].
    injection E as <- E. destruct g; [|discriminate].
    now apply layout_last.
  - destruct g as [|q g]; [congruence|]. injection E as <- E.
    destruct (BLANK_LINE_hit _ Hy) as (x & k & -> & Hn & _ & Hk).
    destruct g as [|r g].
    + apply layout_last. eapply quiet_stable; eauto.
    + change (join blank_line (p :: r :: g))
        with (p ++ newline :: newline :: join blank_line (r :: g)).
      assert (Hr : last_newline (run (join blank_line (r :: g))) = None).
      { destruct ps as [|r' ps]; [discriminate|].
        injection E as -> E.
        eapply layout_head_run; eauto.
        - simpl. f_equal. exact E.
        - now apply behind_blank_line in Hy. }
      eapply (layout_cons (n := 2) (g := [])).
      * eapply quiet_stable; eauto.
      * rewrite BLANK_LINE_cons. rewrite Ascii.eqb_refl.
        rewrite run_cons_space by reflexivity.
        cbn [last_newline]. rewrite Hr. now rewrite Ascii.eqb_refl.
      * cbn [skipn]. eapply IH; eauto. discriminate.
Qed.

Lemma layout_part s ps :
  layout s ps -> forall before g after,
  ps = before ++ g ++ after -> g <> [] -> layout (join blank_line g) g.
Proof.
  induction 1 as [p Hq|p y n g0 ps Hq Hy Hl IH]; intros before g after E Hg.
  - destruct before as [|b before].
    + apply (@layout_prefix _ _ (layout_last Hq) g after E Hg).
    + injection E as _ E. destruct before; destruct g; try discriminate.
      congruence.
  - destruct before as [|b before].
    + apply (@layout_prefix _ _ (layout_cons Hq Hy Hl) g after E Hg).
    + injection E as _ E. eauto.
Qed.

(** A run of paragraphs of a text, joined with blank lines and split
    again, is that run of paragraphs. *)
Lemma split_join_part s before g after :
  Re.split BLANK_LINE s = before ++ g ++ after -> g <> [] ->
  Re.split BLANK_LINE (join blank_line g) = g.
Proof.
  intros E Hg. apply split_of_layout.
  apply (@layout_part _ _ (layout_of_split s) before g after E Hg).
Qed.

Lemma chunk_groups_split t B :
  Forall (fun g => Re.split BLANK_LINE (join blank_line g) = g)
    (chunk_groups B (paragraphs_of t)).
Proof.
  apply Forall_forall. intros g Hin.
  pose proof (chunk_groups_nonempty B (paragraphs_of t)) as Hne.
  rewrite Forall_forall in Hne. specialize (Hne g Hin).
  apply in_split in Hin as (G1 & G2 & E).
  pose proof (concat_chunk_groups B (paragraphs_of t)) as C.
  rewrite E, concat_app in C. simpl in C.
  apply (@split_join_part (strip t) (concat G1) g (concat G2)); auto.
Qed.

(** The chunks are the paragraphs that [re.split] cuts from the stripped
    text, gathered in groups and joined with a blank line.  Every chunk,
    split on blank lines again, gives back its own paragraphs, and the
    chunks joined with blank lines are the paragraphs joined with blank
    lines. *)
Lemma split_into_chunks_covers (t : text) (B : Z) :
  let paragraphs := paragraphs_of t in
  let groups := chunk_groups B paragraphs in
  let chunks := split_into_chunks t B in
  chunks = map (join blank_line) groups
  /\ concat groups = paragraphs
  /\ map (Re.split BLANK_LINE) chunks = groups
  /\ concat (map (Re.split BLANK_LINE) chunks) = paragraphs
  /\ join blank_line chunks = join blank_line paragraphs.
Proof.
  intros paragraphs groups chunks.
  assert (E : chunks = map (join blank_line) groups)
    by apply chunk_paragraphs_close.
  assert (C : concat groups = paragraphs) by apply concat_chunk_groups.
  assert (S : map (Re.split BLANK_LINE) chunks = groups).
  { assert (G : forall l : list (list text),
              Forall (fun g => Re.split BLANK_LINE (join blank_line g) = g) l ->
              map (fun g => Re.split BLANK_LINE (join blank_line g)) l = l)
      by (induction 1; simpl; congruence).
    rewrite E, map_map. apply G, chunk_groups_split. }
  repeat split; auto.
  - now rewrite S.
  - rewrite E, join_concat by apply chunk_groups_nonempty. now rewrite C.
Qed.

(** ** Words of a joined chunk *)

Lemma py_split_word c s :
  is_space c = false -> exists w ws, py_split (c :: s) = w :: ws.
Proof.
  intro Hc. cbn [py_split]. rewrite Hc.
  destruct s as [|d s]; eauto.
  destruct (is_space d); eauto.
  destruct (py_split (d :: s)); eauto.
Qed.

Lemma py_split_glue c d s :
  is_space c = false -> is_space d = false ->
  length (py_split (c :: d :: s)) = length (py_split (d :: s)).
Proof.
  intros Hc Hd.
  destruct (@py_split_word d s Hd) as (w & ws & E).
  change (py_split (c :: d :: s))
    with (if is_space c then py_split (d :: s)
          else if is_space d then [c] :: py_split (d :: s)
          else match py_split (d :: s) with
               | w :: ws => (c :: w) :: ws
               | [] => [[c]]
               end).
  rewrite Hc, Hd, E. reflexivity.
Qed.

(** White space between two texts keeps their words apart. *)
Lemma py_split_space_between a : forall c b,
  is_space c = true ->
  length (py_split (a ++ c :: b))
  = (length (py_split a) + length (py_split b))%nat.
Proof.
  induction a as [|x a IH]; intros c b Hc.
  - simpl. now rewrite Hc.
  - destruct (is_space x) eqn:Hx.
    + change ((x :: a) ++ c :: b) with (x :: (a ++ c :: b)).
      cbn [py_split]. rewrite Hx. now apply IH.
    + destruct a as [|d a].
      * simpl. rewrite Hx, Hc. reflexivity.
      * destruct (is_space d) eqn:Hd.
        -- assert (G : forall r, py_split (x :: d :: r) = [x] :: py_split (d :: r)).
           { intro r.
             change (py_split (x :: d :: r))
               with (if is_space x then py_split (d :: r)
                     else if is_space d then [x] :: py_split (d :: r)
                     else match py_split (d :: r) with
                          | w :: ws => (x :: w) :: ws
                          | [] => [[x]]
                          end).
             now rewrite Hx, Hd. }
           change ((x :: d :: a) ++ c :: b) with (x :: d :: (a ++ c :: b)).
           rewrite !G. cbn [length].
           change (d :: a ++ c :: b) with ((d :: a) ++ c :: b).
           rewrite (IH c b Hc). reflexivity.
        -- change ((x :: d :: a) ++ c :: b) with (x :: d :: (a ++ c :: b)).
           rewrite !py_split_glue by assumption.
           now apply (IH c b).
Qed.

Lemma py_split_join g :
  length (py_split (join blank_line g)) = word_count g.
Proof.
  induction g as [|p g IH]; [reflexivity|].
  destruct g as [|q g].
  - unfold word_count. simpl. lia.
  - change (join blank_line (p :: q :: g))
      with (p ++ newline :: newline :: join blank_line (q :: g)).
    rewrite py_split_space_between by reflexivity.
    change (py_split (newline :: join blank_line (q :: g)))
      with (py_split (join blank_line (q :: g))).
    rewrite IH. unfold word_count. reflexivity.
Qed.

(** C6.  A chunk whose word count is over the budget is a single paragraph
    whose own word count is over the budget; every other chunk is within
    the budget.  The word count of a chunk, the number of words of its text,
    is the sum of the word counts of its paragraphs. *)
Theorem split_into_chunks_budget (t : text) (B : Z) :
  let groups := chunk_groups B (paragraphs_of t) in
  let words (s : text) := Z.of_nat (length (py_split s)) in
  split_into_chunks t B = map (join blank_line) groups
  /\ Forall (fun g =>
       words (join blank_line g) = Z.of_nat (word_count g)
       /\ ((words (join blank_line g) > B)%Z ->
           exists p, g = [p] /\ (words p > B)%Z)) groups
  /\ Forall (fun chunk =>
       (words chunk > B)%Z ->
       In chunk (paragraphs_of t)) (split_into_chunks t B).
Proof.
  intros groups words.
  assert (E : split_into_chunks t B = map (join blank_line) groups)
    by apply chunk_paragraphs_close.
  assert (F : Forall (fun g =>
       words (join blank_line g) = Z.of_nat (word_count g)
       /\ ((words (join blank_line g) > B)%Z ->
           exists p, g = [p] /\ (words p > B)%Z)) groups).
  { eapply Forall_impl; [|apply chunk_groups_fit].
    intros g Hg. unfold words. rewrite py_split_join. split; auto.
    destruct Hg as [H|[p ->]]; intro Hover; [lia|].
    exists p. split; auto. unfold word_count in Hover; simpl in Hover. lia. }
  repeat split; auto.
  rewrite E. apply Forall_forall. intros chunk Hin Hover.
  apply in_map_iff in Hin as (g & <- & Hg).
  rewrite Forall_forall in F. destruct (F g Hg) as [_ Hone].
  destruct (Hone Hover) as (p & -> & _).
  rewrite <- (concat_chunk_groups B (paragraphs_of t)).
  apply in_concat. exists [p]. split; simpl; auto.
Qed.

(** ** The footnote mapping *)

Lemma insert_by_perm key x l : Permutation (insert_by key x l) (x :: l).
Proof.
  induction l as [|y l IH]; simpl; auto.
  destruct (_ <=? _)%Z; auto.
  rewrite IH. apply perm_swap.
Qed.

Lemma sorted_by_perm key l : Permutation (sorted_by key l) l.
Proof.
  induction l as [|x l IH]; simpl; auto.
  rewrite insert_by_perm. now constructor.
Qed.

Lemma insert_by_ascending x l : ascending l -> ascending (insert_by int x l).
Proof.
  unfold ascending. induction 1 as [|y l Hs IH Hy]; simpl.
  - repeat constructor.
  - destruct (int x <=? int y)%Z eqn:E.
    + constructor; [now constructor|]. constructor. now apply Z.leb_le.
    + apply Z.leb_gt in E. constructor; auto.
      destruct l as [|z l]; simpl.
      * constructor; lia.
      * destruct (int x <=? int z)%Z; constructor; try lia.
        now inversion Hy.
Qed.

Lemma sorted_by_ascending l : ascending (sorted_by int l).
Proof.
  induction l as [|x l IH]; simpl.
  - constructor.
  - now apply insert_by_ascending.
Qed.

Lemma in_mapping_spec old m : in_mapping old m = true <-> In old (map fst m).
Proof.
  unfold in_mapping. rewrite existsb_exists, in_map_iff. unfold text_eqb.
  split; intros [kv [H1 H2]]; exists kv.
  - destruct (text_eq_dec (fst kv) old); [auto | discriminate].
  - destruct (text_eq_dec (fst kv) old); [auto | congruence].
Qed.

(** Over distinct identifiers the first loop never skips. *)
Lemma fold_assign ids : forall m K,
  NoDup ids ->
  (forall x, In x ids -> ~ In x (map fst m)) ->
  fold_left assign ids (m, K)
  = (m ++ combine ids (map str (upfrom K (length ids))),
     (K + Z.of_nat (length ids))%Z).
Proof.
  induction ids as [|x ids IH]; intros m K Hnd Hfresh.
  - simpl. now rewrite app_nil_r, Z.add_0_r.
  - inversion Hnd as [|? ? Hx Hnd']; subst.
    cbn [fold_left assign].
    destruct (in_mapping x m) eqn:E.
    + apply in_mapping_spec in E. exfalso. apply (Hfresh x); simpl; auto.
    + rewrite IH; auto.
      * cbn [length upfrom map combine]. rewrite <- app_assoc. simpl.
        f_equal. lia.
      * intros y Hy. rewrite map_app, in_app_iff. simpl.
        intros [H|[H|[]]].
        -- apply (Hfresh y); simpl; auto.
        -- congruence.
Qed.

Section Mapping.

Context {order : SetOrder}.

Lemma footnote_ids_perm t : Permutation (footnote_ids t) (distinct_ids t).
Proof.
  unfold footnote_ids, distinct_ids.
  rewrite sorted_by_perm. apply set_list_perm.
Qed.

Lemma footnote_ids_NoDup t : NoDup (footnote_ids t).
Proof.
  eapply Permutation_NoDup.
  - symmetry. apply footnote_ids_perm.
  - apply NoDup_nodup.
Qed.

Lemma footnote_ids_length t :
  length (footnote_ids t) = length (distinct_ids t).
Proof. apply Permutation_length, footnote_ids_perm. Qed.

Lemma footnote_mapping_eq t K :
  footnote_mapping t K
  = (combine (footnote_ids t)
       (map str (upfrom K (length (distinct_ids t)))),
     (K + Z.of_nat (length (distinct_ids t)))%Z).
Proof.
  unfold footnote_mapping.
  rewrite fold_assign; auto using footnote_ids_NoDup.
  now rewrite footnote_ids_length.
Qed.

Lemma normalize_footnotes_eq t K :
  normalize_footnotes t K
  = (fold_left rewrite_one (fst (footnote_mapping t K)) t,
     (K + Z.of_nat (length (distinct_ids t)))%Z).
Proof.
  unfold normalize_footnotes. now rewrite footnote_mapping_eq.
Qed.

End Mapping.

Lemma upfrom_length K n : length (upfrom K n) = n.
Proof. revert K; induction n; intro K; simpl; auto. Qed.

(** C3.  With D distinct identifiers in the text and the counter K coming
    in, the counter K + D goes out; the mapping has the distinct old
    identifiers as its keys, in ascending order of their numeric values, and
    gives them K, K+1, ..., K+D-1 in that order; a text without markers comes
    back unchanged, with the counter unchanged. *)
Theorem normalize_footnotes_counter `{SetOrder} (t : text) (K : Z) :
  let D := length (distinct_ids t) in
  let m := fst (footnote_mapping t K) in
  snd (normalize_footnotes t K) = (K + Z.of_nat D)%Z
  /\ Permutation (map fst m) (distinct_ids t)
  /\ ascending (map fst m)
  /\ map snd m = map str (upfrom K D)
  /\ (D = 0 -> normalize_footnotes t K = (t, K)).
Proof.
  intros D m.
  assert (Hm : m = combine (footnote_ids t) (map str (upfrom K D)))
    by (unfold m; now rewrite footnote_mapping_eq).
  assert (Hlen : length (footnote_ids t) = length (map str (upfrom K D)))
    by (rewrite length_map, upfrom_length; apply footnote_ids_length).
  assert (Hk : map fst m = footnote_ids t).
  { rewrite Hm. clear Hm. revert Hlen.
    generalize (map str (upfrom K D)). generalize (footnote_ids t).
    induction l as [|a l IH]; intros [|b l'] E; simpl in *; try lia; auto.
    f_equal. apply IH. lia. }
  repeat split.
  - now rewrite normalize_footnotes_eq.
  - rewrite Hk. apply footnote_ids_perm.
  - rewrite Hk. apply sorted_by_ascending.
  - rewrite Hm. clear Hm Hk. revert Hlen.
    generalize (map str (upfrom K D)). generalize (footnote_ids t).
    induction l as [|a l IH]; intros [|b l'] E; simpl in *; try lia; auto.
    f_equal. apply IH. lia.
  - intro HD. rewrite normalize_footnotes_eq. fold D. rewrite HD.
    assert (E : footnote_ids t = []).
    { apply length_zero_iff_nil. now rewrite footnote_ids_length. }
    fold m. rewrite Hm, E. simpl. f_equal. lia.
Qed.

(** ** Text the patterns do not look into *)

Lemma marker_spec s id rest :
  marker s = Some (id, rest) ->
  s = lit "[^" ++ id ++ close_bracket :: rest
  /\ id <> [] /\ forallb is_digit id = true.
Proof.
  unfold marker. destruct (starts_with (lit "[^") s) eqn:E; [|discriminate].
  apply starts_with_spec in E as [r ->].
  change (skipn 2 (lit "[^" ++ r)) with r.
  destruct (span_spec is_digit r) as [E1 E2].
  destruct (span is_digit r) as [a b]; simpl in E1, E2.
  destruct a as [|d a]; [discriminate|].
  destruct (starts_with (lit "]") b) eqn:E3; [|discriminate].
  apply starts_with_spec in E3 as [r' ->].
  intro H; injection H as <- <-. subst r. repeat split; auto. discriminate.
Qed.

(** A marker seen in a text is seen the same when the text goes on with a
    character that no marker holds behind its opening bracket. *)
Lemma marker_app_stop c0 c p x :
  is_digit c0 = false -> c0 <> "^" -> c0 <> close_bracket ->
  marker (c :: p ++ c0 :: x)
  = match marker (c :: p) with
    | Some (id, rest) => Some (id, rest ++ c0 :: x)
    | None => None
    end.
Proof.
  intros Hd Hc Hb. unfold marker.
  assert (E0 : starts_with (lit "[^") (c :: p ++ c0 :: x)
               = starts_with (lit "[^") (c :: p)).
  { simpl. f_equal. apply (starts_with_app_stop (lit "^")).
    simpl; intros [H|[]]; congruence. }
  rewrite E0.
  change (c :: p ++ c0 :: x) with ((c :: p) ++ c0 :: x).
  destruct (starts_with (lit "[^") (c :: p)) eqn:E; auto.
  apply starts_with_spec in E as [r E]. rewrite E.
  change (skipn 2 (lit "[^" ++ r)) with r.
  change (skipn 2 ((lit "[^" ++ r) ++ c0 :: x)) with (r ++ c0 :: x).
  rewrite span_app_stop by assumption.
  destruct (span is_digit r) as [a b]; simpl fst; simpl snd.
  destruct a as [|d a]; auto.
  rewrite starts_with_app_stop
    by (unfold close_bracket in Hb; simpl; intros [H|[]]; congruence).
  destruct (starts_with (lit "]") b) eqn:E3; auto.
  apply starts_with_spec in E3 as [r' ->]. reflexivity.
Qed.

Lemma marker_app_open c p x :
  marker (c :: p ++ open_bracket :: x)
  = match marker (c :: p) with
    | Some (id, rest) => Some (id, rest ++ open_bracket :: x)
    | None => None
    end.
Proof. apply marker_app_stop; [reflexivity | discriminate | discriminate]. Qed.

Lemma followed_by_colon_app_open r x :
  followed_by_colon (r ++ open_bracket :: x) = followed_by_colon r.
Proof.
  apply starts_with_app_stop.
  unfold open_bracket; simpl; intros [H|[]]; discriminate.
Qed.

Section Blind.

Variable P : Re.pattern.
Variables M post : text.
Hypothesis HP : blind P M post.

Lemma scan_inside q2 : forall q1,
  M = q1 ++ q2 ->
  Re.scan P 0 (q2 ++ post) = map Re.Kept q2 ++ Re.scan P 0 post.
Proof.
  induction q2 as [|c q2 IH]; intros q1 E; auto.
  pose proof (blind_inside HP) as Hi.
  simpl. rewrite (Hi _ _ _ E).
  f_equal. apply (IH (q1 ++ [c])). now rewrite <- app_assoc.
Qed.

Lemma scan_around pre : forall inside,
  (inside <= length pre)%nat ->
  Re.scan P inside (pre ++ M ++ post)
  = Re.scan P inside pre ++ map Re.Kept M ++ Re.scan P 0 post.
Proof.
  induction pre as [|c pre IH]; intros inside Hin.
  - assert (inside = 0)%nat as -> by (simpl in Hin; lia).
    simpl. now apply (scan_inside M []).
  - simpl. destruct inside as [|k].
    + pose proof (blind_before HP) as Hb. rewrite Hb.
      destruct (P (c :: pre)) as [[n g]|] eqn:E; simpl.
      * f_equal. apply IH.
        pose proof (blind_within HP) as Hw. apply Hw in E. simpl in E. lia.
      * f_equal. apply IH. lia.
    + apply IH. simpl in Hin. lia.
Qed.

Lemma groups_app a b : Re.groups (a ++ b) = Re.groups a ++ Re.groups b.
Proof.
  induction a as [|[c|g] a IH]; simpl; auto. now rewrite IH.
Qed.

Lemma groups_kept s : Re.groups (map Re.Kept s) = [].
Proof. induction s; simpl; auto. Qed.

Lemma replace_app repl a b :
  Re.replace repl (a ++ b) = Re.replace repl a ++ Re.replace repl b.
Proof.
  induction a as [|[c|g] a IH]; simpl; auto.
  - now rewrite IH.
  - now rewrite IH, app_assoc.
Qed.

Lemma replace_kept repl s : Re.replace repl (map Re.Kept s) = s.
Proof. induction s; simpl; auto. now f_equal. Qed.

Lemma findall_around pre :
  Re.findall P (pre ++ M ++ post) = Re.findall P pre ++ Re.findall P post.
Proof.
  unfold Re.findall. rewrite scan_around by lia.
  now rewrite !groups_app, groups_kept.
Qed.

Lemma sub_around repl pre :
  Re.sub P repl (pre ++ M ++ post)
  = Re.sub P repl pre ++ M ++ Re.sub P repl post.
Proof.
  unfold Re.sub. rewrite scan_around by lia.
  now rewrite !replace_app, replace_kept.
Qed.

End Blind.

(** ** Bracketed text that is not an identifier *)

Lemma first_non_digit s :
  existsb (fun c => negb (is_digit c)) s = true ->
  exists d c r, s = d ++ c :: r /\ forallb is_digit d = true
                /\ is_digit c = false.
Proof.
  induction s as [|a s IH]; [discriminate|]. simpl.
  destruct (is_digit a) eqn:E; simpl.
  - intro H. destruct (IH H) as (d & c & r & -> & Hd & Hc).
    exists (a :: d), c, r. simpl. rewrite E. auto.
  - intros _. exists [], a, s. auto.
Qed.

Lemma digits_no_bracket s c :
  forallb is_digit s = true -> is_digit c = false -> ~ In c s.
Proof.
  intros Hs Hc Hin. rewrite forallb_forall in Hs. apply Hs in Hin. congruence.
Qed.

Lemma digits_then_close old : forall d c y x,
  forallb is_digit old = true -> forallb is_digit d = true ->
  is_digit c = false -> c <> close_bracket ->
  starts_with (old ++ close_bracket :: y) (d ++ c :: x) = false.
Proof.
  induction old as [|o old IH]; intros d c y x Ho Hd Hc Hcb.
  - destruct d as [|a d]; simpl.
    + destruct (Ascii.eqb_spec close_bracket c); auto. congruence.
    + simpl in Hd. apply andb_prop in Hd as [Ha _].
      destruct (Ascii.eqb_spec close_bracket a); auto.
      subst a. discriminate.
  - simpl in Ho. apply andb_prop in Ho as [Ho1 Ho2].
    destruct d as [|a d]; simpl.
    + destruct (Ascii.eqb_spec o c); auto. congruence.
    + simpl in Hd. apply andb_prop in Hd as [_ Hd].
      rewrite IH; auto. apply andb_false_r.
Qed.

Lemma starts_with_cons a p b s :
  starts_with (a :: p) (b :: s) = Ascii.eqb a b && starts_with p s.
Proof. reflexivity. Qed.

Lemma skipn_length_app (a b : text) : skipn (length a) (a ++ b) = b.
Proof. induction a; simpl; auto. Qed.

Section NotAnIdentifier.

Variable s : text.
Hypothesis Hs : not_an_identifier s = true.

Let M := bracketed s.

Lemma bracketed_tail q1 c q2 :
  M = q1 ++ c :: q2 -> q1 = [] \/ c <> open_bracket.
Proof.
  destruct q1 as [|a q1]; auto. intro E. right. intros ->.
  assert (Hin : In open_bracket (q1 ++ open_bracket :: q2))
    by (apply in_or_app; simpl; auto).
  unfold M, bracketed in E. simpl in E. injection E as _ E.
  rewrite <- E in Hin.
  simpl in Hin. destruct Hin as [H|Hin]; [discriminate|].
  apply in_app_or in Hin as [Hin|[H|[]]]; [|discriminate].
  unfold not_an_identifier in Hs. apply andb_prop in Hs as [_ Hb].
  rewrite forallb_forall in Hb. apply Hb in Hin.
  unfold is_bracket in Hin. now rewrite Ascii.eqb_refl in Hin.
Qed.

Lemma split_at_non_digit :
  exists d c r, s = d ++ c :: r /\ forallb is_digit d = true
                /\ is_digit c = false /\ c <> close_bracket.
Proof.
  unfold not_an_identifier in Hs. apply andb_prop in Hs as [He Hb].
  destruct (first_non_digit _ He) as (d & c & r & E & Hd & Hc).
  exists d, c, r. repeat split; auto. intros ->.
  rewrite forallb_forall in Hb.
  assert (Hin : In close_bracket s) by (rewrite E; apply in_or_app; simpl; auto).
  apply Hb in Hin. unfold is_bracket in Hin.
  rewrite Ascii.eqb_refl, orb_true_r in Hin. discriminate.
Qed.

Lemma marker_bracketed post : marker (M ++ post) = None.
Proof.
  destruct split_at_non_digit as (d & c & r & E & Hd & Hc & Hcb).
  unfold marker, M, bracketed. rewrite E.
  replace (skipn 2 ((lit "[^" ++ (d ++ c :: r) ++ lit "]") ++ post))
    with (d ++ c :: r ++ lit "]" ++ post)
    by (simpl; now rewrite <- !app_assoc).
  simpl starts_with at 1. cbv iota. rewrite span_all; auto.
  destruct d; auto. simpl.
  destruct (Ascii.eqb_spec "]" c); auto. now subst c.
Qed.

Lemma marker_head c x : c <> open_bracket -> marker (c :: x) = None.
Proof.
  intro H. unfold marker. simpl.
  destruct (Ascii.eqb_spec "[" c); auto. now subst c.
Qed.

Lemma blind_REF post : blind REF_PATTERN M post.
Proof.
  split.
  - intros c p. unfold REF_PATTERN.
    change (M ++ post) with (open_bracket :: lit "^" ++ (s ++ lit "]") ++ post).
    rewrite marker_app_open.
    destruct (marker (c :: p)) as [[id rest]|]; auto.
    now rewrite followed_by_colon_app_open.
  - intros t n g. unfold REF_PATTERN.
    destruct (marker t) as [[id rest]|] eqn:E; [|discriminate].
    apply marker_spec in E as [-> _].
    destruct (followed_by_colon rest); [discriminate|].
    intro H; injection H as <- <-. rewrite !length_app. simpl. lia.
  - intros q1 c q2 E. unfold REF_PATTERN.
    destruct (bracketed_tail _ _ _ E) as [->|Hc].
    + change (c :: q2 ++ post) with (([] ++ c :: q2) ++ post).
      rewrite <- E. now rewrite marker_bracketed.
    + now rewrite marker_head.
Qed.

Lemma blind_DEF post : blind DEF_PATTERN M post.
Proof.
  split.
  - intros c p. unfold DEF_PATTERN.
    change (M ++ post) with (open_bracket :: lit "^" ++ (s ++ lit "]") ++ post).
    rewrite marker_app_open.
    destruct (marker (c :: p)) as [[id rest]|]; auto.
    now rewrite followed_by_colon_app_open.
  - intros t n g. unfold DEF_PATTERN.
    destruct (marker t) as [[id rest]|] eqn:E; [|discriminate].
    apply marker_spec in E as [-> _].
    destruct (followed_by_colon rest) eqn:F; [|discriminate].
    apply starts_with_spec in F as [r ->].
    intro H; injection H as <- <-. rewrite !length_app. simpl. lia.
  - intros q1 c q2 E. unfold DEF_PATTERN.
    destruct (bracketed_tail _ _ _ E) as [->|Hc].
    + change (c :: q2 ++ post) with (([] ++ c :: q2) ++ post).
      rewrite <- E. now rewrite marker_bracketed.
    + now rewrite marker_head.
Qed.

Variable old : text.
Hypothesis Hold : forallb is_digit old = true.

(** Either literal pattern: ["[^" old "]"] and something behind. *)
Lemma literal_before y c p x :
  starts_with (lit "[^" ++ old ++ close_bracket :: y)
    (c :: p ++ open_bracket :: x)
  = starts_with (lit "[^" ++ old ++ close_bracket :: y) (c :: p)
  \/ In open_bracket y.
Proof.
  destruct (in_dec ascii_dec open_bracket y) as [Hy|Hy]; auto. left.
  change (lit "[^" ++ old ++ close_bracket :: y)
    with ("[" :: ("^" :: old ++ close_bracket :: y)).
  rewrite !starts_with_cons. f_equal. apply starts_with_app_stop.
  simpl. intros [H|H]; [discriminate|].
  apply in_app_or in H as [H|[H|H]]; try discriminate; auto.
  revert H. now apply digits_no_bracket.
Qed.

Lemma literal_bracketed y post :
  starts_with (lit "[^" ++ old ++ close_bracket :: y) (M ++ post) = false.
Proof.
  destruct split_at_non_digit as (d & c & r & E & Hd & Hc & Hcb).
  unfold M, bracketed. rewrite E. simpl.
  rewrite <- !app_assoc. simpl. now apply digits_then_close.
Qed.

Lemma literal_head y c x :
  c <> open_bracket ->
  starts_with (lit "[^" ++ old ++ close_bracket :: y) (c :: x) = false.
Proof.
  intro H. simpl. destruct (Ascii.eqb_spec "[" c); auto. now subst c.
Qed.

Lemma blind_def_of post : blind (def_of old) M post.
Proof.
  split.
  - intros c p. unfold def_of.
    change (M ++ post) with (open_bracket :: lit "^" ++ (s ++ lit "]") ++ post).
    change (lit "[^" ++ old ++ lit "]:")
      with (lit "[^" ++ old ++ close_bracket :: lit ":").
    destruct (literal_before (lit ":") c p
                (lit "^" ++ (s ++ lit "]") ++ post)) as [->|H]; auto.
    simpl in H. destruct H as [H|[]]. discriminate.
  - intros t n g. unfold def_of.
    destruct (starts_with _ t) eqn:E; [|discriminate].
    apply starts_with_spec in E as [r ->].
    intro H; injection H as <- <-. rewrite !length_app. simpl. lia.
  - intros q1 c q2 E. unfold def_of.
    change (lit "[^" ++ old ++ lit "]:")
      with (lit "[^" ++ old ++ close_bracket :: lit ":").
    destruct (bracketed_tail _ _ _ E) as [->|Hc].
    + change (c :: q2 ++ post) with (([] ++ c :: q2) ++ post).
      rewrite <- E. now rewrite literal_bracketed.
    + now rewrite literal_head.
Qed.

Lemma blind_ref_of post : blind (ref_of old) M post.
Proof.
  split.
  - intros c p. unfold ref_of.
    change (M ++ post) with (open_bracket :: lit "^" ++ (s ++ lit "]") ++ post).
    change (lit "[^" ++ old ++ lit "]")
      with (lit "[^" ++ old ++ close_bracket :: []).
    destruct (literal_before [] c p
                (lit "^" ++ (s ++ lit "]") ++ post)) as [->|[]].
    destruct (starts_with _ (c :: p)) eqn:F; auto.
    apply starts_with_spec in F as [r F].
    change (c :: p ++ open_bracket :: lit "^" ++ (s ++ lit "]") ++ post)
      with ((c :: p) ++ open_bracket :: lit "^" ++ (s ++ lit "]") ++ post).
    rewrite F, <- app_assoc, !skipn_length_app.
    now rewrite followed_by_colon_app_open.
  - intros t n g. unfold ref_of.
    destruct (starts_with _ t) eqn:E; [|discriminate].
    apply starts_with_spec in E as [r ->].
    destruct (negb _); [|discriminate]. simpl andb. cbv iota.
    intro H; injection H as <- <-. rewrite !length_app. simpl. lia.
  - intros q1 c q2 E. unfold ref_of.
    change (lit "[^" ++ old ++ lit "]")
      with (lit "[^" ++ old ++ close_bracket :: []).
    destruct (bracketed_tail _ _ _ E) as [->|Hc].
    + change (c :: q2 ++ post) with (([] ++ c :: q2) ++ post).
      rewrite <- E. now rewrite literal_bracketed.
    + now rewrite literal_head.
Qed.

Lemma rewrite_one_around new pre post :
  rewrite_one (pre ++ M ++ post) (old, new)
  = rewrite_one pre (old, new) ++ M ++ rewrite_one post (old, new).
Proof.
  unfold rewrite_one.
  rewrite (sub_around (blind_def_of post)).
  now rewrite (sub_around (blind_ref_of _)).
Qed.

End NotAnIdentifier.

(** What [findall] returns was matched somewhere. *)
Lemma groups_scan_hit P s : forall k g,
  In g (Re.groups (Re.scan P k s)) -> exists s' n, P s' = Some (n, g).
Proof.
  induction s as [|c s IH]; intros k g; simpl; [tauto|].
  destruct k as [|k]; [|apply IH].
  destruct (P (c :: s)) as [[n g']|] eqn:E; simpl; [|apply IH].
  intros [<-|H]; eauto.
Qed.

Lemma findall_REF_digits t id :
  In id (Re.findall REF_PATTERN t) -> forallb is_digit id = true.
Proof.
  intro H. apply groups_scan_hit in H as (s' & n & H).
  unfold REF_PATTERN in H.
  destruct (marker s') as [[id' rest]|] eqn:E; [|discriminate].
  destruct (followed_by_colon rest); [discriminate|].
  injection H as _ <-. now apply marker_spec in E.
Qed.

Lemma findall_DEF_digits t id :
  In id (Re.findall DEF_PATTERN t) -> forallb is_digit id = true.
Proof.
  intro H. apply groups_scan_hit in H as (s' & n & H).
  unfold DEF_PATTERN in H.
  destruct (marker s') as [[id' rest]|] eqn:E; [|discriminate].
  destruct (followed_by_colon rest); [|discriminate].
  injection H as _ <-. now apply marker_spec in E.
Qed.

Lemma footnote_mapping_digits `{SetOrder} t K :
  Forall (fun kv => forallb is_digit (fst kv) = true)
    (fst (footnote_mapping t K)).
Proof.
  rewrite footnote_mapping_eq. simpl. apply Forall_forall.
  intros [old new] Hin. apply in_combine_l in Hin. simpl.
  apply (Permutation_in _ (footnote_ids_perm t)) in Hin.
  unfold distinct_ids in Hin. rewrite nodup_In in Hin.
  apply in_app_or in Hin as [Hin|Hin];
    eauto using findall_REF_digits, findall_DEF_digits.
Qed.

Lemma fold_rewrite_around s (m : mapping) :
  not_an_identifier s = true ->
  Forall (fun kv => forallb is_digit (fst kv) = true) m ->
  forall pre post,
    fold_left rewrite_one m (pre ++ bracketed s ++ post)
    = fold_left rewrite_one m pre ++ bracketed s
      ++ fold_left rewrite_one m post.
Proof.
  intros Hs. induction 1 as [|[old new] m Hold _ IH]; intros pre post; auto.
  cbn [fold_left]. rewrite rewrite_one_around; auto.
Qed.

(** C10.  Only markers whose identifier is a run of digits are recognised.
    Where the text has ["[^" s "]"] with [s] free of brackets and holding a
    character that is not a digit, that stretch yields no identifier, neither
    as a reference nor as a definition, so the mapping and the counter are
    those of the markers before and behind it; and it stands unchanged
    in the result, between the rewritten text before it and the rewritten
    text behind it. *)
Theorem normalize_footnotes_ignores_non_digit `{SetOrder}
  (pre s post : text) (K : Z) :
  not_an_identifier s = true ->
  let t := pre ++ bracketed s ++ post in
  let m := fst (footnote_mapping t K) in
  let refs := Re.findall REF_PATTERN pre ++ Re.findall REF_PATTERN post in
  let defs := Re.findall DEF_PATTERN pre ++ Re.findall DEF_PATTERN post in
  Re.findall REF_PATTERN t = refs
  /\ Re.findall DEF_PATTERN t = defs
  /\ normalize_footnotes t K
     = (fold_left rewrite_one m pre ++ bracketed s
          ++ fold_left rewrite_one m post,
        (K + Z.of_nat (length (nodup text_eq_dec (refs ++ defs))))%Z).
Proof.
  intros Hs t m refs defs.
  assert (Hr : Re.findall REF_PATTERN t = refs)
    by (apply findall_around; now apply blind_REF).
  assert (Hd : Re.findall DEF_PATTERN t = defs)
    by (apply findall_around; now apply blind_DEF).
  repeat split; auto.
  rewrite normalize_footnotes_eq. fold m. f_equal.
  - apply fold_rewrite_around; auto. apply footnote_mapping_digits.
  - unfold distinct_ids. now rewrite Hr, Hd.
Qed.

(** The text ["x[^1] [^1a] [^1]: y"] from counter 5. *)
Lemma normalize_footnotes_ignores_non_digit_witness :
  not_an_identifier (lit "1a") = true
  /\ normalize_footnotes (lit "x[^1] " ++ bracketed (lit "1a") ++ lit " [^1]: y") 5
     = (lit "x[^5] [^1a] [^5]: y", 6%Z).
Proof.
  split; [reflexivity|].
  rewrite (proj2 (proj2 (normalize_footnotes_ignores_non_digit
             (lit "x[^1] ") (lit "1a") (lit " [^1]: y") 5 eq_refl))).
  reflexivity.
Defined.

(** ** The order of a set does not matter when the identifiers have
       distinct values *)

Lemma ascending_strict l :
  ascending l -> NoDup (map int l) -> StronglySorted below l.
Proof.
  intros Hs Hnd. apply Sorted_StronglySorted in Hs;
    [|intros a b c; unfold below; lia].
  induction Hs as [|a l Hs IH Ha]; [constructor|].
  simpl in Hnd. inversion Hnd as [|? ? Hna Hnd']; subst.
  constructor; auto.
  rewrite Forall_forall in *. intros b Hb. specialize (Ha b Hb).
  unfold below. assert (int a <> int b); [|lia].
  intro E. apply Hna. rewrite E. now apply in_map.
Qed.

Lemma strictly_sorted_unique l1 : forall l2,
  StronglySorted below l1 -> StronglySorted below l2 ->
  Permutation l1 l2 -> l1 = l2.
Proof.
  induction l1 as [|a l1 IH]; intros l2 H1 H2 Hp.
  - now apply Permutation_nil in Hp.
  - destruct l2 as [|b l2];
      [symmetry in Hp; now apply Permutation_nil in Hp|].
    inversion H1 as [|? ? H1' Ha]; inversion H2 as [|? ? H2' Hb]; subst.
    assert (E : a = b).
    { assert (Hina : In a (b :: l2))
        by (apply (Permutation_in _ Hp); simpl; auto).
      assert (Hinb : In b (a :: l1))
        by (apply (Permutation_in _ (Permutation_sym Hp)); simpl; auto).
      destruct Hina as [|Hina]; auto. destruct Hinb as [|Hinb]; auto.
      rewrite Forall_forall in Ha, Hb.
      specialize (Ha _ Hinb). specialize (Hb _ Hina).
      unfold below in *. lia. }
    subst b. f_equal. apply IH; auto. now apply Permutation_cons_inv in Hp.
Qed.

Lemma footnote_ids_any_order (o : SetOrder) t :
  distinct_values t ->
  footnote_ids (H := o) t = footnote_ids (H := first_seen_order) t.
Proof.
  intro Hd.
  assert (Hp : Permutation (footnote_ids (H := o) t)
                 (footnote_ids (H := first_seen_order) t)).
  { rewrite !footnote_ids_perm. reflexivity. }
  apply strictly_sorted_unique; auto.
  - apply ascending_strict; [apply sorted_by_ascending|].
    eapply Permutation_NoDup; [|exact Hd].
    apply Permutation_map. symmetry. apply (footnote_ids_perm (order := o) t).
  - apply ascending_strict; [apply sorted_by_ascending|].
    eapply Permutation_NoDup; [|exact Hd].
    apply Permutation_map. symmetry. apply footnote_ids_perm.
Qed.

Lemma normalize_footnotes_any_order (o : SetOrder) t K :
  distinct_values t ->
  normalize_footnotes (H := o) t K
  = normalize_footnotes (H := first_seen_order) t K.
Proof.
  intro Hd. unfold normalize_footnotes, footnote_mapping.
  now rewrite footnote_ids_any_order.
Qed.

Lemma distinct_values_b_ok t : distinct_values_b t = true -> distinct_values t.
Proof.
  unfold distinct_values_b, distinct_values. intro H.
  apply Nat.eqb_eq in H.
  generalize dependent (map int (distinct_ids t)).
  intros vs H.
  induction vs as [|v vs IH]; [constructor|].
  simpl in H. destruct (in_dec Z.eq_dec v vs) as [Hin|Hin].
  - assert (length (nodup Z.eq_dec vs) <= length vs)%nat; [|lia].
    apply NoDup_incl_length; [apply NoDup_nodup|].
    intros x Hx. now apply nodup_In in Hx.
  - constructor; auto.
Qed.

(** ** The guidance of a genre *)

(** C9.  Whatever the label, the empty one and unknown ones included,
    [get_genre_guidance] returns a guidance and raises nothing: the guidance
    of the label when the table has it, the guidance of ["other"] when it
    has not. *)
Theorem get_genre_guidance_total (genre : string) :
  exists g,
    get_genre_guidance genre = inr g
    /\ (forall v, dict_get genre guidance_map = Some v -> g = v)
    /\ (dict_get genre guidance_map = None ->
        g = "Annotate as usual based on clarity and learner needs."%string)
    /\ get_genre_guidance ""
       = inr "Annotate as usual based on clarity and learner needs."%string.
Proof.
  unfold get_genre_guidance.
  change (dict_get "other" guidance_map)
    with (Some "Annotate as usual based on clarity and learner needs."%string).
  destruct (dict_get genre guidance_map) as [v|] eqn:E.
  - exists v. repeat split; auto; congruence.
  - eexists. repeat split; auto. discriminate.
Qed.

(** The second answer meets the counter 2.  The mapping sends 1 to 2 and 2
    to 3; the loop over the mapping first turns every 1 into 2 and then every
    2 into 3, those it has just written included. *)
Lemma answer_two_normalized `{SetOrder} :
  fst (footnote_mapping answer_two 2) = [(lit "1", lit "2"); (lit "2", lit "3")]
  /\ normalize_footnotes answer_two 2
     = (lit "b[^3] c[^3] [^3]: two [^3]: three", 4%Z).
Proof.
  unfold footnote_mapping.
  rewrite normalize_footnotes_any_order, footnote_ids_any_order
    by (apply distinct_values_b_ok; reflexivity).
  split; reflexivity.
Qed.

(** C1, on the two answers above.  The document put together from them
    has the identifiers 1 and 3 and no 2: the numbering has a gap, and the
    two footnotes of the second chunk have become one. *)
Theorem numbering_gap_after_collision `{SetOrder} :
  let output := join blank_line (normalize_chunks [answer_one; answer_two] 1) in
  output
  = lit "a[^1] [^1]: one" ++ blank_line
    ++ lit "b[^3] c[^3] [^3]: two [^3]: three"
  /\ marker_ids output = [1; 1; 3; 3; 3; 3]%Z
  /\ ~ numbered_from_one (marker_ids output).
Proof.
  intro output.
  assert (E : output = lit "a[^1] [^1]: one" ++ blank_line
                       ++ lit "b[^3] c[^3] [^3]: two [^3]: three").
  { unfold output, normalize_chunks.
    rewrite (@normalize_footnotes_any_order _ answer_one)
      by (apply distinct_values_b_ok; reflexivity).
    change (normalize_footnotes (H := first_seen_order) answer_one 1)
      with (answer_one, 2%Z).
    cbv iota. now rewrite (proj2 answer_two_normalized). }
  rewrite E. repeat split; auto.
  intros [N HN]. vm_compute in HN.
  destruct N as [|[|[|N]]]; discriminate.
Qed.

(** The same end to end: the document of two chunks, the service giving
    the two answers, each at the first attempt. *)
Lemma two_chunk_run_has_gap :
  exists w',
    process_file fiction service_two_answers two_chunk_document start
    = (inr (lit "a[^1] [^1]: one" ++ blank_line
            ++ lit "b[^3] c[^3] [^3]: two [^3]: three"), w')
    /\ requests w' = 2%nat.
Proof. eexists. split; vm_compute; reflexivity. Qed.

(** C2, on the second answer.  The mapping gives 2 to the old identifier 1,
    but every marker that read 1 reads 3 in the result. *)
Theorem rewriting_collides `{SetOrder} :
  let m := fst (footnote_mapping answer_two 2) in
  m = [(lit "1", lit "2"); (lit "2", lit "3")]
  /\ rename_markers m answer_two = lit "b[^2] c[^3] [^2]: two [^3]: three"
  /\ fst (normalize_footnotes answer_two 2)
     = lit "b[^3] c[^3] [^3]: two [^3]: three".
Proof.
  intro m. destruct answer_two_normalized as [Hm Hn].
  unfold m. rewrite Hm, Hn. repeat split; reflexivity.
Qed.

(** One turn of the second loop is exact: rewriting 1 leaves 10 and 11
    alone and reaches every 1, reference or definition. *)
Lemma rewrite_one_leaves_longer_identifiers :
  rewrite_one (lit "x[^1] y[^10] z[^1] [^11]: a [^1]: b [^10]: c")
    (lit "1", lit "7")
  = lit "x[^7] y[^10] z[^7] [^11]: a [^7]: b [^10]: c".
Proof. reflexivity. Qed.

(** C4, on the second answer.  Normalizing the result once more with the
    same counter 2 gives another text and another counter. *)
Theorem renormalizing_differs `{SetOrder} :
  let once := normalize_footnotes answer_two 2 in
  let twice := normalize_footnotes (fst once) 2 in
  once = (lit "b[^3] c[^3] [^3]: two [^3]: three", 4%Z)
  /\ twice = (lit "b[^2] c[^2] [^2]: two [^2]: three", 3%Z)
  /\ twice <> once.
Proof.
  intros once twice.
  assert (E1 : once = (lit "b[^3] c[^3] [^3]: two [^3]: three", 4%Z))
    by apply answer_two_normalized.
  assert (E2 : twice = (lit "b[^2] c[^2] [^2]: two [^2]: three", 3%Z)).
  { unfold twice. rewrite E1. cbn [fst].
    rewrite normalize_footnotes_any_order
      by (apply distinct_values_b_ok; reflexivity).
    reflexivity. }
  repeat split; auto. rewrite E1, E2. discriminate.
Qed.

(** ** Renumbering, where it is right *)

Lemma text_eqb_eq a b : text_eqb a b = true <-> a = b.
Proof.
  unfold text_eqb. destruct (text_eq_dec a b); split; congruence.
Qed.

Lemma bracketed_length id : length (bracketed id) = (3 + length id)%nat.
Proof. unfold bracketed. rewrite !length_app. simpl. lia. Qed.

Lemma marker_identifier id r :
  identifier id -> marker (bracketed id ++ r) = Some (id, r).
Proof.
  intros [Hne Hd]. unfold marker, bracketed.
  rewrite <- !app_assoc.
  change (starts_with (lit "[^") (lit "[^" ++ id ++ lit "]" ++ r)) with true.
  change (skipn 2 (lit "[^" ++ id ++ lit "]" ++ r))
    with (id ++ close_bracket :: r).
  rewrite span_all by auto. destruct id; [congruence|]. reflexivity.
Qed.

Lemma ANY_MARKER_hit s n g :
  ANY_MARKER s = Some (n, g) ->
  identifier g /\ n = (3 + length g)%nat
  /\ exists r, s = bracketed g ++ r.
Proof.
  unfold ANY_MARKER. destruct (marker s) as [[id rest]|] eqn:E; [|discriminate].
  intro H; injection H as <- <-.
  apply marker_spec in E as (-> & Hne & Hd).
  repeat split; auto. exists rest. unfold bracketed.
  now rewrite <- !app_assoc.
Qed.

Lemma ANY_MARKER_none s : ANY_MARKER s = None <-> marker s = None.
Proof.
  unfold ANY_MARKER. destruct (marker s) as [[id rest]|]; split;
    auto; discriminate.
Qed.

(** The walk over a text yields its parse, and the parse renders the
    text. *)
Lemma scan_parsed_upto n : forall t,
  (length t <= n)%nat ->
  parsed (Re.scan ANY_MARKER 0 t) /\ render (Re.scan ANY_MARKER 0 t) = t.
Proof.
  induction n as [|n IH]; intros t Hn.
  - destruct t; [simpl; auto | simpl in Hn; lia].
  - destruct t as [|c s]; [simpl; auto|].
    destruct (ANY_MARKER (c :: s)) as [[k g]|] eqn:E.
    + destruct (ANY_MARKER_hit _ E) as (Hg & -> & r & Er).
      rewrite (@scan_taken ANY_MARKER _ _ _ _ E) by lia. rewrite Er.
      rewrite <- bracketed_length, skipn_length_app.
      destruct (IH r) as [Hp Hr].
      { apply (f_equal (@length ascii)) in Er.
        rewrite length_app, bracketed_length in Er.
        cbn [length] in *. lia. }
      cbn [parsed render]. rewrite Hr. auto.
    + cbn [Re.scan]. rewrite E.
      destruct (IH s) as [Hp Hr]; [cbn [length] in Hn; lia|].
      cbn [parsed render]. rewrite Hr. split; auto.
      split; auto. now apply ANY_MARKER_none.
Qed.

Lemma scan_parsed t :
  parsed (Re.scan ANY_MARKER 0 t) /\ render (Re.scan ANY_MARKER 0 t) = t.
Proof. now apply (@scan_parsed_upto (length t)). Qed.

(** A parse, rendered and walked over again, comes back. *)
Lemma rescan ps : parsed ps -> Re.scan ANY_MARKER 0 (render ps) = ps.
Proof.
  induction ps as [|[c|id] ps IH]; intro Hp; [reflexivity| |];
    destruct Hp as [H1 Hp]; cbn [render].
  - cbn [Re.scan]. apply ANY_MARKER_none in H1. rewrite H1.
    now rewrite IH.
  - assert (E : ANY_MARKER (bracketed id ++ render ps)
                = Some (3 + length id, id)%nat)
      by (unfold ANY_MARKER; now rewrite marker_identifier).
    assert (C : exists c s, bracketed id ++ render ps = c :: s)
      by (unfold bracketed; simpl; eauto).
    destruct C as (c & s & C). rewrite C in E |- *.
    rewrite (@scan_taken ANY_MARKER _ _ _ _ E) by lia. rewrite <- C.
    rewrite <- bracketed_length, skipn_length_app. now rewrite IH.
Qed.

(** Two parses that differ in the identifiers of their markers only begin
    with the same characters, up to the first marker. *)
Lemma alike_prefix ps qs :
  alike ps qs ->
  exists p, (render ps = p /\ render qs = p)
            \/ exists x x', render ps = p ++ open_bracket :: x
                            /\ render qs = p ++ open_bracket :: x'.
Proof.
  induction 1 as [|c ps qs _ [p IH]|id id' ps qs _ _ _].
  - exists []. left. auto.
  - exists (c :: p). cbn [render].
    destruct IH as [[-> ->]|(x & x' & -> & ->)]; [left; auto | right].
    exists x, x'. auto.
  - exists []. right. cbn [render]. unfold bracketed. simpl.
    eexists _, _. split; reflexivity.
Qed.

Lemma marker_alike c ps qs :
  alike ps qs ->
  marker (c :: render ps) = None -> marker (c :: render qs) = None.
Proof.
  intros Ha. destruct (alike_prefix Ha) as [p [[-> ->]|(x & x' & -> & ->)]];
    auto.
  rewrite !marker_app_open. now destruct (marker (c :: p)) as [[? ?]|].
Qed.

Lemma parsed_alike ps qs : alike ps qs -> parsed ps -> parsed qs.
Proof.
  induction 1 as [|c ps qs Ha IH|id id' ps qs Hid Ha IH]; auto;
    intros [H1 Hp]; cbn [parsed]; split; auto.
  eapply marker_alike; eauto.
Qed.

Lemma alike_retag f ps :
  parsed ps -> (forall id, identifier id -> identifier (f id)) ->
  alike ps (retag f ps).
Proof.
  intros Hp Hf. induction ps as [|[c|id] ps IH]; simpl.
  - constructor.
  - destruct Hp as [_ Hp]. constructor; auto.
  - destruct Hp as [H1 Hp]. constructor; auto.
Qed.

Lemma alike_rename_defs o n ps :
  parsed ps -> identifier n -> alike ps (rename_defs o n ps).
Proof.
  intros Hp Hn. induction ps as [|[c|id] ps IH]; simpl.
  - constructor.
  - destruct Hp as [_ Hp]. constructor; auto.
  - destruct Hp as [H1 Hp]. constructor; auto.
    now destruct (_ && _).
Qed.

Lemma followed_render r : followed_by_colon (render r) = followed r.
Proof.
  destruct r as [|[c|id] r]; try reflexivity.
  unfold followed_by_colon. cbn [render followed].
  change (starts_with (lit ":") (c :: render r))
    with (Ascii.eqb ":" c && true).
  apply andb_true_r.
Qed.

Lemma followed_rename_defs o n r : followed (rename_defs o n r) = followed r.
Proof. destruct r as [|[c|id] r]; reflexivity. Qed.

(** Two runs of digits, each closed by a bracket. *)
Lemma digits_closed o : forall i z y,
  forallb is_digit o = true -> forallb is_digit i = true ->
  starts_with (o ++ close_bracket :: z) (i ++ close_bracket :: y)
  = text_eqb i o && starts_with z y.
Proof.
  assert (T : forall a b : text, a <> b -> text_eqb a b = false).
  { intros a b H. unfold text_eqb. now destruct (text_eq_dec a b). }
  assert (R : forall a : text, text_eqb a a = true)
    by (intro a; now apply text_eqb_eq).
  induction o as [|a o IH]; intros [|d i] z y Ho Hi;
    cbn [app]; rewrite starts_with_cons; cbn [forallb] in Ho, Hi.
  - now rewrite Ascii.eqb_refl, R.
  - apply andb_prop in Hi as [Hd _].
    rewrite T by discriminate.
    destruct (Ascii.eqb_spec close_bracket d) as [<-|]; [discriminate|].
    reflexivity.
  - apply andb_prop in Ho as [Ha _].
    rewrite T by discriminate.
    destruct (Ascii.eqb_spec a close_bracket) as [->|]; [discriminate|].
    reflexivity.
  - apply andb_prop in Ho as [_ Ho]. apply andb_prop in Hi as [_ Hi].
    rewrite IH by assumption.
    destruct (Ascii.eqb_spec a d) as [->|Hne].
    + destruct (text_eq_dec i o) as [->|Hne'].
      * now rewrite !R.
      * rewrite !T; auto. congruence.
    + rewrite (T (d :: i) (a :: o)) by congruence. reflexivity.
Qed.

Section OneIdentifier.

Variables o n : text.
Hypothesis Ho : identifier o.
Hypothesis Hn : identifier n.

Lemma def_of_bracketed i y :
  identifier i ->
  def_of o (bracketed i ++ y)
  = if text_eqb i o && followed_by_colon y
    then Some (length (bracketed o ++ lit ":"), []) else None.
Proof.
  intros [_ Hi]. destruct Ho as [_ Hod]. unfold def_of, bracketed.
  rewrite <- !app_assoc.
  change (starts_with (lit "[^" ++ o ++ lit "]:")
            (lit "[^" ++ i ++ lit "]" ++ y))
    with (starts_with (o ++ close_bracket :: lit ":")
            (i ++ close_bracket :: y)).
  rewrite digits_closed by assumption. reflexivity.
Qed.

Lemma ref_of_bracketed i y :
  identifier i ->
  ref_of o (bracketed i ++ y)
  = if text_eqb i o && negb (followed_by_colon y)
    then Some (length (bracketed o), []) else None.
Proof.
  intros [_ Hi]. destruct Ho as [_ Hod]. unfold ref_of.
  fold (bracketed o).
  assert (E : starts_with (bracketed o) (bracketed i ++ y) = text_eqb i o).
  { unfold bracketed. rewrite <- !app_assoc.
    change (starts_with (lit "[^" ++ o ++ lit "]")
              (lit "[^" ++ i ++ lit "]" ++ y))
      with (starts_with (o ++ close_bracket :: [])
              (i ++ close_bracket :: y)).
    rewrite digits_closed by assumption. apply andb_true_r. }
  rewrite E. destruct (text_eqb i o) eqn:F; [|reflexivity].
  apply text_eqb_eq in F. subst i. now rewrite skipn_length_app.
Qed.

(** Inside a marker no match begins. *)
Lemma no_open_bracket_inside i q1 c q2 :
  identifier i -> bracketed i = q1 ++ c :: q2 -> q1 <> [] ->
  c <> open_bracket.
Proof.
  intros [_ Hi] E Hq ->. destruct q1 as [|a q1]; [congruence|].
  unfold bracketed in E. simpl in E. injection E as _ E.
  assert (Hin : In open_bracket (q1 ++ open_bracket :: q2))
    by (apply in_or_app; simpl; auto).
  rewrite <- E in Hin. simpl in Hin. destruct Hin as [H|Hin]; [discriminate|].
  apply in_app_or in Hin as [Hin|[H|[]]]; [|discriminate].
  rewrite forallb_forall in Hi. apply Hi in Hin. discriminate.
Qed.

Lemma def_of_head c x : c <> open_bracket -> def_of o (c :: x) = None.
Proof.
  intro H. unfold def_of.
  change (lit "[^" ++ o ++ lit "]:") with ("[" :: ("^" :: o ++ lit "]:")).
  rewrite starts_with_cons.
  destruct (Ascii.eqb_spec "[" c); auto. now subst c.
Qed.

Lemma ref_of_head c x : c <> open_bracket -> ref_of o (c :: x) = None.
Proof.
  intro H. unfold ref_of.
  change (lit "[^" ++ o ++ lit "]") with ("[" :: ("^" :: o ++ lit "]")).
  rewrite starts_with_cons.
  destruct (Ascii.eqb_spec "[" c); auto. now subst c.
Qed.

(** Where a literal pattern matches, there is a marker. *)
Lemma def_of_marker s n0 g : def_of o s = Some (n0, g) -> marker s <> None.
Proof.
  unfold def_of. destruct (starts_with _ s) eqn:E; [|discriminate].
  intros _. apply starts_with_spec in E as [r ->].
  change ((lit "[^" ++ o ++ lit "]:") ++ r)
    with (lit "[^" ++ (o ++ lit "]:") ++ r).
  rewrite <- app_assoc.
  change (lit "[^" ++ o ++ lit "]:" ++ r) with (lit "[^" ++ o ++ lit "]" ++ lit ":" ++ r).
  rewrite (app_assoc (lit "[^")), (app_assoc _ (lit "]")).
  rewrite <- (app_assoc (lit "[^")). fold (bracketed o).
  now rewrite marker_identifier.
Qed.

Lemma ref_of_marker s n0 g : ref_of o s = Some (n0, g) -> marker s <> None.
Proof.
  unfold ref_of. destruct (starts_with _ s) eqn:E; [|discriminate].
  intros _. apply starts_with_spec in E as [r ->].
  fold (bracketed o). now rewrite marker_identifier.
Qed.

End OneIdentifier.

Lemma sub_kept P repl c s :
  P (c :: s) = None -> Re.sub P repl (c :: s) = c :: Re.sub P repl s.
Proof. intro H. unfold Re.sub. cbn [Re.scan]. now rewrite H. Qed.

Lemma sub_taken P repl y n g :
  P y = Some (n, g) -> (1 <= n)%nat -> y <> [] ->
  Re.sub P repl y = repl ++ Re.sub P repl (skipn n y).
Proof.
  intros H Hn Hy. destruct y as [|c s]; [congruence|].
  unfold Re.sub. now rewrite (@scan_taken P _ _ _ _ H Hn).
Qed.

Lemma bracketed_app_nonempty i y : bracketed i ++ y <> [].
Proof. unfold bracketed. discriminate. Qed.

Lemma sub_quiet P repl p ctx :
  quiet P p ctx -> Re.sub P repl (p ++ ctx) = p ++ Re.sub P repl ctx.
Proof.
  intro H. unfold Re.sub. rewrite scan_quiet by assumption.
  now rewrite replace_app, replace_kept.
Qed.

Section OneTurn.

Variables o n : text.
Hypothesis Ho : identifier o.
Hypothesis Hn : identifier n.

(** The first substitution of a turn, on the parse. *)
Lemma sub_def_render ps :
  parsed ps ->
  Re.sub (def_of o) (bracketed n ++ lit ":") (render ps)
  = render (rename_defs o n ps).
Proof.
  induction ps as [|[c|i] ps IH]; intro Hp; [reflexivity| |];
    destruct Hp as [H1 Hp]; specialize (IH Hp); cbn [render rename_defs].
  - rewrite sub_kept; [now rewrite IH|].
    destruct (def_of o (c :: render ps)) as [[k g]|] eqn:E; auto.
    now apply (def_of_marker Ho) in E.
  - pose proof (def_of_bracketed Ho (render ps) H1) as D.
    rewrite followed_render in D.
    destruct (text_eqb i o && followed ps) eqn:B.
    + apply andb_prop in B as [Bi Bf]. apply text_eqb_eq in Bi. subst i.
      destruct ps as [|[c|j] ps]; try discriminate.
      cbn [followed] in Bf. apply Ascii.eqb_eq in Bf. subst c.
      cbn [render rename_defs] in IH |- *.
      rewrite sub_kept in IH
        by (apply def_of_head; unfold open_bracket; discriminate).
      apply (f_equal (@tl ascii)) in IH. cbn [tl] in IH.
      cbn [render] in D.
      rewrite (@sub_taken (def_of o) _ _ _ _ D)
        by (try apply bracketed_app_nonempty;
            rewrite length_app, bracketed_length; lia).
      replace (bracketed o ++ ":" :: render ps)
        with ((bracketed o ++ lit ":") ++ render ps)
        by (now rewrite <- app_assoc).
      rewrite skipn_length_app, IH. now rewrite <- app_assoc.
    + rewrite sub_quiet; [now rewrite IH|].
      intros q1 c q2 E. destruct q1 as [|a q1].
      * cbn [app] in E.
        change (c :: q2 ++ render ps) with ((c :: q2) ++ render ps).
        rewrite <- E. exact D.
      * apply def_of_head.
        eapply no_open_bracket_inside; eauto. discriminate.
Qed.

(** The second substitution of a turn, on the parse. *)
Lemma sub_ref_render ps :
  parsed ps ->
  Re.sub (ref_of o) (bracketed n) (render ps)
  = render (rename_refs o n ps).
Proof.
  induction ps as [|[c|i] ps IH]; intro Hp; [reflexivity| |];
    destruct Hp as [H1 Hp]; specialize (IH Hp); cbn [render rename_refs].
  - rewrite sub_kept; [now rewrite IH|].
    destruct (ref_of o (c :: render ps)) as [[k g]|] eqn:E; auto.
    now apply (ref_of_marker Ho) in E.
  - pose proof (ref_of_bracketed Ho (render ps) H1) as D.
    rewrite followed_render in D.
    destruct (text_eqb i o && negb (followed ps)) eqn:B.
    + apply andb_prop in B as [Bi _]. apply text_eqb_eq in Bi. subst i.
      rewrite (@sub_taken (ref_of o) _ _ _ _ D)
        by (try apply bracketed_app_nonempty; rewrite bracketed_length; lia).
      now rewrite skipn_length_app, IH.
    + rewrite sub_quiet; [now rewrite IH|].
      intros q1 c q2 E. destruct q1 as [|a q1].
      * cbn [app] in E.
        change (c :: q2 ++ render ps) with ((c :: q2) ++ render ps).
        rewrite <- E. exact D.
      * apply ref_of_head.
        eapply no_open_bracket_inside; eauto. discriminate.
Qed.

Lemma rename_refs_defs ps :
  rename_refs o n (rename_defs o n ps) = retag (swap o n) ps.
Proof.
  induction ps as [|[c|i] ps IH]; [reflexivity| |];
    cbn [rename_defs rename_refs retag map].
  - f_equal. exact IH.
  - rewrite followed_rename_defs. f_equal; [|exact IH]. f_equal.
    unfold swap. destruct (text_eqb i o) eqn:E; cbn [andb].
    + destruct (followed ps); cbn [negb].
      * now rewrite andb_false_r.
      * apply text_eqb_eq in E. subst i.
        rewrite andb_true_r.
        now replace (text_eqb o o) with true
          by (symmetry; now apply text_eqb_eq).
    + now rewrite E.
Qed.

(** One turn of the second loop renames the markers of the old
    identifier, all of them and no other. *)
Lemma rewrite_one_render ps :
  parsed ps ->
  rewrite_one (render ps) (o, n) = render (retag (swap o n) ps).
Proof.
  intro Hp. unfold rewrite_one.
  replace (lit "[^" ++ n ++ lit "]:") with (bracketed n ++ lit ":")
    by (unfold bracketed; now rewrite <- !app_assoc).
  fold (bracketed n).
  rewrite sub_def_render by assumption.
  rewrite sub_ref_render.
  - now rewrite rename_refs_defs.
  - eapply parsed_alike; eauto. now apply alike_rename_defs.
Qed.

End OneTurn.

(** [str] of a natural number is a run of digits. *)
Lemma string_of_uint_digits d :
  forallb is_digit (lit (NilEmpty.string_of_uint d)) = true.
Proof. induction d; simpl; auto. Qed.

Lemma string_of_uint_nonempty d :
  d <> Decimal.Nil -> lit (NilEmpty.string_of_uint d) <> [].
Proof. destruct d; simpl; congruence. Qed.

Lemma str_identifier z : (0 <= z)%Z -> identifier (str z).
Proof.
  intro Hz. unfold str, identifier. destruct z as [|p|p]; [| |lia].
  - split; [discriminate | reflexivity].
  - cbn [Z.to_int NilEmpty.string_of_int]. split.
    + apply string_of_uint_nonempty, DecimalPos.Unsigned.to_uint_nonnil.
    + apply string_of_uint_digits.
Qed.

Lemma upfrom_ge n : forall K z, In z (upfrom K n) -> (K <= z)%Z.
Proof.
  induction n as [|n IH]; intros K z; simpl; [tauto|].
  intros [<-|H]; [lia|]. apply IH in H. lia.
Qed.

Lemma findall_REF_identifier t i :
  In i (Re.findall REF_PATTERN t) -> identifier i.
Proof.
  intro H. apply groups_scan_hit in H as (s' & k & H).
  unfold REF_PATTERN in H.
  destruct (marker s') as [[i' rest]|] eqn:E; [|discriminate].
  destruct (followed_by_colon rest); [discriminate|].
  injection H as _ <-. apply marker_spec in E as (_ & H1 & H2). now split.
Qed.

Lemma findall_DEF_identifier t i :
  In i (Re.findall DEF_PATTERN t) -> identifier i.
Proof.
  intro H. apply groups_scan_hit in H as (s' & k & H).
  unfold DEF_PATTERN in H.
  destruct (marker s') as [[i' rest]|] eqn:E; [|discriminate].
  destruct (followed_by_colon rest); [|discriminate].
  injection H as _ <-. apply marker_spec in E as (_ & H1 & H2). now split.
Qed.

Lemma footnote_mapping_identifiers `{SetOrder} t K :
  (0 <= K)%Z ->
  Forall (fun kv => identifier (fst kv) /\ identifier (snd kv))
    (fst (footnote_mapping t K)).
Proof.
  intro HK. rewrite footnote_mapping_eq. cbn [fst]. apply Forall_forall.
  intros [old new] Hin. cbn [fst snd]. split.
  - apply in_combine_l in Hin.
    apply (Permutation_in _ (footnote_ids_perm t)) in Hin.
    unfold distinct_ids in Hin. rewrite nodup_In in Hin.
    apply in_app_or in Hin as [Hin|Hin];
      eauto using findall_REF_identifier, findall_DEF_identifier.
  - apply in_combine_r in Hin. apply in_map_iff in Hin as (z & <- & Hz).
    apply upfrom_ge in Hz. apply str_identifier. lia.
Qed.

Lemma mapped_nil i : mapped [] i = i.
Proof. reflexivity. Qed.

Lemma mapped_absent m i : in_mapping i m = false -> mapped m i = i.
Proof.
  unfold in_mapping, mapped. induction m as [|kv m IH]; auto.
  simpl. destruct (text_eqb (fst kv) i); [discriminate | exact IH].
Qed.

Lemma mapped_cons o n m i :
  mapped ((o, n) :: m) i = if text_eqb i o then n else mapped m i.
Proof.
  unfold mapped. simpl. unfold text_eqb.
  destruct (text_eq_dec o i), (text_eq_dec i o); auto; congruence.
Qed.

Lemma renumber_render m ps : renumber m ps = render (retag (mapped m) ps).
Proof.
  induction ps as [|[c|i] ps IH]; simpl; auto.
  - now f_equal.
  - rewrite IH. unfold bracketed. now rewrite <- !app_assoc.
Qed.

Lemma retag_ext f g ps :
  (forall i, f i = g i) -> retag f ps = retag g ps.
Proof.
  intro H. induction ps as [|[c|i] ps IH]; simpl; auto; f_equal; auto.
  now rewrite H.
Qed.

Lemma retag_retag f g ps :
  retag g (retag f ps) = retag (fun i => g (f i)) ps.
Proof.
  induction ps as [|[c|i] ps IH]; simpl; auto; now f_equal.
Qed.

Lemma retag_same ps : retag (fun i => i) ps = ps.
Proof. induction ps as [|[c|i] ps IH]; simpl; auto; now f_equal. Qed.

(** The second loop over a mapping without collision renames the markers
    as the mapping reads. *)
Lemma fold_rewrite_render m : forall ps,
  parsed ps ->
  Forall (fun kv => identifier (fst kv) /\ identifier (snd kv)) m ->
  no_collision m = true ->
  fold_left rewrite_one m (render ps) = render (retag (mapped m) ps).
Proof.
  induction m as [|[o n] m IH]; intros ps Hp Hm Hc.
  - simpl. now rewrite (retag_ext (mapped []) (fun i => i)), retag_same.
  - inversion Hm as [|? ? [Ho Hn] Hm']; subst. cbn [fst snd] in Ho, Hn.
    cbn [no_collision] in Hc. apply andb_prop in Hc as [Hfresh Hc].
    apply negb_true_iff in Hfresh.
    cbn [fold_left]. rewrite (rewrite_one_render Ho Hn) by assumption.
    rewrite IH; auto.
    + rewrite retag_retag. f_equal. apply retag_ext. intro i.
      rewrite mapped_cons. unfold swap.
      destruct (text_eqb i o); auto. now apply mapped_absent.
    + eapply parsed_alike; eauto. apply alike_retag; auto.
      intros i Hi. unfold swap. now destruct (text_eqb i o).
Qed.

(** X1.  With a counter that is not negative and a mapping in which no
    new identifier is an old identifier still to come, the text returned is
    the text with every marker renamed as the mapping reads, references and
    definitions alike, and nothing else changed. *)
Theorem normalize_footnotes_renames `{SetOrder} (t : text) (K : Z) :
  (0 <= K)%Z ->
  no_collision (fst (footnote_mapping t K)) = true ->
  fst (normalize_footnotes t K)
  = rename_markers (fst (footnote_mapping t K)) t.
Proof.
  intros HK Hc. rewrite normalize_footnotes_eq. cbn [fst].
  unfold rename_markers. rewrite renumber_render.
  destruct (scan_parsed t) as [Hp Hr].
  pose proof (footnote_mapping_identifiers t HK) as Hm.
  set (m := fst (footnote_mapping t K)) in *.
  rewrite <- Hr at 1. now apply fold_rewrite_render.
Qed.

(** The second answer from counter 3: 1 becomes 3 and 2 becomes 4. *)
Lemma normalize_footnotes_renames_witness :
  no_collision (fst (footnote_mapping answer_two 3)) = true
  /\ fst (normalize_footnotes answer_two 3)
     = lit "b[^3] c[^4] [^3]: two [^4]: three".
Proof.
  split; [reflexivity|].
  rewrite (@normalize_footnotes_renames first_seen_order answer_two 3
             ltac:(lia) eq_refl).
  reflexivity.
Defined.

(** ** Retries and the run *)

Section RunFacts.

Context {order : SetOrder}.
Variable service : nat -> prompt -> outcome.
Variable p : prompt.
Variables max_attempts delay : nat.

Let loop := attempts max_attempts delay (annotate_once service p).

Lemma attempts_succeed k : forall left w c,
  (k < left)%nat ->
  (forall j, (j < k)%nat -> fails service p (requests w + j)) ->
  reply (service (requests w + k) p) = inr c ->
  loop left w
  = (inr c, {| requests := requests w + k + 1;
               trace := trace w ++ failed_rounds service p delay (requests w) k
                        ++ [Request p] |}).
Proof.
  induction k as [|k IH]; intros left w c Hk Hf Hc;
    (destruct left as [|left]; [lia|]); unfold loop; cbn [attempts];
    unfold annotate_once at 1.
  - rewrite Nat.add_0_r in Hc. rewrite Hc. simpl. do 2 f_equal. lia.
  - destruct (Hf 0%nat ltac:(lia)) as [e He].
    rewrite Nat.add_0_r in He. rewrite He.
    unfold bind, emit. cbn [requests trace].
    fold loop. erewrite IH; cbn [requests trace].
    + f_equal. cbn [failed_rounds]. rewrite He.
      f_equal; [lia|]. now rewrite <- !app_assoc.
    + lia.
    + intros j Hj. replace (S (requests w) + j)%nat
        with (requests w + S j)%nat by lia. apply Hf. lia.
    + rewrite <- Hc. do 2 f_equal. lia.
Qed.

Lemma attempts_exhaust left : forall w,
  (forall j, (j < left)%nat -> fails service p (requests w + j)) ->
  loop left w
  = (inl (exhausted max_attempts),
     {| requests := requests w + left;
        trace := trace w ++ failed_rounds service p delay (requests w) left |}).
Proof.
  induction left as [|left IH]; intros w Hf; unfold loop; cbn [attempts].
  - unfold raise. destruct w; simpl. rewrite app_nil_r. do 2 f_equal. lia.
  - unfold annotate_once at 1.
    destruct (Hf 0%nat ltac:(lia)) as [e He].
    rewrite Nat.add_0_r in He. rewrite He.
    unfold bind, emit. cbn [requests trace].
    fold loop. rewrite IH; cbn [requests trace].
    + f_equal. cbn [failed_rounds]. rewrite He.
      f_equal; [lia|]. now rewrite <- !app_assoc.
    + intros j Hj. replace (S (requests w) + j)%nat
        with (requests w + S j)%nat by lia. apply Hf. lia.
Qed.

(** An attempt, if there is one, begins with a request; the trace only
    grows. *)
Lemma attempts_trace left : forall w r w',
  loop left w = (r, w') ->
  exists ev, trace w' = trace w ++ ev
             /\ (requests w <= requests w')%nat
             /\ ((0 < left)%nat ->
                 (requests w < requests w')%nat
                 /\ exists ev', ev = Request p :: ev').
Proof.
  induction left as [|left IH]; intros w r w'; unfold loop; cbn [attempts].
  - unfold raise. intro E; injection E as <- <-.
    exists []. rewrite app_nil_r. repeat split; auto; lia.
  - unfold annotate_once at 1.
    destruct (reply (service (requests w) p)) as [e|c].
    + unfold bind, emit. cbn [requests trace]. fold loop. intro E.
      apply IH in E as (ev & Et & Er & _). cbn [requests trace] in Et, Er.
      rewrite <- !app_assoc in Et. simpl in Et.
      eexists. split; [exact Et|]. split; [lia|].
      intros _. split; [lia | eauto].
    + intro E; injection E as <- <-. cbn [requests trace].
      exists [Request p]. split; auto. split; [lia|].
      intros _. split; [lia | eauto].
Qed.

End RunFacts.

Section LoopFacts.

Context {order : SetOrder}.
Variable detect_genre_intro : text -> exn + string.
Variable service : nat -> prompt -> outcome.

(** One turn of the loop, by what the service answers. *)
Lemma annotate_from_step guidance n i chunk todo K done w :
  annotate_from service guidance n i (chunk :: todo) K done w
  = match annotate_chunk_with_prompt service
            {| prompt_guidance := guidance; prompt_chunk := chunk |}
            {| requests := requests w;
               trace := trace w ++ [Progress (i + 1) n] |} with
    | (inr annotated, w') =>
        annotate_from service guidance n (S i) todo
          (snd (normalize_footnotes annotated K))
          (done ++ [fst (normalize_footnotes annotated K)]) w'
    | (inl e, w') => (inl e, w')
    end.
Proof.
  cbn [annotate_from]. unfold bind at 1. unfold emit at 1.
  unfold bind at 1.
  destruct (annotate_chunk_with_prompt _ _ _) as [[e|annotated] w']; auto.
  now destruct (normalize_footnotes annotated K).
Qed.

(** The run, once the genre is known, by what the loop returns. *)
Lemma process_file_loop input_text genre guidance w :
  detect_genre_intro input_text = inr genre ->
  get_genre_guidance genre = inr guidance ->
  let chunks := split_into_chunks input_text CHUNK_SIZE in
  process_file detect_genre_intro service input_text w
  = match annotate_from service guidance (length chunks) 0 chunks 1 []
            {| requests := requests w;
               trace := trace w ++ [Classify; Report genre guidance] |} with
    | (inr annotated_chunks, w') =>
        (inr (join blank_line annotated_chunks),
         {| requests := requests w';
            trace := trace w'
                     ++ [WriteText (join blank_line annotated_chunks)] |})
    | (inl e, w') => (inl e, w')
    end.
Proof.
  intros Hg Hgd chunks. unfold process_file. fold chunks.
  unfold bind, emit, lift, ret. cbn [requests trace].
  rewrite Hg, Hgd. cbn [requests trace]. rewrite <- app_assoc. simpl.
  destruct (annotate_from _ _ _ _ _ _ _ _) as [[e|l] w']; auto.
Qed.

End LoopFacts.

Lemma last_progress_app a b :
  last_progress (a ++ b)
  = match last_progress b with
    | Some i => Some i
    | None => last_progress a
    end.
Proof.
  induction a as [|e a IH]; simpl.
  - now destruct (last_progress b).
  - rewrite IH. now destruct (last_progress b).
Qed.

Lemma last_progress_failed_rounds service p delay count : forall first,
  last_progress (failed_rounds service p delay first count) = None.
Proof.
  induction count as [|n IH]; intro first; cbn [failed_rounds]; auto.
  rewrite last_progress_app, IH.
  now destruct (reply (service first p)).
Qed.

Lemma get_genre_guidance_returns genre :
  exists guidance, get_genre_guidance genre = inr guidance.
Proof.
  unfold get_genre_guidance.
  change (dict_get "other" guidance_map)
    with (Some "Annotate as usual based on clarity and learner needs."%string).
  eauto.
Qed.

(** C8, as the code has it.  An annotation call makes at most three
    requests.  While requests fail (the service raises, or answers without
    content) each failure is followed by a notice and a sleep of five.  When
    the request after [k < 3] failures is answered, the call returns that
    answer and the loop goes on to the next chunk.  After three failures
    the call, and with it the loop, ends with
    [RuntimeError "Failed after 3 attempts"]: the error states the number
    of attempts, and the chunk is the one of the last progress line. *)
Theorem annotate_chunk_retries `{SetOrder} (service : nat -> prompt -> outcome)
  (guidance : string) (n i : nat) (chunk : text) (todo : list text)
  (K : Z) (done : list text) (w : world) (k : nat) :
  let p := {| prompt_guidance := guidance; prompt_chunk := chunk |} in
  let w0 := {| requests := requests w;
               trace := trace w ++ [Progress (i + 1) n] |} in
  (k <= 3)%nat ->
  (forall j, (j < k)%nat -> fails service p (requests w + j)) ->
  (forall c, (k < 3)%nat -> reply (service (requests w + k) p) = inr c ->
     let w' := {| requests := requests w + k + 1;
                  trace := trace w0 ++ failed_rounds service p 5 (requests w) k
                           ++ [Request p] |} in
     annotate_chunk_with_prompt service p w0 = (inr c, w')
     /\ annotate_from service guidance n i (chunk :: todo) K done w
        = annotate_from service guidance n (S i) todo
            (snd (normalize_footnotes c K))
            (done ++ [fst (normalize_footnotes c K)]) w')
  /\ (k = 3%nat ->
      let w' := {| requests := requests w + 3;
                   trace := trace w0
                            ++ failed_rounds service p 5 (requests w) 3 |} in
      let failure := RuntimeError "Failed after 3 attempts" in
      annotate_chunk_with_prompt service p w0 = (inl failure, w')
      /\ annotate_from service guidance n i (chunk :: todo) K done w
         = (inl failure, w')
      /\ last_progress (trace w') = Some (i + 1)%nat).
Proof.
  intros p w0 Hk Hf. split.
  - intros c Hk3 Hc w'.
    assert (E : annotate_chunk_with_prompt service p w0 = (inr c, w')).
    { unfold annotate_chunk_with_prompt, retry.
      now rewrite (@attempts_succeed service p 3 5 k 3 w0 c Hk3 Hf Hc). }
    split; auto. rewrite annotate_from_step. fold p w0. now rewrite E.
  - intros -> w' failure.
    assert (E : annotate_chunk_with_prompt service p w0 = (inl failure, w')).
    { unfold annotate_chunk_with_prompt, retry.
      now rewrite (@attempts_exhaust service p 3 5 3 w0 Hf). }
    repeat split; auto.
    + rewrite annotate_from_step. fold p w0. now rewrite E.
    + unfold w', w0. cbn [trace].
      rewrite !last_progress_app, last_progress_failed_rounds. reflexivity.
Qed.

(** A call that starts at the second request of the flaky service: two
    failures, then the answer. *)
Lemma annotate_chunk_retries_witness :
  let p := {| prompt_guidance := "g"; prompt_chunk := lit "a" |} in
  let w := {| requests := 1; trace := [] |} in
  annotate_chunk_with_prompt service_flaky p
    {| requests := 1; trace := [Progress 1 1] |}
  = (inr answer_one,
     {| requests := 4;
        trace := [Progress 1 1;
                  Request p; RetryNotice (ServiceError "timeout") 5; Sleep 5;
                  Request p;
                  RetryNotice (RuntimeError "Empty response from OpenAI") 5;
                  Sleep 5;
                  Request p] |}).
Proof.
  intros p w.
  assert (Hf : forall j, (j < 2)%nat -> fails service_flaky p (requests w + j)).
  { intros [|[|j]] Hj; try lia; eexists; reflexivity. }
  destruct (@annotate_chunk_retries first_seen_order service_flaky "g"
              1 0 (lit "a") [] 1 [] w 2 ltac:(lia) Hf) as [Hok _].
  exact (proj1 (Hok answer_one ltac:(lia) eq_refl)).
Defined.

(** C8 as stated fails: the error of a run that gives up says nothing of
    the chunk.  On a document of two chunks, a service that is down from the
    start and one that goes down after its first answer end the run with the
    same error, the first at chunk 1 and the second at chunk 2. *)
Lemma error_does_not_name_chunk :
  ~ exists name_of : exn -> nat,
      forall service e w',
        process_file fiction service two_chunk_document start = (inl e, w') ->
        last_progress (trace w') = Some (name_of e).
Proof.
  intros [name_of Hn].
  assert (E1 : exists w',
    process_file fiction service_down two_chunk_document start
    = (inl (RuntimeError "Failed after 3 attempts"), w')
    /\ last_progress (trace w') = Some 1%nat).
  { eexists. split; vm_compute; reflexivity. }
  assert (E2 : exists w',
    process_file fiction service_down_after_one two_chunk_document start
    = (inl (RuntimeError "Failed after 3 attempts"), w')
    /\ last_progress (trace w') = Some 2%nat).
  { eexists. split; vm_compute; reflexivity. }
  destruct E1 as (w1 & R1 & P1). destruct E2 as (w2 & R2 & P2).
  apply Hn in R1. apply Hn in R2. congruence.
Qed.

(** C7, on the empty document.  [re.split] returns one empty paragraph for
    the empty text, so there is one chunk, the empty one, and the run sends
    the service a request for it.  No document at all gives zero chunks:
    the test [if current_chunk] behind the loop never fails. *)
Theorem empty_document_one_chunk `{SetOrder}
  (detect_genre_intro : text -> exn + string)
  (service : nat -> prompt -> outcome) (genre : string) (B : Z) :
  detect_genre_intro [] = inr genre ->
  split_into_chunks [] B = [[]]
  /\ (forall t, split_into_chunks t B <> [])
  /\ exists guidance r w',
       get_genre_guidance genre = inr guidance
       /\ process_file detect_genre_intro service [] start = (r, w')
       /\ (1 <= requests w')%nat
       /\ In (Request {| prompt_guidance := guidance; prompt_chunk := [] |})
            (trace w').
Proof.
  intro Hg.
  assert (E : forall B', split_into_chunks [] B' = [[]]).
  { intro B'. unfold split_into_chunks.
    change (paragraphs_of []) with [@nil ascii].
    unfold chunk_paragraphs. cbn [fold_left]. unfold add_paragraph.
    cbn [current_chunk nonempty]. rewrite andb_false_r. reflexivity. }
  split; [apply E|].
  split; [intro t; apply split_into_chunks_nonempty|].
  destruct (get_genre_guidance_returns genre) as [guidance Hgd].
  exists guidance.
  rewrite (process_file_loop _ service [] start Hg Hgd).
  rewrite E. cbn [length]. rewrite annotate_from_step.
  set (p := {| prompt_guidance := guidance; prompt_chunk := [] |}).
  destruct (annotate_chunk_with_prompt service p _) as [[e|a] w1] eqn:Ea;
    unfold annotate_chunk_with_prompt, retry in Ea;
    apply attempts_trace in Ea as (ev & Et & _ & Hreq);
    destruct (Hreq ltac:(lia)) as (Hlt & ev' & ->);
    cbn [requests trace] in Et, Hlt.
  - exists (inl e), w1. repeat split; auto; try lia.
    rewrite Et. apply in_or_app. right. simpl. auto.
  - cbn [annotate_from]. unfold ret. eexists _, _.
    split; [auto|]. split; [reflexivity|].
    cbn [requests trace]. split; [exact Hlt|].
    rewrite Et. apply in_or_app. left. apply in_or_app. right. simpl. auto.
Qed.

(** The empty document with the service down. *)
Lemma empty_document_one_chunk_witness :
  split_into_chunks [] CHUNK_SIZE = [[]]
  /\ (forall t, split_into_chunks t CHUNK_SIZE <> [])
  /\ exists guidance r w',
       get_genre_guidance "literary fiction" = inr guidance
       /\ process_file fiction service_down [] start = (r, w')
       /\ (1 <= requests w')%nat
       /\ In (Request {| prompt_guidance := guidance; prompt_chunk := [] |})
            (trace w').
Proof.
  exact (@empty_document_one_chunk first_seen_order fiction service_down
           "literary fiction" CHUNK_SIZE eq_refl).
Defined.

(** ** The identifiers of a normalized text *)

Lemma digits_step acc c s :
  fold_left (fun acc c => 10 * acc + digit_value c)%Z (c :: s) acc
  = fold_left (fun acc c => 10 * acc + digit_value c)%Z s
      (10 * acc + digit_value c)%Z.
Proof. reflexivity. Qed.

Ltac read_digit IH :=
  cbn [NilEmpty.string_of_uint Pos.of_uint_acc Pos.of_uint];
  match goal with
  | |- context [lit (String ?c ?s)] =>
      change (lit (String c s)) with (c :: lit s)
  end;
  rewrite digits_step, <- IH; f_equal;
  match goal with
  | |- context [digit_value ?c] =>
      let v := eval vm_compute in (digit_value c) in
      change (digit_value c) with v
  end; lia.

Lemma digits_value_acc d : forall acc : positive,
  fold_left (fun acc c => 10 * acc + digit_value c)%Z
    (lit (NilEmpty.string_of_uint d)) (Z.pos acc)
  = Z.pos (Pos.of_uint_acc d acc).
Proof.
  induction d; intro acc; [reflexivity|..]; read_digit IHd.
Qed.

Lemma int_string_of_uint d :
  int (lit (NilEmpty.string_of_uint d)) = Z.of_N (Pos.of_uint d).
Proof.
  unfold int. induction d; [reflexivity|..];
    cbn [NilEmpty.string_of_uint Pos.of_uint];
    match goal with
    | |- context [lit (String ?c ?s)] =>
        change (lit (String c s)) with (c :: lit s)
    end; rewrite digits_step.
  1: exact IHd.
  all: cbn [Z.of_N]; rewrite <- digits_value_acc; reflexivity.
Qed.

(** [int] reads back what [str] writes. *)
Lemma int_str z : (0 <= z)%Z -> int (str z) = z.
Proof.
  intro Hz. destruct z as [|p|p]; [reflexivity | | lia].
  unfold str. cbn [Z.to_int NilEmpty.string_of_int].
  now rewrite int_string_of_uint, Unsigned.of_to.
Qed.


Lemma findall_kept P c s :
  P (c :: s) = None -> Re.findall P (c :: s) = Re.findall P s.
Proof. intro H. unfold Re.findall. cbn [Re.scan]. now rewrite H. Qed.

Lemma findall_taken P y n g :
  P y = Some (n, g) -> (1 <= n)%nat -> y <> [] ->
  Re.findall P y = g :: Re.findall P (skipn n y).
Proof.
  intros H Hn Hy. destruct y as [|c s]; [congruence|].
  unfold Re.findall. now rewrite (@scan_taken P _ _ _ _ H Hn).
Qed.

Lemma findall_quiet P p ctx :
  quiet P p ctx -> Re.findall P (p ++ ctx) = Re.findall P ctx.
Proof.
  intro H. unfold Re.findall. rewrite scan_quiet by assumption.
  now rewrite groups_app, groups_kept.
Qed.

Lemma REF_bracketed i y :
  identifier i ->
  REF_PATTERN (bracketed i ++ y)
  = if followed_by_colon y then None else Some (3 + length i, i)%nat.
Proof. intro Hi. unfold REF_PATTERN. now rewrite marker_identifier. Qed.

Lemma DEF_bracketed i y :
  identifier i ->
  DEF_PATTERN (bracketed i ++ y)
  = if followed_by_colon y then Some (4 + length i, i)%nat else None.
Proof. intro Hi. unfold DEF_PATTERN. now rewrite marker_identifier. Qed.

Lemma REF_head c x : c <> open_bracket -> REF_PATTERN (c :: x) = None.
Proof. intro H. unfold REF_PATTERN. now rewrite marker_head. Qed.

Lemma DEF_head c x : c <> open_bracket -> DEF_PATTERN (c :: x) = None.
Proof. intro H. unfold DEF_PATTERN. now rewrite marker_head. Qed.

(** The references of a text, on its parse: the markers without a colon
    behind. *)
Lemma findall_REF_render ps :
  parsed ps -> Re.findall REF_PATTERN (render ps) = refs_of ps.
Proof.
  induction ps as [|[c|i] ps IH]; intro Hp; [reflexivity| |];
    destruct Hp as [H1 Hp]; specialize (IH Hp); cbn [render refs_of].
  - rewrite findall_kept; auto. unfold REF_PATTERN. now rewrite H1.
  - pose proof (REF_bracketed (render ps) H1) as D.
    rewrite followed_render in D. destruct (followed ps).
    + rewrite findall_quiet; auto.
      intros q1 c q2 E. destruct q1 as [|a q1].
      * cbn [app] in E.
        change (c :: q2 ++ render ps) with ((c :: q2) ++ render ps).
        now rewrite <- E.
      * apply REF_head.
        eapply no_open_bracket_inside; eauto. discriminate.
    + rewrite (@findall_taken REF_PATTERN _ _ _ D)
        by (try apply bracketed_app_nonempty; lia).
      now rewrite <- bracketed_length, skipn_length_app, IH.
Qed.

(** The definitions of a text, on its parse: the markers with a colon
    behind. *)
Lemma findall_DEF_render ps :
  parsed ps -> Re.findall DEF_PATTERN (render ps) = defs_of ps.
Proof.
  induction ps as [|[c|i] ps IH]; intro Hp; [reflexivity| |];
    destruct Hp as [H1 Hp]; specialize (IH Hp); cbn [render defs_of].
  - rewrite findall_kept; auto. unfold DEF_PATTERN. now rewrite H1.
  - pose proof (DEF_bracketed (render ps) H1) as D.
    rewrite followed_render in D. destruct (followed ps) eqn:F.
    + destruct ps as [|[c|j] ps]; try discriminate.
      cbn [followed] in F. apply Ascii.eqb_eq in F. subst c.
      cbn [render defs_of] in IH, D |- *.
      rewrite findall_kept in IH
        by (apply DEF_head; unfold open_bracket; discriminate).
      rewrite (@findall_taken DEF_PATTERN _ _ _ D)
        by (try apply bracketed_app_nonempty; lia).
      replace (bracketed i ++ ":" :: render ps)
        with ((bracketed i ++ lit ":") ++ render ps)
        by (now rewrite <- app_assoc).
      replace (4 + length i)%nat with (length (bracketed i ++ lit ":"))
        by (rewrite length_app, bracketed_length; simpl; lia).
      now rewrite skipn_length_app, IH.
    + rewrite findall_quiet; auto.
      intros q1 c q2 E. destruct q1 as [|a q1].
      * cbn [app] in E.
        change (c :: q2 ++ render ps) with ((c :: q2) ++ render ps).
        now rewrite <- E.
      * apply DEF_head.
        eapply no_open_bracket_inside; eauto. discriminate.
Qed.

Lemma in_refs_defs ps i :
  In i (refs_of ps ++ defs_of ps) <-> In i (Re.groups ps).
Proof.
  rewrite in_app_iff.
  induction ps as [|[c|j] ps IH]; cbn [refs_of defs_of Re.groups];
    [simpl; tauto | exact IH |].
  destruct (followed ps); simpl; tauto.
Qed.

(** Every marker is a reference or a definition. *)
Lemma in_distinct_ids t i :
  In i (distinct_ids t) <-> In i (Re.findall ANY_MARKER t).
Proof.
  unfold distinct_ids. rewrite nodup_In.
  destruct (scan_parsed t) as [Hp Hr].
  rewrite <- Hr at 1 2.
  rewrite findall_REF_render, findall_DEF_render by assumption.
  apply in_refs_defs.
Qed.


Lemma groups_retag f ps : Re.groups (retag f ps) = map f (Re.groups ps).
Proof.
  induction ps as [|[c|i] ps IH]; simpl; auto. now f_equal.
Qed.

Lemma mapped_in m i : In i (map fst m) -> In (mapped m i) (map snd m).
Proof.
  unfold mapped. induction m as [|kv m IH]; simpl; [tauto|].
  intro H. destruct (text_eqb (fst kv) i) eqn:E; auto.
  right. apply IH. destruct H as [H|H]; auto.
  apply text_eqb_eq in H. congruence.
Qed.

Lemma mapped_key m kv :
  NoDup (map fst m) -> In kv m -> mapped m (fst kv) = snd kv.
Proof.
  unfold mapped. induction m as [|kv' m IH]; simpl; [tauto|].
  intros Hnd Hin. inversion Hnd as [|? ? Hfresh Hnd']; subst.
  destruct Hin as [->|Hin].
  - now replace (text_eqb (fst kv) (fst kv)) with true
      by (symmetry; now apply text_eqb_eq).
  - destruct (text_eqb (fst kv') (fst kv)) eqn:E; auto.
    apply text_eqb_eq in E. exfalso. apply Hfresh. rewrite E.
    now apply in_map.
Qed.

Lemma mapped_identifier m i :
  Forall (fun kv => identifier (fst kv) /\ identifier (snd kv)) m ->
  identifier i -> identifier (mapped m i).
Proof.
  intros Hm Hi. unfold mapped.
  destruct (find _ m) as [kv|] eqn:E; auto.
  apply find_some in E as [E _]. rewrite Forall_forall in Hm.
  now apply Hm in E.
Qed.

Lemma in_upfrom n : forall K z,
  In z (upfrom K n) <-> (K <= z < K + Z.of_nat n)%Z.
Proof.
  induction n as [|n IH]; intros K z; cbn [upfrom In].
  - lia.
  - rewrite IH. lia.
Qed.

Lemma footnote_mapping_keys `{SetOrder} t K :
  map fst (fst (footnote_mapping t K)) = footnote_ids t.
Proof.
  rewrite footnote_mapping_eq. cbn [fst].
  assert (L : length (footnote_ids t)
              = length (map str (upfrom K (length (distinct_ids t)))))
    by (rewrite length_map, upfrom_length; apply footnote_ids_length).
  revert L. generalize (map str (upfrom K (length (distinct_ids t)))).
  generalize (footnote_ids t).
  induction l as [|a l IH]; intros [|b l'] E; simpl in *; try lia; auto.
  f_equal. apply IH. lia.
Qed.

Lemma footnote_mapping_values `{SetOrder} t K :
  map snd (fst (footnote_mapping t K))
  = map str (upfrom K (length (distinct_ids t))).
Proof.
  rewrite footnote_mapping_eq. cbn [fst].
  assert (L : length (footnote_ids t)
              = length (map str (upfrom K (length (distinct_ids t)))))
    by (rewrite length_map, upfrom_length; apply footnote_ids_length).
  revert L. generalize (map str (upfrom K (length (distinct_ids t)))).
  generalize (footnote_ids t).
  induction l as [|a l IH]; intros [|b l'] E; simpl in *; try lia; auto.
  f_equal. apply IH. lia.
Qed.

Section Normalized.

Context {order : SetOrder}.
Variable t : text.
Variable K : Z.
Hypothesis HK : (0 <= K)%Z.
Hypothesis Hfree : no_collision (fst (footnote_mapping t K)) = true.

Let m := fst (footnote_mapping t K).

(** The markers of the text returned are the markers of the text given,
    renamed. *)
Lemma normalized_markers :
  Re.findall ANY_MARKER (fst (normalize_footnotes t K))
  = map (mapped m) (Re.findall ANY_MARKER t).
Proof.
  pose proof (footnote_mapping_identifiers t HK) as Hm. fold m in Hm.
  destruct (scan_parsed t) as [Hp Hr].
  rewrite normalize_footnotes_eq. cbn [fst]. fold m.
  rewrite <- Hr at 1. rewrite fold_rewrite_render by assumption.
  unfold Re.findall at 1. rewrite rescan.
  - now rewrite groups_retag.
  - eapply parsed_alike; eauto. apply alike_retag; auto.
    intros i Hi. now apply mapped_identifier.
Qed.

(** Their identifiers are the new identifiers of the mapping, all of
    them. *)
Lemma normalized_identifiers x :
  In x (Re.findall ANY_MARKER (fst (normalize_footnotes t K)))
  <-> In x (map snd m).
Proof.
  rewrite normalized_markers, in_map_iff. split.
  - intros (i & <- & Hi). apply mapped_in. unfold m.
    rewrite footnote_mapping_keys.
    apply (Permutation_in _ (Permutation_sym (footnote_ids_perm t))).
    now apply in_distinct_ids.
  - intro Hx. apply in_map_iff in Hx as (kv & <- & Hkv).
    exists (fst kv). split.
    + apply mapped_key; auto. unfold m. rewrite footnote_mapping_keys.
      apply footnote_ids_NoDup.
    + apply in_distinct_ids.
      apply (Permutation_in _ (footnote_ids_perm t)).
      rewrite <- (footnote_mapping_keys t K). now apply in_map.
Qed.

(** As numbers they are K, K+1, ..., K+D-1. *)
Lemma normalized_block z :
  In z (marker_ids (fst (normalize_footnotes t K)))
  <-> (K <= z < K + Z.of_nat (length (distinct_ids t)))%Z.
Proof.
  unfold marker_ids. rewrite in_map_iff. rewrite <- in_upfrom. split.
  - intros (x & <- & Hx). apply normalized_identifiers in Hx.
    unfold m in Hx. rewrite footnote_mapping_values in Hx.
    apply in_map_iff in Hx as (v & <- & Hv).
    rewrite int_str; auto. apply upfrom_ge in Hv. lia.
  - intro Hz. exists (str z). split.
    + apply int_str. apply upfrom_ge in Hz. lia.
    + apply normalized_identifiers. unfold m.
      rewrite footnote_mapping_values.
      now apply in_map.
Qed.

End Normalized.

(** Markers do not reach over a blank line. *)
Lemma blind_ANY_blank_line post : blind ANY_MARKER blank_line post.
Proof.
  split.
  - intros c p. unfold ANY_MARKER, blank_line.
    change ([newline; newline] ++ post) with (newline :: newline :: post).
    rewrite marker_app_stop by (try reflexivity; discriminate).
    now destruct (marker (c :: p)) as [[i r]|].
  - intros s n g H. apply ANY_MARKER_hit in H as (_ & -> & r & ->).
    rewrite length_app, bracketed_length. lia.
  - intros q1 c q2 E. apply ANY_MARKER_none, marker_head.
    assert (Hin : In c blank_line) by (rewrite E; apply in_or_app; simpl; auto).
    unfold blank_line in Hin. simpl in Hin.
    destruct Hin as [<-|[<-|[]]]; discriminate.
Qed.

Lemma findall_ANY_join l :
  Re.findall ANY_MARKER (join blank_line l)
  = concat (map (Re.findall ANY_MARKER) l).
Proof.
  induction l as [|p l IH]; [reflexivity|].
  destruct l as [|q l].
  - simpl. now rewrite app_nil_r.
  - change (join blank_line (p :: q :: l))
      with (p ++ blank_line ++ join blank_line (q :: l)).
    rewrite (findall_around (blind_ANY_blank_line _)), IH. reflexivity.
Qed.

Lemma marker_ids_join l :
  marker_ids (join blank_line l) = concat (map marker_ids l).
Proof.
  unfold marker_ids. rewrite findall_ANY_join, concat_map, map_map.
  reflexivity.
Qed.

Lemma collision_free_blocks `{SetOrder} raw : forall K z,
  (0 <= K)%Z -> collision_free raw K = true ->
  In z (concat (map marker_ids (normalize_chunks raw K)))
  <-> (K <= z < K + Z.of_nat (total_ids raw))%Z.
Proof.
  induction raw as [|t raw IH]; intros K z HK Hf.
  - simpl. lia.
  - cbn [collision_free] in Hf. apply andb_prop in Hf as [Hf1 Hf2].
    cbn [normalize_chunks total_ids].
    pose proof (@normalized_block _ t K HK Hf1 z) as B.
    destruct (normalize_footnotes t K) as [t' K'] eqn:E.
    assert (EK : K' = (K + Z.of_nat (length (distinct_ids t)))%Z)
      by (rewrite normalize_footnotes_eq in E; now injection E).
    cbn [fst snd] in Hf2, B. cbn [map concat].
    rewrite in_app_iff, B, IH; auto; lia.
Qed.

(** ** Renumbering, whatever the mapping *)

Lemma chain_cons o n m i : chain ((o, n) :: m) i = chain m (swap o n i).
Proof. reflexivity. Qed.

Lemma swap_identifier o n i :
  identifier n -> identifier i -> identifier (swap o n i).
Proof. intros Hn Hi. unfold swap. now destruct (text_eqb i o). Qed.

(** The second loop renames every marker by the chain of the mapping. *)
Lemma fold_rewrite_chain m : forall ps,
  parsed ps ->
  Forall (fun kv => identifier (fst kv) /\ identifier (snd kv)) m ->
  fold_left rewrite_one m (render ps) = render (retag (chain m) ps).
Proof.
  induction m as [|[o n] m IH]; intros ps Hp Hm.
  - simpl. now rewrite (retag_ext (chain []) (fun i => i)), retag_same.
  - inversion Hm as [|? ? [Ho Hn] Hm']; subst. cbn [fst snd] in Ho, Hn.
    cbn [fold_left]. rewrite (rewrite_one_render Ho Hn) by assumption.
    rewrite IH; auto.
    + rewrite retag_retag. f_equal.
    + eapply parsed_alike; eauto. apply alike_retag; auto.
      intros i Hi. now apply swap_identifier.
Qed.

Lemma chain_identifier m : forall i,
  Forall (fun kv => identifier (fst kv) /\ identifier (snd kv)) m ->
  identifier i -> identifier (chain m i).
Proof.
  induction m as [|[o n] m IH]; intros i Hm Hi; [assumption|].
  inversion Hm as [|? ? [Ho Hn] Hm']; subst. cbn [fst snd] in Ho, Hn.
  rewrite chain_cons. apply IH; auto. now apply swap_identifier.
Qed.

(** A key, or a new identifier, ends as a new identifier. *)
Lemma chain_in (V : list text) m : forall i,
  (forall kv, In kv m -> In (snd kv) V) ->
  In i (map fst m) \/ In i V ->
  In (chain m i) V.
Proof.
  induction m as [|[o n] m IH]; intros i HV Hi.
  - destruct Hi as [[]|Hi]. exact Hi.
  - rewrite chain_cons. apply IH.
    + intros kv Hkv. apply HV. now right.
    + unfold swap. destruct (text_eqb i o) eqn:E.
      * right. apply (HV (o, n)). now left.
      * destruct Hi as [[Hi|Hi]|Hi]; auto.
        cbn [fst] in Hi. subst o.
        assert (text_eqb i i = true) by now apply text_eqb_eq.
        congruence.
Qed.

Lemma render_scan t : render (Re.scan ANY_MARKER 0 t) = t.
Proof. apply scan_parsed. Qed.

Lemma rename_by_scan f t :
  (forall i, identifier i -> identifier (f i)) ->
  Re.scan ANY_MARKER 0 (rename_by f t) = retag f (Re.scan ANY_MARKER 0 t).
Proof.
  intro Hf. unfold rename_by. apply rescan.
  destruct (scan_parsed t) as [Hp _].
  eapply parsed_alike; eauto. now apply alike_retag.
Qed.

Lemma replace_retag f ps :
  Re.replace [] (retag f ps) = Re.replace [] ps.
Proof.
  induction ps as [|[c|i] ps IH]; simpl; auto. now f_equal.
Qed.

Lemma normalize_footnotes_chain_eq `{SetOrder} t K :
  (0 <= K)%Z ->
  fst (normalize_footnotes t K)
  = rename_by (chain (fst (footnote_mapping t K))) t.
Proof.
  intro HK. rewrite normalize_footnotes_eq. cbn [fst].
  pose proof (footnote_mapping_identifiers t HK) as Hm.
  set (m := fst (footnote_mapping t K)) in *.
  rewrite <- (render_scan t) at 1. unfold rename_by.
  apply fold_rewrite_chain; [apply scan_parsed | assumption].
Qed.

(** The markers of the text returned: those of the text given, each
    with the identifier the chain makes of its own. *)
Lemma normalized_findall `{SetOrder} t K :
  (0 <= K)%Z ->
  Re.findall ANY_MARKER (fst (normalize_footnotes t K))
  = map (chain (fst (footnote_mapping t K))) (Re.findall ANY_MARKER t).
Proof.
  intro HK. rewrite normalize_footnotes_chain_eq by assumption.
  unfold Re.findall. rewrite rename_by_scan.
  - apply groups_retag.
  - intros i Hi. apply chain_identifier; auto.
    now apply footnote_mapping_identifiers.
Qed.

Lemma normalized_within `{SetOrder} t K z :
  (0 <= K)%Z ->
  In z (marker_ids (fst (normalize_footnotes t K))) ->
  (K <= z < K + Z.of_nat (length (distinct_ids t)))%Z.
Proof.
  intros HK Hz. unfold marker_ids in Hz.
  rewrite normalized_findall in Hz by assumption.
  apply in_map_iff in Hz as (x & <- & Hx).
  apply in_map_iff in Hx as (i & <- & Hi).
  assert (Hv : In (chain (fst (footnote_mapping t K)) i)
                 (map str (upfrom K (length (distinct_ids t))))).
  { apply chain_in.
    - intros kv Hkv. rewrite <- (footnote_mapping_values t K).
      now apply in_map.
    - left. rewrite footnote_mapping_keys.
      apply (Permutation_in _ (Permutation_sym (footnote_ids_perm t))).
      now apply in_distinct_ids. }
  apply in_map_iff in Hv as (v & <- & Hv).
  pose proof (upfrom_ge _ _ _ Hv).
  rewrite int_str by lia. now apply in_upfrom.
Qed.

(** X2.  For a counter that is not negative, the text returned is the text
    given with every marker renamed and nothing else touched: the text
    outside the markers is the same, there are as many markers, in the same
    places, and the identifier of each is what the entries of the mapping,
    applied one after the other in the order of the mapping, make of the
    identifier it had. *)
Theorem normalize_footnotes_chains `{SetOrder} (t : text) (K : Z) :
  (0 <= K)%Z ->
  let m := fst (footnote_mapping t K) in
  let t' := fst (normalize_footnotes t K) in
  t' = rename_by (chain m) t
  /\ Re.findall ANY_MARKER t' = map (chain m) (Re.findall ANY_MARKER t)
  /\ unmarked t' = unmarked t.
Proof.
  intros HK m t'. split; [|split].
  - now apply normalize_footnotes_chain_eq.
  - now apply normalized_findall.
  - unfold t', unmarked, Re.sub.
    rewrite normalize_footnotes_chain_eq by assumption.
    rewrite rename_by_scan.
    + apply replace_retag.
    + intros i Hi. apply chain_identifier; auto.
      now apply footnote_mapping_identifiers.
Qed.

Lemma normalize_footnotes_chains_witness :
  fst (normalize_footnotes answer_two 2)
  = rename_by (chain [(lit "1", lit "2"); (lit "2", lit "3")]) answer_two
  /\ Re.findall ANY_MARKER (fst (normalize_footnotes answer_two 2))
     = [lit "3"; lit "3"; lit "3"; lit "3"]
  /\ unmarked (fst (normalize_footnotes answer_two 2))
     = lit "b c : two : three".
Proof.
  exact (@normalize_footnotes_chains first_seen_order answer_two 2
           ltac:(discriminate)).
Defined.

(** ** Chunks keep apart *)

Lemma normalize_chunks_within `{SetOrder} raw : forall K z,
  (0 <= K)%Z ->
  In z (concat (map marker_ids (normalize_chunks raw K))) ->
  (K <= z < K + Z.of_nat (total_ids raw))%Z.
Proof.
  induction raw as [|t raw IH]; intros K z HK Hz.
  - destruct Hz.
  - cbn [normalize_chunks total_ids] in *.
    pose proof (@normalized_within _ t K z HK) as B.
    destruct (normalize_footnotes t K) as [t' K'] eqn:E.
    assert (EK : K' = (K + Z.of_nat (length (distinct_ids t)))%Z)
      by (rewrite normalize_footnotes_eq in E; now injection E).
    cbn [fst] in B. cbn [map concat] in Hz.
    apply in_app_iff in Hz as [Hz|Hz].
    + apply B in Hz. lia.
    + apply IH in Hz; lia.
Qed.

(** X3.  Whatever the answers, and whether identifiers collide or not, a
    run that starts from a counter that is not negative gives a later
    chunk larger identifiers than an earlier one: every identifier of a
    normalized chunk lies in the block of the counter values the chunk
    used up, so no two chunks of the output share an identifier. *)
Theorem chunks_never_share_identifiers `{SetOrder} (raw : list text) (K : Z)
  (before mid after : list text) (a b : text) (x y : Z) :
  (0 <= K)%Z ->
  normalize_chunks raw K = before ++ a :: mid ++ b :: after ->
  In x (marker_ids a) -> In y (marker_ids b) ->
  (K <= x < y)%Z.
Proof.
  revert K before. induction raw as [|t raw IH]; intros K before HK E Hx Hy.
  - destruct before; discriminate.
  - cbn [normalize_chunks] in E.
    pose proof (@normalized_within _ t K x HK) as B.
    destruct (normalize_footnotes t K) as [t' K'] eqn:En.
    assert (EK : K' = (K + Z.of_nat (length (distinct_ids t)))%Z)
      by (rewrite normalize_footnotes_eq in En; now injection En).
    cbn [fst] in B.
    destruct before as [|c before]; cbn [app] in E; injection E as <- E.
    + specialize (B Hx).
      assert (Hin : In y (concat (map marker_ids (normalize_chunks raw K')))).
      { rewrite E. apply in_concat. exists (marker_ids b). split; auto.
        apply in_map, in_or_app. right. now left. }
      apply normalize_chunks_within in Hin; lia.
    + assert (K' <= x < y)%Z by (apply (IH K' before); auto; lia). lia.
Qed.

Lemma chunks_never_share_identifiers_witness :
  normalize_chunks [answer_one; answer_two] 1
  = [lit "a[^1] [^1]: one"; lit "b[^3] c[^3] [^3]: two [^3]: three"]
  /\ (1 <= 1 < 3)%Z.
Proof.
  split; [reflexivity|].
  apply (@chunks_never_share_identifiers first_seen_order
           [answer_one; answer_two] 1 [] [] []
           (lit "a[^1] [^1]: one")
           (lit "b[^3] c[^3] [^3]: two [^3]: three")).
  - discriminate.
  - reflexivity.
  - vm_compute. auto.
  - vm_compute. auto.
Defined.

(** ** Mappings that cannot collide *)

Lemma chain_mapped m : forall i,
  no_collision m = true -> chain m i = mapped m i.
Proof.
  induction m as [|[o n] m IH]; intros i Hc; [reflexivity|].
  cbn [no_collision] in Hc. apply andb_prop in Hc as [Hfresh Hc].
  apply negb_true_iff in Hfresh.
  rewrite chain_cons, mapped_cons, IH by assumption. unfold swap.
  destruct (text_eqb i o); auto. now apply mapped_absent.
Qed.

Lemma rename_by_ext f g t :
  (forall i, f i = g i) -> rename_by f t = rename_by g t.
Proof. intro E. unfold rename_by. f_equal. now apply retag_ext. Qed.

Lemma rename_markers_by m t : rename_markers m t = rename_by (mapped m) t.
Proof. unfold rename_markers, rename_by. apply renumber_render. Qed.

Lemma rename_when_free `{SetOrder} t K :
  (0 <= K)%Z ->
  no_collision (fst (footnote_mapping t K)) = true ->
  fold_left rewrite_one (fst (footnote_mapping t K)) t
  = rename_by (mapped (fst (footnote_mapping t K))) t.
Proof.
  intros HK Hc.
  pose proof (normalize_footnotes_chain_eq t HK) as E.
  rewrite normalize_footnotes_eq in E. cbn [fst] in E. rewrite E.
  apply rename_by_ext. intro i. now apply chain_mapped.
Qed.

Lemma in_combine_keys (ks vs : list text) k :
  In k (map fst (combine ks vs)) -> In k ks.
Proof.
  intro Hk. apply in_map_iff in Hk as ([k' v] & <- & Hin).
  now apply in_combine_l in Hin.
Qed.

Lemma no_collision_behind ks : forall K K' n,
  (0 <= K <= K')%Z ->
  (forall k, In k ks -> (int k < K)%Z) ->
  no_collision (combine ks (map str (upfrom K' n))) = true.
Proof.
  induction ks as [|k ks IH]; intros K K' [|n] HK Hb; try reflexivity.
  cbn [upfrom map combine no_collision].
  apply andb_true_intro. split.
  - apply negb_true_iff. apply not_true_is_false. intro Hin.
    apply in_mapping_spec, in_combine_keys in Hin.
    assert (int (str K') < K)%Z by (apply Hb; now right).
    rewrite int_str in *; lia.
  - apply (IH K); [lia|]. intros k' Hk'. apply Hb. now right.
Qed.

Lemma no_collision_ahead ks : forall K n,
  (0 <= K)%Z ->
  StronglySorted below ks ->
  (forall k, In k ks -> (K <= int k)%Z) ->
  no_collision (combine ks (map str (upfrom K n))) = true.
Proof.
  induction ks as [|k ks IH]; intros K [|n] HK Hs Ha; try reflexivity.
  inversion Hs as [|? ? Hs' Hk]; subst. rewrite Forall_forall in Hk.
  cbn [upfrom map combine no_collision].
  apply andb_true_intro. split.
  - apply negb_true_iff. apply not_true_is_false. intro Hin.
    apply in_mapping_spec, in_combine_keys in Hin.
    specialize (Hk _ Hin). unfold below in Hk.
    rewrite int_str in Hk by assumption.
    assert (K <= int k)%Z by (apply Ha; now left). lia.
  - apply IH; [lia | assumption |].
    intros k' Hk'. specialize (Hk _ Hk'). unfold below in Hk.
    assert (K <= int k)%Z by (apply Ha; now left). lia.
Qed.

Lemma footnote_ids_strict `{SetOrder} t :
  distinct_values t -> StronglySorted below (footnote_ids t).
Proof.
  intro Hd. apply ascending_strict; [apply sorted_by_ascending|].
  eapply Permutation_NoDup; [|exact Hd].
  apply Permutation_map. symmetry. apply footnote_ids_perm.
Qed.

(** X4.  Two cases in which the rewriting cannot collide, for a counter
    that is not negative: every identifier of the text is below the
    counter; or no identifier is below the counter and no two identifiers
    spell the same number (so for the first chunk, whose counter is 1, when
    its identifiers are distinct numbers from 1 on).  Then the text returned
    is the text with all markers renamed as the mapping reads. *)
Theorem normalize_footnotes_renames_apart `{SetOrder} (t : text) (K : Z) :
  (0 <= K)%Z ->
  (forall i, In i (distinct_ids t) -> (int i < K)%Z)
  \/ (distinct_values t /\ forall i, In i (distinct_ids t) -> (K <= int i)%Z) ->
  no_collision (fst (footnote_mapping t K)) = true
  /\ fst (normalize_footnotes t K)
     = rename_markers (fst (footnote_mapping t K)) t.
Proof.
  intros HK Hcase.
  assert (Hc : no_collision (fst (footnote_mapping t K)) = true).
  { rewrite footnote_mapping_eq. cbn [fst].
    destruct Hcase as [Hb|[Hd Ha]].
    - apply (@no_collision_behind _ K); [lia|].
      intros k Hk. apply Hb.
      now apply (Permutation_in _ (footnote_ids_perm t)).
    - apply no_collision_ahead; auto.
      + now apply footnote_ids_strict.
      + intros k Hk. apply Ha.
        now apply (Permutation_in _ (footnote_ids_perm t)). }
  split; [exact Hc|].
  rewrite normalize_footnotes_eq. cbn [fst].
  rewrite rename_markers_by. now apply rename_when_free.
Qed.

Lemma normalize_footnotes_renames_apart_witness :
  no_collision (fst (footnote_mapping answer_sparse 1)) = true
  /\ fst (normalize_footnotes answer_sparse 1)
     = rename_markers (fst (footnote_mapping answer_sparse 1)) answer_sparse.
Proof.
  apply (@normalize_footnotes_renames_apart first_seen_order answer_sparse 1).
  - discriminate.
  - right. split.
    + apply distinct_values_b_ok. reflexivity.
    + intros i Hi. vm_compute in Hi.
      destruct Hi as [<-|[<-|[]]]; vm_compute; discriminate.
Defined.

(** ** Normalizing again *)

Lemma map_int_str n : forall K,
  (0 <= K)%Z -> map int (map str (upfrom K n)) = upfrom K n.
Proof.
  induction n as [|n IH]; intros K HK; [reflexivity|].
  cbn [upfrom map]. rewrite int_str, IH by lia. reflexivity.
Qed.

Lemma upfrom_NoDup n : forall K, NoDup (upfrom K n).
Proof.
  induction n as [|n IH]; intro K; cbn [upfrom]; constructor; auto.
  intro Hin. apply upfrom_ge in Hin. lia.
Qed.

Lemma upfrom_strict n : forall K,
  (0 <= K)%Z -> StronglySorted below (map str (upfrom K n)).
Proof.
  induction n as [|n IH]; intros K HK; cbn [upfrom map]; constructor.
  - apply IH. lia.
  - rewrite Forall_forall. intros x Hx.
    apply in_map_iff in Hx as (v & <- & Hv). apply upfrom_ge in Hv.
    unfold below. rewrite !int_str; lia.
Qed.

Lemma chain_same V : forall i, chain (combine V V) i = i.
Proof.
  induction V as [|v V IH]; intro i; [reflexivity|].
  cbn [combine]. rewrite chain_cons, IH. unfold swap.
  destruct (text_eqb i v) eqn:E; auto.
  apply text_eqb_eq in E. congruence.
Qed.

Lemma rename_by_same t : rename_by (fun i => i) t = t.
Proof. unfold rename_by. rewrite retag_same. apply render_scan. Qed.

Section Again.

Context {order : SetOrder}.
Variable t : text.
Variable K : Z.
Hypothesis HK : (0 <= K)%Z.
Hypothesis Hfree : no_collision (fst (footnote_mapping t K)) = true.

Let V := map str (upfrom K (length (distinct_ids t))).
Let t' := fst (normalize_footnotes t K).

Lemma normalized_distinct_ids : Permutation (distinct_ids t') V.
Proof.
  apply NoDup_Permutation.
  - apply NoDup_nodup.
  - apply (NoDup_map_inv int). unfold V. rewrite map_int_str by assumption.
    apply upfrom_NoDup.
  - intro x. rewrite in_distinct_ids. unfold t'.
    rewrite (normalized_identifiers t HK Hfree).
    now rewrite footnote_mapping_values.
Qed.

Lemma normalized_count : length (distinct_ids t') = length (distinct_ids t).
Proof.
  rewrite (Permutation_length normalized_distinct_ids).
  unfold V. now rewrite length_map, upfrom_length.
Qed.

Lemma normalized_footnote_ids : footnote_ids t' = V.
Proof.
  apply strictly_sorted_unique.
  - apply footnote_ids_strict. unfold distinct_values.
    rewrite (Permutation_map int normalized_distinct_ids).
    unfold V. rewrite map_int_str by assumption. apply upfrom_NoDup.
  - now apply upfrom_strict.
  - rewrite footnote_ids_perm. apply normalized_distinct_ids.
Qed.

Lemma normalized_again : normalize_footnotes t' K = normalize_footnotes t K.
Proof.
  rewrite (surjective_pairing (normalize_footnotes t' K)).
  rewrite (surjective_pairing (normalize_footnotes t K)).
  f_equal.
  - rewrite normalize_footnotes_chain_eq by assumption.
    rewrite footnote_mapping_eq. cbn [fst].
    rewrite normalized_footnote_ids, normalized_count. fold V.
    rewrite (rename_by_ext (chain (combine V V)) (fun i => i))
      by apply chain_same.
    apply rename_by_same.
  - rewrite !normalize_footnotes_eq. cbn [snd].
    now rewrite normalized_count.
Qed.

End Again.

(** X5.  Where the rewriting does not collide (the counter is not negative
    and no new identifier of the mapping is an old identifier still to
    come), normalizing the text returned again with the same counter gives
    the same text and the same counter back. *)
Theorem normalize_footnotes_again `{SetOrder} (t : text) (K : Z) :
  (0 <= K)%Z ->
  no_collision (fst (footnote_mapping t K)) = true ->
  normalize_footnotes (fst (normalize_footnotes t K)) K
  = normalize_footnotes t K.
Proof. intros HK Hc. now apply normalized_again. Qed.

Lemma normalize_footnotes_again_witness :
  normalize_footnotes (fst (normalize_footnotes answer_sparse 2)) 2
  = normalize_footnotes answer_sparse 2.
Proof.
  apply (@normalize_footnotes_again first_seen_order answer_sparse 2).
  - discriminate.
  - reflexivity.
Defined.

(** ** The order of the set, again *)

(** X6.  When no two identifiers of the text spell the same number, the
    result of normalize_footnotes is the same for every order in which the
    set of identifiers is iterated: it does not change from one run of the
    interpreter to the next. *)
Theorem normalize_footnotes_any_set_order (o1 o2 : SetOrder) (t : text)
  (K : Z) :
  distinct_values t ->
  normalize_footnotes (H := o1) t K = normalize_footnotes (H := o2) t K.
Proof.
  intro Hd. rewrite (normalize_footnotes_any_order o1 K Hd).
  now rewrite (normalize_footnotes_any_order o2 K Hd).
Qed.

Lemma normalize_footnotes_any_set_order_witness :
  normalize_footnotes (H := first_seen_order) answer_two 1
  = normalize_footnotes (H := reversed_order) answer_two 1.
Proof.
  apply normalize_footnotes_any_set_order.
  apply distinct_values_b_ok. reflexivity.
Defined.

(** X7.  When two identifiers spell the same number, as 1 and 01 do, the
    order of the set decides which is renumbered first, sorted being
    stable: the same text and counter give different texts under two
    iteration orders. *)
Theorem normalize_footnotes_set_order_matters :
  normalize_footnotes (H := first_seen_order) two_spellings 1
  = (lit "x[^1] y[^2]", 3%Z)
  /\ normalize_footnotes (H := reversed_order) two_spellings 1
     = (lit "x[^2] y[^2]", 3%Z)
  /\ exists (o1 o2 : SetOrder) (t : text) (K : Z),
       fst (normalize_footnotes (H := o1) t K)
       <> fst (normalize_footnotes (H := o2) t K).
Proof.
  split; [reflexivity|]. split; [reflexivity|].
  exists first_seen_order, reversed_order, two_spellings, 1%Z.
  vm_compute. discriminate.
Qed.

(** ** Runs without collision *)

Lemma normalize_chunks_app `{SetOrder} a : forall b K,
  normalize_chunks (a ++ b) K
  = normalize_chunks a K
    ++ normalize_chunks b (K + Z.of_nat (total_ids a))%Z.
Proof.
  induction a as [|t a IH]; intros b K; cbn [app normalize_chunks total_ids].
  - now rewrite Z.add_0_r.
  - rewrite normalize_footnotes_eq. cbn [app]. rewrite IH.
    do 3 f_equal. lia.
Qed.

Lemma collision_free_app `{SetOrder} a : forall b K,
  collision_free (a ++ b) K
  = collision_free a K
    && collision_free b (K + Z.of_nat (total_ids a))%Z.
Proof.
  induction a as [|t a IH]; intros b K; cbn [app collision_free total_ids].
  - now rewrite Z.add_0_r.
  - rewrite normalize_footnotes_eq. cbn [snd]. rewrite IH, andb_assoc.
    do 2 f_equal. lia.
Qed.

(** X8.  A run in which no chunk's rewriting collides numbers the document
    from 1 without gaps: the identifiers of the chunks joined are exactly
    1, ..., N, with N the distinct identifiers of the answers added up, and
    every chunk holds exactly the block of identifiers that follows the
    block of the chunk before it. *)
Theorem numbering_without_collision `{SetOrder} (raw : list text) :
  collision_free raw 1 = true ->
  let chunks := normalize_chunks raw 1 in
  let output := join blank_line chunks in
  (forall z, In z (marker_ids output)
             <-> (1 <= z <= Z.of_nat (total_ids raw))%Z)
  /\ marker_ids output = concat (map marker_ids chunks)
  /\ forall before t after, raw = before ++ t :: after ->
     let K := (1 + Z.of_nat (total_ids before))%Z in
     let chunk := fst (normalize_footnotes t K) in
     chunks = normalize_chunks before 1 ++ chunk
              :: normalize_chunks after (snd (normalize_footnotes t K))
     /\ forall z, In z (marker_ids chunk)
                  <-> (K <= z < K + Z.of_nat (length (distinct_ids t)))%Z.
Proof.
  intros Hf chunks output. split; [|split].
  - intro z. unfold output. rewrite marker_ids_join.
    unfold chunks. rewrite collision_free_blocks by (auto; lia). lia.
  - apply marker_ids_join.
  - intros before t after -> K chunk. split.
    + unfold chunks. rewrite normalize_chunks_app. cbn [normalize_chunks].
      fold K. unfold chunk. now destruct (normalize_footnotes t K).
    + rewrite collision_free_app in Hf. apply andb_prop in Hf as [_ Hf].
      cbn [collision_free] in Hf. apply andb_prop in Hf as [Hf _].
      intro z. apply normalized_block; auto. unfold K. lia.
Qed.

Lemma numbering_without_collision_witness :
  collision_free [answer_one; answer_sparse] 1 = true
  /\ forall z,
       In z (marker_ids (join blank_line
               (normalize_chunks [answer_one; answer_sparse] 1)))
       <-> (1 <= z <= 3)%Z.
Proof.
  split; [reflexivity|].
  exact (proj1 (@numbering_without_collision first_seen_order
                  [answer_one; answer_sparse] eq_refl)).
Defined.

(** ** Chunks are filled greedily *)

Lemma tight_middle B G1 : forall g h G2,
  tight B (G1 ++ g :: h :: G2) -> overflows B g h.
Proof.
  induction G1 as [|a G1 IH]; intros g h G2 Ht.
  - now destruct Ht.
  - destruct Ht as [_ Ht]. now apply IH in Ht.
Qed.

Lemma tight_snoc B G : forall g h,
  tight B (G ++ [g]) -> overflows B g h -> tight B (G ++ [g; h]).
Proof.
  induction G as [|a G IH]; intros g h Ht Ho.
  - simpl. auto.
  - destruct Ht as [Ha Ht]. cbn [app tight]. split.
    + destruct G; exact Ha.
    + now apply IH.
Qed.

Lemma overflows_grow B g h p :
  h <> [] -> overflows B g h -> overflows B g (h ++ [p]).
Proof. destruct h; [congruence|auto]. Qed.

Lemma tight_grow B G : forall g p,
  g <> [] -> tight B (G ++ [g]) -> tight B (G ++ [g ++ [p]]).
Proof.
  induction G as [|a G IH]; intros g p Hg Ht.
  - simpl. auto.
  - destruct Ht as [Ha Ht]. cbn [app tight]. split.
    + destruct G as [|b G]; [|exact Ha].
      cbn [app] in *. now apply overflows_grow.
    + now apply IH.
Qed.

Lemma word_count_one p : word_count [p] = length (py_split p).
Proof. unfold word_count. simpl. lia. Qed.

Section Greedy.

Variable B : Z.

Let state := chunking (list text).
Let step : state -> text -> state := add_paragraph (fun g => g) B.

Lemma step_full st para : full B st -> full B (step st para).
Proof.
  intros [Hl Ht]. unfold full, step, add_paragraph.
  destruct (current_chunk st) as [|q cur] eqn:Ec.
  - rewrite andb_false_r. cbn [current_chunk current_length chunks].
    rewrite Ec. split.
    + rewrite Hl. unfold word_count. simpl. lia.
    + cbn [app]. rewrite Ht. simpl. auto.
  - cbn [nonempty]. rewrite andb_true_r.
    destruct (Z.gtb_spec (Z.of_nat (current_length st + length (py_split para))) B)
      as [Hgt|Hle].
    + cbn [current_chunk current_length chunks]. split.
      * unfold word_count. simpl. lia.
      * cbn [app]. rewrite <- app_assoc. cbn [app].
        apply tight_snoc; auto. cbn [overflows]. rewrite <- Hl. lia.
    + cbn [current_chunk current_length chunks]. rewrite Ec. split.
      * now rewrite word_count_app, Hl, word_count_one.
      * apply (@tight_grow B (chunks st) (q :: cur) para); [discriminate|auto].
Qed.

Lemma fold_full ps : forall st, full B st -> full B (fold_left step ps st).
Proof.
  induction ps as [|p ps IH]; intros st Hst; [assumption|].
  apply IH. now apply step_full.
Qed.

Lemma chunk_groups_tight ps : tight B (chunk_groups B ps).
Proof.
  unfold chunk_groups, chunk_paragraphs.
  assert (H0 : full B {| chunks := []; current_chunk := [];
                         current_length := 0 |}) by (split; reflexivity).
  apply (fold_full ps) in H0. unfold step in H0.
  set (st := fold_left _ ps _) in *.
  destruct H0 as [_ Ht]. unfold flush.
  destruct (current_chunk st) as [|q cur].
  - cbn [nonempty]. rewrite Ht. exact I.
  - exact Ht.
Qed.

(** Below the budget nothing is closed. *)
Lemma fold_within ps : forall st : state,
  chunks st = [] ->
  current_length st = word_count (current_chunk st) ->
  (Z.of_nat (word_count (current_chunk st ++ ps)) <= B)%Z ->
  flush (fun g => g) (fold_left step ps st)
  = match current_chunk st ++ ps with
    | [] => []
    | g => [g]
    end.
Proof.
  induction ps as [|p ps IH]; intros st Hc Hl Hw.
  - cbn [fold_left]. rewrite app_nil_r. unfold flush. rewrite Hc.
    now destruct (current_chunk st).
  - cbn [fold_left].
    assert (Hp : (Z.of_nat (current_length st + length (py_split p))
                  >? B)%Z = false).
    { rewrite Z.gtb_ltb. apply Z.ltb_ge. rewrite Hl.
      change (p :: ps) with ([p] ++ ps) in Hw.
      rewrite !word_count_app, word_count_one in Hw. lia. }
    rewrite IH.
    + unfold step, add_paragraph. rewrite Hp. cbn [andb current_chunk].
      now rewrite <- app_assoc.
    + unfold step, add_paragraph. rewrite Hp. exact Hc.
    + unfold step, add_paragraph. rewrite Hp.
      cbn [andb current_chunk current_length].
      now rewrite word_count_app, Hl, word_count_one.
    + unfold step, add_paragraph. rewrite Hp. cbn [andb current_chunk].
      now rewrite <- app_assoc.
Qed.

End Greedy.

(** *** The words of a text and of its paragraphs *)

Lemma py_split_spaces ws : forall r,
  forallb is_space ws = true -> py_split (ws ++ r) = py_split r.
Proof.
  induction ws as [|c ws IH]; intros r H; [reflexivity|].
  simpl in H. apply andb_prop in H as [Hc H].
  cbn [app py_split]. rewrite Hc. now apply IH.
Qed.

Lemma py_split_lstrip s : py_split (lstrip s) = py_split s.
Proof.
  induction s as [|c s IH]; [reflexivity|].
  cbn [lstrip]. destruct (is_space c) eqn:E; [|reflexivity].
  rewrite IH. cbn [py_split]. now rewrite E.
Qed.

Lemma lstrip_span s : lstrip s = snd (span is_space s).
Proof.
  induction s as [|c s IH]; [reflexivity|].
  cbn [lstrip span]. destruct (is_space c); auto.
  rewrite IH. now destruct (span is_space s).
Qed.

Lemma len_words_trailing a : forall ws,
  forallb is_space ws = true ->
  length (py_split (a ++ ws)) = length (py_split a).
Proof.
  intros [|c ws] H; [now rewrite app_nil_r|].
  simpl in H. apply andb_prop in H as [Hc H].
  rewrite py_split_space_between by assumption.
  rewrite <- (app_nil_r ws), py_split_spaces by assumption. simpl. lia.
Qed.

Lemma len_words_strip s : length (py_split (strip s)) = length (py_split s).
Proof.
  unfold strip. rewrite <- (py_split_lstrip s).
  generalize (lstrip s). intro x.
  destruct (span_spec is_space (rev x)) as [E Hs].
  rewrite lstrip_span.
  assert (Ex : x = rev (snd (span is_space (rev x)))
                   ++ rev (fst (span is_space (rev x)))).
  { rewrite <- rev_app_distr, <- E. now rewrite rev_involutive. }
  rewrite Ex at 2. rewrite len_words_trailing; auto.
  rewrite forallb_forall in *. intros c Hc. apply Hs.
  now apply in_rev.
Qed.

Lemma firstn_spaces x : forall j,
  (j <= length (run x))%nat -> forallb is_space (firstn j x) = true.
Proof.
  intros j Hj. destruct (span_spec is_space x) as [E Hs]. fold (run x) in *.
  rewrite E. rewrite firstn_app.
  replace (j - length (run x))%nat with 0%nat by lia.
  cbn [firstn]. rewrite app_nil_r.
  rewrite forallb_forall in *. intros c Hc. apply Hs.
  rewrite <- (firstn_skipn j (run x)). apply in_or_app. now left.
Qed.

Lemma layout_words s ps :
  layout s ps -> length (py_split s) = word_count ps.
Proof.
  induction 1 as [p Hq | p y n g ps Hq Hy Hl IH].
  - unfold word_count. simpl. lia.
  - apply BLANK_LINE_hit in Hy as (x & k & -> & -> & -> & Hk).
    rewrite py_split_space_between by reflexivity.
    change (word_count (p :: ps))
      with (length (py_split p) + word_count ps)%nat.
    f_equal. rewrite <- IH.
    replace (k + 2)%nat with (S (S k)) by lia. cbn [skipn].
    rewrite <- (firstn_skipn (S k) x) at 1.
    rewrite py_split_spaces; auto.
    apply firstn_spaces. apply last_newline_bound in Hk. lia.
Qed.

Lemma paragraphs_words t :
  word_count (paragraphs_of t) = length (py_split t).
Proof.
  unfold paragraphs_of.
  rewrite <- (layout_words (layout_of_split (strip t))).
  apply len_words_strip.
Qed.

Lemma map_eq_two (A C : Type) (f : A -> C) l : forall before c d after,
  map f l = before ++ c :: d :: after ->
  exists G1 g h G2, l = G1 ++ g :: h :: G2 /\ f g = c /\ f h = d.
Proof.
  induction l as [|a l IH]; intros before c d after E.
  - destruct before; discriminate.
  - destruct before as [|b before]; cbn [map app] in E.
    + destruct l as [|a' l]; [discriminate|]. cbn [map] in E.
      injection E as <- <- _. now exists [], a, a', l.
    + injection E as _ E. apply IH in E as (G1 & g & h & G2 & -> & <- & <-).
      now exists (a :: G1), g, h, G2.
Qed.

(** X9.  A chunk is closed only when the next paragraph does not fit: of
    two chunks that follow each other, the words of the first and of the
    first paragraph of the second are more than the budget together. *)
Theorem split_into_chunks_greedy (t : text) (B : Z)
  (before after : list text) (c d : text) :
  split_into_chunks t B = before ++ c :: d :: after ->
  exists p rest,
    Re.split BLANK_LINE d = p :: rest
    /\ In p (paragraphs_of t)
    /\ (len_words c + len_words p > B)%Z.
Proof.
  intro E. unfold split_into_chunks in E.
  rewrite chunk_paragraphs_close in E.
  apply map_eq_two in E as (G1 & g & h & G2 & E & <- & <-).
  pose proof (chunk_groups_tight B (paragraphs_of t)) as Ht.
  pose proof (chunk_groups_split t B) as Hs.
  pose proof (concat_chunk_groups B (paragraphs_of t)) as Hc.
  rewrite E in Ht, Hs, Hc.
  apply tight_middle in Ht.
  apply Forall_app in Hs as [_ Hs].
  apply Forall_inv_tail, Forall_inv in Hs.
  destruct h as [|p rest]; [destruct Ht|].
  exists p, rest. split; [exact Hs|]. split.
  - rewrite <- Hc, concat_app. apply in_or_app. right.
    cbn [concat]. apply in_or_app. right. apply in_or_app. left. now left.
  - unfold len_words. rewrite py_split_join. cbn [overflows] in Ht. lia.
Qed.

Lemma split_into_chunks_greedy_witness :
  exists p rest,
    Re.split BLANK_LINE (lit "end") = p :: rest
    /\ In p (paragraphs_of two_chunk_document)
    /\ (len_words (concat (repeat (lit "word ") 500)) + len_words p > 500)%Z.
Proof.
  apply (@split_into_chunks_greedy two_chunk_document 500 [] []).
  vm_compute. reflexivity.
Defined.

(** X10.  A text of no more words than the budget is one chunk: its
    paragraphs joined by one blank line each, whatever white space stood
    between them and around the text. *)
Theorem split_into_chunks_small (t : text) (B : Z) :
  (len_words t <= B)%Z ->
  split_into_chunks t B = [join blank_line (paragraphs_of t)].
Proof.
  intro Hw. unfold split_into_chunks. rewrite chunk_paragraphs_close.
  unfold chunk_groups, chunk_paragraphs.
  rewrite fold_within; cbn [current_chunk current_length chunks app];
    try reflexivity.
  - destruct (paragraphs_of t) eqn:E; [|reflexivity].
    exfalso. revert E. apply between_nonempty.
  - rewrite paragraphs_words. exact Hw.
Qed.

Lemma split_into_chunks_small_witness :
  split_into_chunks (lit "  one two" ++ [newline; " "; newline; newline]
                       ++ lit "three ") 500
  = [lit "one two" ++ blank_line ++ lit "three"].
Proof.
  apply (@split_into_chunks_small
           (lit "  one two" ++ [newline; " "; newline; newline]
              ++ lit "three ") 500).
  vm_compute. discriminate.
Defined.

(** ** Whole runs *)

Lemma reply_nonempty o c : reply o = inr c -> c <> [].
Proof.
  destruct o as [e|[|[[|a x]|] l]]; simpl; intro E; try discriminate.
  injection E as <-. discriminate.
Qed.

Lemma failed_rounds_no_write service p delay count : forall first,
  existsb is_write (failed_rounds service p delay first count) = false.
Proof.
  induction count as [|count IH]; intro first; [reflexivity|].
  cbn [failed_rounds]. rewrite existsb_app, IH.
  now destruct (reply (service first p)).
Qed.

(** What the loop of chunks that are served leaves: no write, an answer
    for every chunk, and between one and three requests for each. *)
Lemma served_facts service guidance n i first chunks answers ev last :
  served service guidance n i first chunks answers ev last ->
  existsb is_write ev = false
  /\ Forall2 (answered service guidance) chunks answers
  /\ (first + length chunks <= last <= first + 3 * length chunks)%nat.
Proof.
  induction 1 as [i first
                 | i first chunk chunks k answer answers ev last
                     Hk Hf Hr Hs (Hw & Ha & Hn)].
  - repeat split; [constructor | simpl; lia | simpl; lia].
  - split; [|split].
    + cbn [existsb is_write orb]. rewrite existsb_app.
      rewrite failed_rounds_no_write. exact Hw.
    + constructor; [|exact Ha]. split; [now apply reply_nonempty in Hr|].
      eauto.
    + cbn [length]. lia.
Qed.

Section Results.

Context {order : SetOrder}.
Variable service : nat -> prompt -> outcome.

(** The requests of one decorated call fail up to one that is answered,
    or all fail. *)
Lemma first_success p left : forall first,
  (exists k c, (k < left)%nat
               /\ (forall j, (j < k)%nat -> fails service p (first + j))
               /\ reply (service (first + k) p) = inr c)
  \/ (forall j, (j < left)%nat -> fails service p (first + j)).
Proof.
  intro first. induction left as [|left [(k & c & Hk & Hf & Hr)|Hall]].
  - right. intros j Hj. lia.
  - left. exists k, c. repeat split; auto.
  - destruct (reply (service (first + left) p)) as [e|c] eqn:Er.
    + right. intros j Hj.
      destruct (Nat.eq_dec j left) as [->|Hne];
        [now exists e | apply Hall; lia].
    + left. exists left, c. repeat split; auto.
Qed.

Lemma attempts_cases p max_attempts delay left w r w' :
  attempts max_attempts delay (annotate_once service p) left w = (r, w') ->
  (exists k c,
     (k < left)%nat
     /\ (forall j, (j < k)%nat -> fails service p (requests w + j))
     /\ reply (service (requests w + k) p) = inr c
     /\ r = inr c
     /\ w' = {| requests := requests w + k + 1;
                trace := trace w
                         ++ failed_rounds service p delay (requests w) k
                         ++ [Request p] |})
  \/ ((forall j, (j < left)%nat -> fails service p (requests w + j))
      /\ r = inl (exhausted max_attempts)
      /\ w' = {| requests := requests w + left;
                 trace := trace w
                          ++ failed_rounds service p delay (requests w)
                               left |}).
Proof.
  intro E.
  destruct (first_success p left (requests w))
    as [(k & c & Hk & Hf & Hr)|Hall].
  - left. exists k, c.
    rewrite (@attempts_succeed service p max_attempts delay k left w c
               Hk Hf Hr) in E.
    injection E as <- <-. repeat split; auto.
  - right.
    rewrite (@attempts_exhaust service p max_attempts delay left w Hall)
      in E.
    injection E as <- <-. repeat split; auto.
Qed.

(** The loop of [process_file]: every chunk is served, or the chunks
    before one are and that one gets no answer in three requests. *)
Lemma annotate_from_served guidance n : forall todo i K done w r w',
  annotate_from service guidance n i todo K done w = (r, w') ->
  (exists raw ev,
     r = inr (done ++ normalize_chunks raw K)
     /\ served service guidance n i (requests w) todo raw ev (requests w')
     /\ trace w' = trace w ++ ev)
  \/ (exists before chunk after raw ev first,
        todo = before ++ chunk :: after
        /\ served service guidance n i (requests w) before raw ev first
        /\ (forall j, (j < 3)%nat ->
              fails service
                {| prompt_guidance := guidance; prompt_chunk := chunk |}
                (first + j))
        /\ r = inl (RuntimeError "Failed after 3 attempts")
        /\ requests w' = (first + 3)%nat
        /\ trace w'
           = trace w ++ ev
             ++ Progress (i + length before + 1) n
             :: failed_rounds service
                  {| prompt_guidance := guidance; prompt_chunk := chunk |}
                  5 first 3).
Proof.
  induction todo as [|chunk todo IH]; intros i K done w r w' E.
  - cbn [annotate_from] in E. unfold ret in E. injection E as <- <-.
    left. exists [], []. cbn [normalize_chunks]. rewrite !app_nil_r.
    repeat split. constructor.
  - rewrite annotate_from_step in E.
    unfold annotate_chunk_with_prompt, retry in E.
    destruct (attempts 3 5 _ 3 _) as [r1 w1] eqn:Ea.
    apply attempts_cases in Ea
      as [(k & c & Hk & Hf & Hr & -> & ->)|(Hall & -> & ->)];
      cbn [requests trace] in *.
    + apply IH in E
        as [(raw & ev & -> & Hs & Et)
           |(before & ch & after & raw & ev & first
             & -> & Hs & Hall & -> & Hn & Et)];
        cbn [requests trace] in *.
      * left. exists (c :: raw). eexists. split; [|split].
        -- rewrite <- app_assoc. cbn [app normalize_chunks].
           now destruct (normalize_footnotes c K).
        -- apply served_cons with (k := k); eauto. lia.
        -- rewrite Et. cbn [app]. repeat (rewrite <- app_assoc; cbn [app]).
           reflexivity.
      * right. exists (chunk :: before), ch, after, (c :: raw).
        eexists. exists first.
        split; [reflexivity|]. split.
        -- apply served_cons with (k := k); eauto. lia.
        -- repeat split; auto.
           rewrite Et. cbn [length].
           replace (S i + length before + 1)%nat
             with (i + S (length before) + 1)%nat by lia.
           cbn [app]. repeat (rewrite <- app_assoc; cbn [app]).
           reflexivity.
    + injection E as <- <-. right.
      exists [], chunk, todo, [], [], (requests w). cbn [app length].
      split; [reflexivity|]. split; [constructor|].
      repeat split; auto.
      rewrite <- app_assoc. cbn [app].
      now replace (i + 0 + 1)%nat with (i + 1)%nat by lia.
Qed.

End Results.

(** X11.  A run that returns (errors of the path and of reading and writing
    the files are not modelled) has classified the text and served every
    chunk in order: for each chunk at most two requests that failed, each
    followed by its notice and a sleep of five seconds, and then one request
    that was answered, so between one and three requests for each chunk.
    It wrote once, as its last action: the answers, each normalized with
    the counter the one before left, from 1, joined by blank lines. *)
Theorem process_file_output `{SetOrder}
  (detect_genre_intro : text -> exn + string)
  (service : nat -> prompt -> outcome) (input_text output : text)
  (w' : world) :
  process_file detect_genre_intro service input_text start
  = (inr output, w') ->
  let chunks := split_into_chunks input_text CHUNK_SIZE in
  exists genre guidance raw ev,
    detect_genre_intro input_text = inr genre
    /\ get_genre_guidance genre = inr guidance
    /\ served service guidance (length chunks) 0 0 chunks raw ev
         (requests w')
    /\ Forall2 (answered service guidance) chunks raw
    /\ output = join blank_line (normalize_chunks raw 1)
    /\ trace w' = [Classify; Report genre guidance] ++ ev
                  ++ [WriteText output]
    /\ existsb is_write ev = false
    /\ (length chunks <= requests w' <= 3 * length chunks)%nat.
Proof.
  intros E chunks.
  destruct (detect_genre_intro input_text) as [e|genre] eqn:Hg.
  { unfold process_file, bind, emit, lift in E. rewrite Hg in E.
    discriminate. }
  destruct (get_genre_guidance_returns genre) as [guidance Hgd].
  rewrite (process_file_loop _ _ _ start Hg Hgd) in E. fold chunks in E.
  destruct (annotate_from _ _ _ _ _ _ _ _) as [[e|out] w1] eqn:Ea;
    [discriminate|].
  injection E as <- <-.
  apply annotate_from_served in Ea
    as [(raw & ev & Er & Hs & Et)
       |(? & ? & ? & ? & ? & ? & _ & _ & _ & Er & _)]; [|discriminate].
  injection Er as ->. cbn [requests trace start app] in *.
  destruct (served_facts Hs) as (Hw & Ha & Hn).
  exists genre, guidance, raw, ev.
  repeat split; auto; try lia.
  rewrite Et. reflexivity.
Qed.

Lemma process_file_output_witness :
  exists genre guidance raw ev,
    fiction two_chunk_document = inr genre
    /\ get_genre_guidance genre = inr guidance
    /\ served service_two_answers guidance
         (length (split_into_chunks two_chunk_document CHUNK_SIZE)) 0 0
         (split_into_chunks two_chunk_document CHUNK_SIZE) raw ev
         (requests (snd (process_file fiction service_two_answers
                           two_chunk_document start)))
    /\ Forall2 (answered service_two_answers guidance)
         (split_into_chunks two_chunk_document CHUNK_SIZE) raw
    /\ lit "a[^1] [^1]: one" ++ blank_line
       ++ lit "b[^3] c[^3] [^3]: two [^3]: three"
       = join blank_line (normalize_chunks raw 1)
    /\ trace (snd (process_file fiction service_two_answers
                     two_chunk_document start))
       = [Classify; Report genre guidance] ++ ev
         ++ [WriteText (lit "a[^1] [^1]: one" ++ blank_line
                        ++ lit "b[^3] c[^3] [^3]: two [^3]: three")]
    /\ existsb is_write ev = false
    /\ (length (split_into_chunks two_chunk_document CHUNK_SIZE)
        <= requests (snd (process_file fiction service_two_answers
                            two_chunk_document start))
        <= 3 * length (split_into_chunks two_chunk_document CHUNK_SIZE))%nat.
Proof.
  apply (@process_file_output first_seen_order fiction service_two_answers
           two_chunk_document).
  vm_compute. reflexivity.
Defined.

(** X12.  Of the failures of the classification and of the annotation
    (errors of the path, of reading and writing the files and of the
    interpreter are not modelled), a run that fails has written nothing
    and failed in one of two ways.  The classification raised: this is the
    error of the run, and nothing but the request for the classification
    was done (it is not tried again).  Or the chunks before some chunk were
    served, each with one to three requests, and that chunk got no answer in
    three requests, each followed by its notice and a sleep of five seconds:
    the error is that of the decorator, and the answers to the chunks
    before are not written. *)
Theorem process_file_failure `{SetOrder}
  (detect_genre_intro : text -> exn + string)
  (service : nat -> prompt -> outcome) (input_text : text) (e : exn)
  (w' : world) :
  process_file detect_genre_intro service input_text start = (inl e, w') ->
  let chunks := split_into_chunks input_text CHUNK_SIZE in
  existsb is_write (trace w') = false
  /\ ((detect_genre_intro input_text = inl e
       /\ w' = {| requests := 0; trace := [Classify] |})
      \/ exists genre guidance before chunk after raw ev first,
           detect_genre_intro input_text = inr genre
           /\ get_genre_guidance genre = inr guidance
           /\ chunks = before ++ chunk :: after
           /\ served service guidance (length chunks) 0 0 before raw ev first
           /\ (forall j, (j < 3)%nat ->
                 fails service
                   {| prompt_guidance := guidance; prompt_chunk := chunk |}
                   (first + j))
           /\ e = RuntimeError "Failed after 3 attempts"
           /\ requests w' = (first + 3)%nat
           /\ trace w'
              = [Classify; Report genre guidance] ++ ev
                ++ Progress (length before + 1) (length chunks)
                :: failed_rounds service
                     {| prompt_guidance := guidance; prompt_chunk := chunk |}
                     5 first 3).
Proof.
  intros E chunks.
  destruct (detect_genre_intro input_text) as [e0|genre] eqn:Hg.
  { unfold process_file, bind, emit, lift in E. rewrite Hg in E.
    injection E as <- <-. cbn [requests trace start app].
    split; [reflexivity|]. left. split; reflexivity. }
  destruct (get_genre_guidance_returns genre) as [guidance Hgd].
  rewrite (process_file_loop _ _ _ start Hg Hgd) in E. fold chunks in E.
  destruct (annotate_from _ _ _ _ _ _ _ _) as [[e1|out] w1] eqn:Ea;
    [|discriminate].
  injection E as <- <-.
  apply annotate_from_served in Ea
    as [(? & ? & Er & _)
       |(before & chunk & after & raw & ev & first
         & Ec & Hs & Hall & Er & Hn & Et)]; [discriminate|].
  injection Er as ->. cbn [requests trace start app] in *.
  destruct (served_facts Hs) as (Hw & _ & _).
  split.
  - rewrite Et. cbn [existsb is_write orb].
    rewrite existsb_app, Hw. cbn [existsb is_write orb].
    apply failed_rounds_no_write.
  - right. exists genre, guidance, before, chunk, after, raw, ev, first.
    repeat split; auto.
Qed.

Lemma process_file_failure_witness :
  existsb is_write
    (trace (snd (process_file fiction service_down_after_one
                   two_chunk_document start))) = false
  /\ ((fiction two_chunk_document
       = inl (RuntimeError "Failed after 3 attempts")
       /\ snd (process_file fiction service_down_after_one
                 two_chunk_document start)
          = {| requests := 0; trace := [Classify] |})
      \/ exists genre guidance before chunk after raw ev first,
           fiction two_chunk_document = inr genre
           /\ get_genre_guidance genre = inr guidance
           /\ split_into_chunks two_chunk_document CHUNK_SIZE
              = before ++ chunk :: after
           /\ served service_down_after_one guidance
                (length (split_into_chunks two_chunk_document CHUNK_SIZE))
                0 0 before raw ev first
           /\ (forall j, (j < 3)%nat ->
                 fails service_down_after_one
                   {| prompt_guidance := guidance; prompt_chunk := chunk |}
                   (first + j))
           /\ RuntimeError "Failed after 3 attempts"
              = RuntimeError "Failed after 3 attempts"
           /\ requests (snd (process_file fiction service_down_after_one
                               two_chunk_document start))
              = (first + 3)%nat
           /\ trace (snd (process_file fiction service_down_after_one
                            two_chunk_document start))
              = [Classify; Report genre guidance] ++ ev
                ++ Progress (length before + 1)
                     (length (split_into_chunks two_chunk_document
                                CHUNK_SIZE))
                :: failed_rounds service_down_after_one
                     {| prompt_guidance := guidance; prompt_chunk := chunk |}
                     5 first 3).
Proof.
  apply (@process_file_failure first_seen_order fiction
           service_down_after_one two_chunk_document).
  vm_compute. reflexivity.
Defined.

(** ** The label read from the answer of the classifier *)

Lemma search_hit P s n g : P s = Some (n, g) -> search P s = Some g.
Proof. intro H. destruct s; simpl; now rewrite H. Qed.

Lemma search_quiet P p ctx :
  quiet P p ctx -> search P (p ++ ctx) = search P ctx.
Proof.
  induction p as [|c p IH]; intro Hq; [reflexivity|].
  cbn [app search]. rewrite (Hq [] c p eq_refl).
  apply IH. now apply quiet_tail in Hq.
Qed.

Lemma starts_with_ci_app kw : forall s,
  starts_with_ci (lower kw) (kw ++ s) = true.
Proof.
  induction kw as [|c kw IH]; intro s; [reflexivity|].
  cbn [lower map app starts_with_ci]. rewrite Ascii.eqb_refl.
  apply IH.
Qed.

Lemma lower_char_colon c : lower_char c = colon -> c = colon.
Proof.
  unfold lower_char. intro H.
  destruct c as [[] [] [] [] [] [] [] []]; vm_compute in H |- *;
    congruence.
Qed.

(** A text that begins with the keyword has its first colon at index 5. *)
Lemma keyword_colon s :
  starts_with_ci (lit "genre:") s = true ->
  exists a b, s = a ++ colon :: b /\ length a = 5%nat /\ ~ In colon a.
Proof.
  intro H.
  change (lit "genre:") with ["g"; "e"; "n"; "r"; "e"; ":"] in H.
  destruct s as [|c1 [|c2 [|c3 [|c4 [|c5 [|c6 s]]]]]];
    cbn [starts_with_ci] in H; rewrite ?andb_false_r in H;
    try discriminate.
  repeat (apply andb_prop in H as [?H H]).
  repeat match goal with
         | E : Ascii.eqb _ _ = true |- _ => apply Ascii.eqb_eq in E
         end.
  exists [c1; c2; c3; c4; c5], s.
  assert (c6 = colon) by (apply lower_char_colon; now symmetry).
  subst c6. split; [reflexivity|]. split; [reflexivity|].
  intros [E|[E|[E|[E|[E|[]]]]]]; subst;
    match goal with
    | E : _ = lower_char colon |- _ => vm_compute in E; discriminate
    end.
Qed.

Lemma first_colon (a b q r : text) :
  a ++ colon :: b = q ++ colon :: r -> ~ In colon q ->
  (length q <= length a)%nat.
Proof.
  intros E Hq. apply app_eq_app in E as [l [[-> E]|[-> E]]].
  - rewrite length_app. lia.
  - destruct l as [|c l]; [rewrite length_app; simpl; lia|].
    injection E as <- _. exfalso. apply Hq, in_or_app. right. now left.
Qed.

(** No match begins in a text without colon that the keyword follows. *)
Lemma quiet_before_keyword pre kw s :
  ~ In colon pre -> lower kw = lit "genre:" ->
  quiet GENRE_PATTERN pre (kw ++ s).
Proof.
  intros Hpre Hkw p1 c p2 ->. unfold GENRE_PATTERN.
  destruct (starts_with_ci _ _) eqn:E; [|reflexivity]. exfalso.
  apply keyword_colon in E as (a & b & E & La & Ha).
  destruct (keyword_colon (kw ++ s)) as (a' & b' & E' & La' & Ha').
  { rewrite <- Hkw. apply starts_with_ci_app. }
  rewrite E' in E.
  change (c :: p2 ++ a' ++ colon :: b')
    with ((c :: p2) ++ a' ++ colon :: b') in E.
  rewrite app_assoc in E. symmetry in E.
  apply first_colon in E.
  - rewrite length_app in E. simpl in E. lia.
  - intro Hin. apply in_app_or in Hin as [Hin|Hin]; [|contradiction].
    apply Hpre, in_or_app. right. exact Hin.
Qed.

Lemma span_dot_line g tail :
  forallb is_dot g = true -> tail = [] \/ (exists x, tail = newline :: x) ->
  fst (span is_dot (g ++ tail)) = g.
Proof.
  intros Hg [->|[x ->]].
  - rewrite app_nil_r. induction g as [|c g IH]; [reflexivity|].
    simpl in Hg. apply andb_prop in Hg as [Hc Hg]. cbn [span]. rewrite Hc.
    specialize (IH Hg). destruct (span is_dot g). simpl in *. now f_equal.
  - now rewrite span_all.
Qed.

(** The match at the keyword, when a label follows. *)
Lemma GENRE_PATTERN_label kw ws c g tail :
  lower kw = lit "genre:" ->
  forallb is_space ws = true ->
  is_space c = false ->
  forallb is_dot (c :: g) = true ->
  tail = [] \/ (exists x, tail = newline :: x) ->
  exists n, GENRE_PATTERN (kw ++ ws ++ (c :: g) ++ tail) = Some (n, c :: g).
Proof.
  intros Hkw Hws Hc Hg Ht. unfold GENRE_PATTERN.
  pose proof (starts_with_ci_app kw (ws ++ (c :: g) ++ tail)) as Hs.
  rewrite Hkw in Hs. rewrite Hs.
  assert (L : length kw = 6%nat)
    by (apply (f_equal (@length ascii)) in Hkw;
        unfold lower in Hkw; now rewrite length_map in Hkw).
  rewrite <- L, skipn_length_app.
  change (ws ++ (c :: g) ++ tail) with (ws ++ c :: (g ++ tail)).
  rewrite span_all by assumption.
  change (c :: g ++ tail) with ((c :: g) ++ tail).
  rewrite span_dot_line by assumption. eauto.
Qed.

(** The label behind the first keyword. *)
Lemma read_genre_at_keyword (pre kw ws g tail : text) (c : ascii) :
  ~ In colon pre ->
  lower kw = lit "genre:" ->
  forallb is_space ws = true ->
  is_space c = false ->
  forallb is_dot (c :: g) = true ->
  tail = [] \/ (exists x, tail = newline :: x) ->
  read_genre (pre ++ kw ++ ws ++ (c :: g) ++ tail)
  = string_of_list_ascii (lower (strip (c :: g))).
Proof.
  intros Hpre Hkw Hws Hc Hg Ht. unfold read_genre.
  rewrite search_quiet by now apply quiet_before_keyword.
  destruct (@GENRE_PATTERN_label kw ws c g tail) as [n Hn]; auto.
  now rewrite (search_hit _ _ Hn).
Qed.

(** X13.  The answer of the classifier is read case-insensitively at the
    first "genre:": when no colon comes before it, and what follows it
    after any white space is a label on one line, the genre is that label
    without the white space at its end and in lower case. *)
Theorem read_genre_label (pre kw ws g tail : text) (c : ascii) :
  ~ In colon pre ->
  lower kw = lit "genre:" ->
  forallb is_space ws = true ->
  is_space c = false ->
  forallb is_dot (c :: g) = true ->
  tail = [] \/ (exists x, tail = newline :: x) ->
  read_genre (pre ++ kw ++ ws ++ (c :: g) ++ tail)
  = string_of_list_ascii (lower (strip (c :: g))).
Proof. now apply read_genre_at_keyword. Qed.

Lemma read_genre_label_witness :
  read_genre (lit "Sure! " ++ lit "Genre:" ++ lit "  " ++ lit "Sci-Fi "
                ++ newline :: lit "genre: other")
  = "sci-fi"%string.
Proof.
  apply (@read_genre_label (lit "Sure! ") (lit "Genre:") (lit "  ")
           (lit "ci-Fi ") (newline :: lit "genre: other") "S").
  - vm_compute. intuition discriminate.
  - reflexivity.
  - reflexivity.
  - reflexivity.
  - reflexivity.
  - right. eauto.
Defined.

Lemma lstrip_last a : forall c,
  is_space c = false -> exists a', lstrip (a ++ [c]) = a' ++ [c].
Proof.
  induction a as [|b a IH]; intros c Hc.
  - exists []. simpl. now rewrite Hc.
  - cbn [app lstrip]. destruct (is_space b).
    + now apply IH.
    + now exists (b :: a).
Qed.

Lemma strip_head c y :
  is_space c = false -> exists y', strip (c :: y) = c :: y'.
Proof.
  intro Hc. unfold strip. cbn [lstrip]. rewrite Hc. cbn [rev].
  destruct (lstrip_last (rev y) c Hc) as [a' ->].
  rewrite rev_app_distr. simpl. eauto.
Qed.

(** X14.  An answer that gives the genre in square brackets, as the
    request for it spells the format ("genre: [your_choice]"), is read with
    the bracket: the label begins with it, is no key of the table, and the
    guidance is that of "other", whatever stands in the brackets. *)
Theorem read_genre_bracketed (pre kw ws x : text) :
  ~ In colon pre ->
  lower kw = lit "genre:" ->
  forallb is_space ws = true ->
  (exists label,
     read_genre (pre ++ kw ++ ws ++ open_bracket :: x)
     = String open_bracket label)
  /\ get_genre_guidance (read_genre (pre ++ kw ++ ws ++ open_bracket :: x))
     = inr "Annotate as usual based on clarity and learner needs."%string.
Proof.
  intros Hpre Hkw Hws.
  assert (E : exists label,
            read_genre (pre ++ kw ++ ws ++ open_bracket :: x)
            = String open_bracket label).
  { destruct (span_spec is_dot x) as [Ex Hd].
    set (g := fst (span is_dot x)) in *.
    set (tail := snd (span is_dot x)) in *.
    assert (Ht : tail = [] \/ exists z, tail = newline :: z).
    { unfold tail. clear. induction x as [|c x IH]; [now left|].
      cbn [span]. destruct (is_dot c) eqn:Ec.
      - destruct (span is_dot x). exact IH.
      - right. exists x. cbn [snd]. f_equal. unfold is_dot in Ec.
        apply negb_false_iff in Ec. now apply Ascii.eqb_eq in Ec. }
    rewrite Ex.
    change (open_bracket :: g ++ tail) with ((open_bracket :: g) ++ tail).
    rewrite read_genre_at_keyword; auto.
    destruct (@strip_head open_bracket g eq_refl) as [y' ->].
    cbn [lower map string_of_list_ascii]. eauto. }
  split; [exact E|]. destruct E as [label ->]. reflexivity.
Qed.

Lemma read_genre_bracketed_witness :
  (exists label,
     read_genre (lit "genre: [fantasy]") = String open_bracket label)
  /\ get_genre_guidance (read_genre (lit "genre: [fantasy]"))
     = inr "Annotate as usual based on clarity and learner needs."%string.
Proof.
  apply (@read_genre_bracketed [] (lit "genre:") (lit " ") (lit "fantasy]")).
  - intros [].
  - reflexivity.
  - reflexivity.
Defined.

Lemma GENRE_PATTERN_colon s n g :
  GENRE_PATTERN s = Some (n, g) -> In colon s.
Proof.
  unfold GENRE_PATTERN. destruct (starts_with_ci _ _) eqn:E; [|discriminate].
  intros _. apply keyword_colon in E as (a & b & -> & _).
  apply in_or_app. right. now left.
Qed.

(** X15.  An answer without a colon has no "genre:" in it, and the genre
    is "other"; so is it for the empty answer. *)
Theorem read_genre_other (content : text) :
  ~ In colon content -> read_genre content = "other"%string.
Proof.
  intro H. unfold read_genre.
  assert (E : search GENRE_PATTERN content = None).
  { induction content as [|c s IH].
    - reflexivity.
    - cbn [search]. destruct (GENRE_PATTERN (c :: s)) as [[n g]|] eqn:Ep.
      + apply GENRE_PATTERN_colon in Ep. contradiction.
      + apply IH. intro Hin. apply H. now right. }
  now rewrite E.
Qed.

Lemma read_genre_other_witness :
  read_genre (lit "I think it is a fantasy novel") = "other"%string.
Proof.
  apply read_genre_other. vm_compute. intuition discriminate.
Defined.

(** ** The name of the output file *)

Lemma rfind_spec c s : forall i,
  rfind c s = Some i ->
  exists a b, s = a ++ c :: b /\ length a = i /\ ~ In c b.
Proof.
  induction s as [|x s IH]; intros i H; [discriminate|].
  cbn [rfind] in H. destruct (rfind c s) as [k|] eqn:E.
  - injection H as <-. destruct (IH k eq_refl) as (a & b & -> & <- & Hb).
    now exists (x :: a), b.
  - destruct (Ascii.eqb_spec x c) as [->|]; [|discriminate].
    injection H as <-. exists [], s. repeat split.
    clear IH. induction s as [|y s IHs]; [auto|].
    cbn [rfind] in E. destruct (rfind c s); [discriminate|].
    destruct (Ascii.eqb_spec y c); [discriminate|].
    intros [Hy|Hin]; [congruence|]. now apply IHs.
Qed.

Lemma rfind_last c s e :
  ~ In c e -> rfind c (s ++ c :: e) = Some (length s).
Proof.
  intro He.
  assert (E : rfind c e = None).
  { induction e as [|y e IH]; [reflexivity|]. cbn [rfind].
    rewrite IH by (intro; apply He; now right).
    destruct (Ascii.eqb_spec y c); [|reflexivity].
    exfalso. apply He. now left. }
  induction s as [|x s IH].
  - cbn [app rfind length]. now rewrite E, Ascii.eqb_refl.
  - cbn [app rfind length]. now rewrite IH.
Qed.

(** X16.  The output file is not the input file: whatever the name of the
    input, the name written to is another one. *)
Theorem output_name_differs (name out : text) :
  output_name name = Some out -> out <> name.
Proof.
  destruct name as [|c name]; [discriminate|].
  cbn [output_name]. intro H; injection H as <-. unfold stem.
  set (n := c :: name).
  assert (Hsame : n ++ lit "_annotated.txt" <> n).
  { intro E. apply (f_equal (@length ascii)) in E.
    rewrite length_app in E. simpl in E. lia. }
  destruct (rfind "." n) as [i|] eqn:E; [|exact Hsame].
  destruct ((0 <? i) && (i <? length n - 1))%nat; [|exact Hsame].
  apply rfind_spec in E as (a & b & En & <- & _).
  rewrite En, firstn_app, firstn_all, Nat.sub_diag. cbn [firstn].
  rewrite app_nil_r. intro E. apply app_inv_head in E. discriminate.
Qed.

Lemma output_name_differs_witness :
  lit "book_annotated_annotated.txt" <> lit "book_annotated.txt".
Proof.
  apply (@output_name_differs (lit "book_annotated.txt")). reflexivity.
Defined.

(** X17.  The extension of the input is dropped: a name that ends with a
    dot and an extension, with something before the dot, gives the name
    before the dot followed by "_annotated.txt", so inputs that differ in
    their extension only are written to the same file. *)
Theorem output_name_extension (s e : text) :
  s <> [] -> e <> [] -> ~ In "."%char e ->
  output_name (s ++ "."%char :: e) = Some (s ++ lit "_annotated.txt").
Proof.
  intros Hs He Hdot. destruct s as [|c s]; [congruence|].
  cbn [app output_name]. f_equal. f_equal. unfold stem.
  change (c :: s ++ "."%char :: e) with ((c :: s) ++ "."%char :: e).
  rewrite rfind_last by assumption.
  assert (Hi : ((0 <? length (c :: s))
                && (length (c :: s)
                    <? length ((c :: s) ++ "."%char :: e) - 1))%nat = true).
  { apply andb_true_intro. split.
    - now apply Nat.ltb_lt; simpl; lia.
    - apply Nat.ltb_lt. rewrite length_app. destruct e; [congruence|].
      simpl. lia. }
  rewrite Hi. rewrite firstn_app, firstn_all, Nat.sub_diag. cbn [firstn].
  now rewrite app_nil_r.
Qed.

Lemma output_name_extension_witness :
  output_name (lit "book.md") = Some (lit "book_annotated.txt").
Proof.
  apply (@output_name_extension (lit "book") (lit "md")).
  - discriminate.
  - discriminate.
  - vm_compute. intuition discriminate.
Defined.

(** ** Time spent waiting *)

Lemma slept_app a b : slept (a ++ b) = (slept a + slept b)%nat.
Proof. unfold slept. now rewrite map_app, list_sum_app. Qed.

Lemma attempts_sleeps (service : nat -> prompt -> outcome) (p : prompt)
  (max_attempts delay : nat) (left : nat) : forall w r w',
  attempts max_attempts delay (annotate_once service p) left w = (r, w') ->
  (requests w <= requests w')%nat
  /\ match r with
     | inl e =>
         e = exhausted max_attempts
         /\ (requests w' - requests w)%nat = left
         /\ slept (trace w') = (slept (trace w) + left * delay)%nat
     | inr c =>
         (1 <= requests w' - requests w <= left)%nat
         /\ slept (trace w')
            = (slept (trace w) + (requests w' - requests w - 1) * delay)%nat
     end.
Proof.
  induction left as [|left IH]; intros w r w'; cbn [attempts].
  - unfold raise. intro E; injection E as <- <-.
    split; [lia|]. split; [reflexivity|]. split; lia.
  - unfold annotate_once at 1.
    destruct (reply (service (requests w) p)) as [e|c] eqn:Er.
    + unfold bind, emit. cbn [requests trace]. intro E.
      apply IH in E as (Hle & Hr). cbn [requests trace] in Hle, Hr.
      split; [lia|]. rewrite !slept_app in Hr.
      change (slept [Request p]) with 0%nat in Hr.
      change (slept [RetryNotice e delay]) with 0%nat in Hr.
      change (slept [Sleep delay]) with (delay + 0)%nat in Hr.
      destruct r as [e'|c'].
      * destruct Hr as (-> & Hm & Hs). split; [reflexivity|].
        split; [lia|]. rewrite Hs. lia.
      * destruct Hr as (Hm & Hs). split; [lia|]. rewrite Hs.
        replace (requests w' - requests w - 1)%nat
          with (S (requests w' - S (requests w) - 1))%nat by lia.
        lia.
    + intro E; injection E as <- <-. cbn [requests trace].
      split; [lia|]. split; [lia|].
      rewrite slept_app. change (slept [Request p]) with 0%nat.
      replace (S (requests w) - requests w - 1)%nat with 0%nat by lia. lia.
Qed.

(** X18.  The decorator sleeps after every attempt that failed, the last
    one too: a call that gives up has made all its attempts and slept that
    many times the delay before it raises; a call that returns has slept
    the delay once for every attempt before the one that succeeded.  With
    no attempt allowed it raises at once. *)
Theorem retry_sleeps (service : nat -> prompt -> outcome) (p : prompt)
  (max_attempts delay : nat) (w : world) :
  let res := retry max_attempts delay (annotate_once service p) w in
  let made := (requests (snd res) - requests w)%nat in
  (requests w <= requests (snd res))%nat
  /\ match fst res with
     | inl e =>
         e = RuntimeError ("Failed after "
                           ++ string_of_list_ascii (str (Z.of_nat max_attempts))
                           ++ " attempts")
         /\ made = max_attempts
         /\ slept (trace (snd res))
            = (slept (trace w) + max_attempts * delay)%nat
     | inr c =>
         (1 <= made <= max_attempts)%nat
         /\ slept (trace (snd res))
            = (slept (trace w) + (made - 1) * delay)%nat
     end.
Proof.
  intros res made. unfold made, res, retry.
  destruct (attempts _ _ _ _ _) as [r w'] eqn:E.
  apply attempts_sleeps in E. exact E.
Qed.

(** ** The order of the new identifiers *)

Lemma combine_keys (ks vs : list text) :
  length ks = length vs -> map fst (combine ks vs) = ks.
Proof.
  revert vs. induction ks as [|k ks IH]; intros [|v vs] E;
    simpl in *; try lia; auto.
  f_equal. apply IH. lia.
Qed.

Lemma combine_values (ks vs : list text) :
  length ks = length vs -> map snd (combine ks vs) = vs.
Proof.
  revert vs. induction ks as [|k ks IH]; intros [|v vs] E;
    simpl in *; try lia; auto.
  f_equal. apply IH. lia.
Qed.

Lemma mapped_combine_above ks : forall K j,
  (0 <= K)%Z -> In j ks ->
  (K <= int (mapped (combine ks (map str (upfrom K (length ks)))) j))%Z.
Proof.
  intros K j HK Hj.
  assert (L : length ks = length (map str (upfrom K (length ks))))
    by now rewrite length_map, upfrom_length.
  pose proof (@mapped_in (combine ks (map str (upfrom K (length ks)))) j) as H.
  rewrite combine_keys, combine_values in H by assumption.
  specialize (H Hj). apply in_map_iff in H as (v & <- & Hv).
  apply upfrom_ge in Hv. rewrite int_str; lia.
Qed.

Lemma mapped_combine_mono ks : forall K i j,
  (0 <= K)%Z -> StronglySorted below ks ->
  In i ks -> In j ks -> below i j ->
  below (mapped (combine ks (map str (upfrom K (length ks)))) i)
        (mapped (combine ks (map str (upfrom K (length ks)))) j).
Proof.
  induction ks as [|k ks IH]; intros K i j HK Hs Hi Hj Hij; [destruct Hi|].
  inversion Hs as [|? ? Hs' Hk]; subst. rewrite Forall_forall in Hk.
  cbn [length upfrom map combine]. rewrite !mapped_cons.
  destruct (text_eqb i k) eqn:Ei; destruct (text_eqb j k) eqn:Ej.
  - apply text_eqb_eq in Ei, Ej. subst. unfold below in Hij. lia.
  - apply text_eqb_eq in Ei. subst i.
    destruct Hj as [->|Hj];
      [assert (text_eqb j j = true) by (now apply text_eqb_eq); congruence|].
    unfold below. rewrite int_str by assumption.
    pose proof (@mapped_combine_above ks (K + 1)%Z j ltac:(lia) Hj). lia.
  - apply text_eqb_eq in Ej. subst j.
    destruct Hi as [->|Hi];
      [assert (text_eqb i i = true) by (now apply text_eqb_eq); congruence|].
    specialize (Hk _ Hi). unfold below in *. lia.
  - destruct Hi as [->|Hi];
      [assert (text_eqb i i = true) by (now apply text_eqb_eq); congruence|].
    destruct Hj as [->|Hj];
      [assert (text_eqb j j = true) by (now apply text_eqb_eq); congruence|].
    apply IH; auto. lia.
Qed.

(** X19.  The new identifiers follow the numbers of the old ones, not the
    places of the markers: of two identifiers of a text whose identifiers
    have distinct values, the one that spells the smaller number gets the
    smaller new identifier, wherever the two stand in the text. *)
Theorem renumbering_keeps_order `{SetOrder} (t : text) (K : Z) (i j : text) :
  (0 <= K)%Z -> distinct_values t ->
  In i (distinct_ids t) -> In j (distinct_ids t) ->
  (int i < int j)%Z ->
  let m := fst (footnote_mapping t K) in
  (K <= int (mapped m i) < int (mapped m j))%Z.
Proof.
  intros HK Hd Hi Hj Hij m. unfold m.
  rewrite footnote_mapping_eq. cbn [fst].
  rewrite <- footnote_ids_length.
  apply (Permutation_in _ (Permutation_sym (footnote_ids_perm t))) in Hi, Hj.
  split.
  - now apply mapped_combine_above.
  - apply mapped_combine_mono; auto. now apply footnote_ids_strict.
Qed.

Lemma renumbering_keeps_order_witness :
  let m := fst (footnote_mapping (lit "x[^7] y[^5] [^5]: a [^7]: b") 1) in
  (1 <= int (mapped m (lit "5")) < int (mapped m (lit "7")))%Z.
Proof.
  apply (@renumbering_keeps_order first_seen_order
           (lit "x[^7] y[^5] [^5]: a [^7]: b") 1 (lit "5") (lit "7")).
  - discriminate.
  - apply distinct_values_b_ok. reflexivity.
  - vm_compute. auto.
  - vm_compute. auto.
  - reflexivity.
Defined.

(** ** The paragraphs of the chunks and the paragraphs of the document *)

Lemma lines_nonempty s : lines s <> [].
Proof.
  destruct s as [|c r]; [discriminate|]. cbn [lines].
  destruct (Ascii.eqb c newline); [discriminate|].
  destruct (lines r); discriminate.
Qed.

Lemma lines_newline r : lines (newline :: r) = [] :: lines r.
Proof. cbn [lines]. now rewrite Ascii.eqb_refl. Qed.

Lemma lines_other c r :
  c <> newline -> lines (c :: r) = (c :: hd [] (lines r)) :: tl (lines r).
Proof.
  intro Hc. cbn [lines]. destruct (Ascii.eqb_spec c newline); [congruence|].
  destruct (lines r) eqn:E; [now apply lines_nonempty in E|reflexivity].
Qed.

Lemma lines_app_newline a b : lines (a ++ newline :: b) = lines a ++ lines b.
Proof.
  induction a as [|c a IH].
  - cbn [app]. now rewrite lines_newline.
  - cbn [app]. destruct (Ascii.eqb_spec c newline) as [->|Hc].
    + now rewrite !lines_newline, IH.
    + rewrite !lines_other, IH by assumption.
      destruct (lines a) eqn:E; [now apply lines_nonempty in E|reflexivity].
Qed.

(** A text is one line, or a line, a newline and a text. *)
Lemma lines_split s :
  (lines s = [s] /\ forallb is_dot s = true)
  \/ exists l r, s = l ++ newline :: r /\ forallb is_dot l = true
                 /\ lines s = l :: lines r.
Proof.
  induction s as [|c s IH]; [now left|].
  destruct (Ascii.eqb_spec c newline) as [->|Hc].
  - right. exists [], s. rewrite lines_newline. auto.
  - assert (Hd : is_dot c = true)
      by (unfold is_dot; now destruct (Ascii.eqb_spec c newline)).
    rewrite lines_other by assumption.
    destruct IH as [[E Hs]|(l & r & -> & Hl & E)]; rewrite E; cbn [hd tl].
    + left. split; [reflexivity|]. cbn [forallb]. now rewrite Hd.
    + right. exists (c :: l), r. cbn [forallb]. rewrite Hd. auto.
Qed.

Lemma join_lines s : join [newline] (lines s) = s.
Proof.
  remember (length s) as n eqn:Hn. revert s Hn.
  induction n as [n IH] using lt_wf_ind. intros s Hn.
  destruct (lines_split s) as [[E _]|(l & r & -> & _ & E)]; rewrite E.
  - reflexivity.
  - destruct (lines r) as [|l' ls] eqn:Er; [now apply lines_nonempty in Er|].
    change (join [newline] (l :: l' :: ls))
      with (l ++ [newline] ++ join [newline] (l' :: ls)).
    rewrite <- Er, (IH (length r)); auto.
    subst n. rewrite length_app. simpl. lia.
Qed.

Lemma blank_spaces w : forallb is_space w = true ->
  Forall (fun l => blank l = true) (lines w).
Proof.
  remember (length w) as n eqn:Hn. revert w Hn.
  induction n as [n IH] using lt_wf_ind. intros w Hn Hw.
  destruct (lines_split w) as [[E _]|(l & r & -> & _ & E)]; rewrite E.
  - constructor; auto.
  - rewrite forallb_app in Hw. apply andb_prop in Hw as [Hl Hr].
    cbn [forallb] in Hr. apply andb_prop in Hr as [_ Hr].
    constructor; auto. apply (IH (length r)); auto.
    subst n. rewrite length_app. simpl. lia.
Qed.

Lemma gather_blanks B : forall L,
  Forall (fun l => blank l = true) B -> gather (B ++ L) = gather L.
Proof.
  induction B as [|b B IH]; intros L H; [reflexivity|].
  inversion H as [|? ? Hb HB]; subst. cbn [app gather]. rewrite Hb.
  now apply IH.
Qed.

(** A run of lines that are not blank, before a blank line or the end. *)
Lemma gather_run L1 : forall L2,
  L1 <> [] -> Forall (fun l => blank l = false) L1 ->
  L2 = [] \/ blank (hd [] L2) = true ->
  gather (L1 ++ L2) = join [newline] L1 :: gather L2.
Proof.
  induction L1 as [|l L1 IH]; intros L2 Hne H HL2; [congruence|].
  inversion H as [|? ? Hl HL1]; subst. cbn [app gather]. rewrite Hl.
  destruct L1 as [|l' L1].
  - cbn [app join]. destruct HL2 as [->|Hb]; [reflexivity|].
    destruct L2 as [|l2 L2]; [reflexivity|]. cbn [hd] in Hb. now rewrite Hb.
  - inversion HL1 as [|? ? Hl' _]; subst. cbn [app]. rewrite Hl'.
    change (l' :: L1 ++ L2) with ((l' :: L1) ++ L2).
    rewrite IH by (auto; discriminate). reflexivity.
Qed.

Lemma gather_solid p : solid p -> gather (lines p) = [p].
Proof.
  intro H. rewrite <- (app_nil_r (lines p)).
  rewrite gather_run; auto.
  - now rewrite join_lines.
  - apply lines_nonempty.
Qed.

(** *** No blank line inside a paragraph *)

Lemma blank_line_follows l z :
  forallb is_space l = true ->
  exists n g, BLANK_LINE (newline :: l ++ newline :: z) = Some (n, g).
Proof.
  intro Hl. rewrite BLANK_LINE_cons, Ascii.eqb_refl.
  rewrite run_all_space by assumption.
  destruct (last_newline (l ++ run (newline :: z))) as [k|] eqn:E; [eauto|].
  exfalso. rewrite run_cons_space in E by reflexivity.
  revert E. apply last_newline_app_newline.
Qed.

(** The lines of a paragraph behind the first are not blank, when the
    paragraph stands before a newline or its last line is not blank. *)
Lemma quiet_lines y p :
  quiet BLANK_LINE p y ->
  y = [] \/ (exists x, y = newline :: x) ->
  (y = [] -> tl (lines p) <> [] -> blank (last (lines p) []) = false) ->
  Forall (fun l => blank l = false) (tl (lines p)).
Proof.
  intros Hq Hy. induction p as [|c p IH]; intro Hlast; [constructor|].
  assert (IHp : Forall (fun l => blank l = false) (tl (lines p))).
  { apply IH; [now apply quiet_tail in Hq|].
    intros Ey Hne. specialize (Hlast Ey).
    destruct (Ascii.eqb_spec c newline) as [->|Hc].
    - rewrite lines_newline in Hlast. cbn [tl] in Hlast.
      destruct (lines p) as [|l0 ls] eqn:E;
        [now apply lines_nonempty in E|].
      exact (Hlast ltac:(discriminate)).
    - rewrite lines_other in Hlast by assumption. cbn [tl] in Hlast.
      destruct (lines p) as [|l0 [|l1 ls]] eqn:E; cbn [hd tl] in *;
        [congruence | congruence |].
      exact (Hlast ltac:(discriminate)). }
  destruct (Ascii.eqb_spec c newline) as [->|Hc].
  - rewrite lines_newline. cbn [tl].
    destruct (lines p) as [|l0 ls] eqn:E; [constructor|].
    cbn [tl] in IHp. constructor; [|exact IHp].
    destruct (blank l0) eqn:Hb; [exfalso|reflexivity].
    pose proof (Hq [] newline p eq_refl) as Hnone.
    destruct (lines_split p) as [[E' _]|(l & r & Ep & _ & E')];
      rewrite E' in E.
    + injection E as <- <-.
      destruct Hy as [Ey|[x Ey]].
      * specialize (Hlast Ey). rewrite lines_newline, E' in Hlast.
        cbn [tl last] in Hlast. rewrite Hlast in Hb; [discriminate|].
        discriminate.
      * rewrite Ey in Hnone.
        destruct (@blank_line_follows p x Hb) as (n & g & Hm). congruence.
    + injection E as <- <-. rewrite Ep, <- app_assoc in Hnone.
      cbn [app] in Hnone.
      destruct (@blank_line_follows l (r ++ y) Hb) as (n & g & Hm).
      congruence.
  - rewrite lines_other by assumption. exact IHp.
Qed.

Lemma quiet_solid y p :
  quiet BLANK_LINE p y ->
  y = [] \/ (exists x, y = newline :: x) ->
  blank (hd [] (lines p)) = false ->
  (y = [] -> blank (last (lines p) []) = false) ->
  solid p.
Proof.
  intros Hq Hy Hfirst Hlast. unfold solid.
  pose proof (@quiet_lines y p Hq Hy (fun E _ => Hlast E)) as H.
  destruct (lines p) as [|l0 ls]; [constructor|].
  constructor; assumption.
Qed.

(** The last newline of a run of white space. *)
Lemma last_newline_spec w : forall k,
  last_newline w = Some k ->
  exists a b, w = a ++ newline :: b /\ length a = k
              /\ forallb is_dot b = true.
Proof.
  induction w as [|c w IH]; intros k H; [discriminate|].
  cbn [last_newline] in H. destruct (last_newline w) as [j|] eqn:E.
  - injection H as <-. destruct (IH j eq_refl) as (a & b & -> & <- & Hb).
    now exists (c :: a), b.
  - destruct (Ascii.eqb_spec c newline) as [->|]; [|discriminate].
    injection H as <-. exists [], w. repeat split.
    clear IH. induction w as [|d w IHw]; [reflexivity|].
    cbn [last_newline] in E. destruct (last_newline w); [discriminate|].
    unfold is_dot at 1. cbn [forallb].
    destruct (Ascii.eqb_spec d newline); [discriminate|]. now apply IHw.
Qed.

Lemma hd_app_lines (L1 L2 : list text) :
  L1 <> [] -> hd [] (L1 ++ L2) = hd [] L1.
Proof. destruct L1; [congruence|reflexivity]. Qed.

Lemma last_app_lines (L1 L2 : list text) :
  L2 <> [] -> last (L1 ++ L2) [] = last L2 [].
Proof.
  intro H. induction L1 as [|l L1 IH]; [reflexivity|].
  cbn [app]. destruct (L1 ++ L2) eqn:E.
  - apply app_eq_nil in E as [_ E]. congruence.
  - cbn [last]. exact IH.
Qed.

Lemma lines_one w : forallb is_dot w = true -> lines w = [w].
Proof.
  intro H. destruct (lines_split w) as [[E _]|(l & r & E & _ & _)]; auto.
  rewrite E, forallb_app in H. apply andb_prop in H as [_ H].
  cbn [forallb] in H. unfold is_dot at 1 in H.
  now rewrite Ascii.eqb_refl in H.
Qed.

Lemma lines_line w s :
  forallb is_dot w = true ->
  lines (w ++ s) = (w ++ hd [] (lines s)) :: tl (lines s).
Proof.
  intro H. induction w as [|c w IH].
  - cbn [app]. destruct (lines s) eqn:E; [now apply lines_nonempty in E|].
    reflexivity.
  - cbn [forallb] in H. apply andb_prop in H as [Hc H].
    cbn [app]. rewrite lines_other, IH by
      (auto; intros ->; unfold is_dot in Hc;
       now rewrite Ascii.eqb_refl in Hc).
    reflexivity.
Qed.

(** The paragraphs [re.split] cuts are the paragraphs of the text, when
    its first and its last line are not blank; and no line of them is. *)
Lemma layout_paragraphs s ps :
  layout s ps ->
  blank (hd [] (lines s)) = false ->
  blank (last (lines s) []) = false ->
  Forall solid ps /\ gather (lines s) = ps.
Proof.
  induction 1 as [p Hq | p y n g ps Hq Hy Hl IH]; intros Hfirst Hlast.
  - assert (Hs : solid p) by (apply (@quiet_solid [] p); auto).
    split; [now constructor | now apply gather_solid].
  - apply BLANK_LINE_hit in Hy as (x & k & -> & -> & -> & Hk).
    replace (k + 2)%nat with (S (S k)) in * by lia.
    change (skipn (S (S k)) (newline :: x)) with (skipn (S k) x) in *.
    destruct (span_spec is_space x) as [Ex Hrun]. fold (run x) in Ex, Hrun.
    destruct (last_newline_spec _ Hk) as (a & b & Er & La & Hb).
    set (z := snd (span is_space x)) in *.
    assert (Ha : forallb is_space a = true /\ forallb is_space b = true).
    { rewrite Er, forallb_app in Hrun. apply andb_prop in Hrun as [Ha Hr].
      cbn [forallb] in Hr. apply andb_prop in Hr as [_ Hr]. auto. }
    destruct Ha as [Ha Hbs].
    assert (Erest : skipn (S k) x = b ++ z).
    { rewrite Ex, Er, <- app_assoc. cbn [app].
      replace (S k) with (length (a ++ [newline]))
        by (rewrite length_app; simpl; lia).
      change (a ++ newline :: b ++ z) with (a ++ [newline] ++ (b ++ z)).
      rewrite app_assoc. apply skipn_length_app. }
    rewrite Erest in *.
    assert (Es : p ++ newline :: x = p ++ newline :: a ++ newline :: b ++ z).
    { rewrite Ex at 1. rewrite Er, <- app_assoc. reflexivity. }
    rewrite Es in *. clear Es.
    assert (Hlines : lines (p ++ newline :: a ++ newline :: b ++ z)
                     = lines p ++ lines a ++ lines (b ++ z))
      by now rewrite !lines_app_newline.
    rewrite Hlines in *.
    rewrite hd_app_lines in Hfirst by apply lines_nonempty.
    rewrite app_assoc, last_app_lines in Hlast by apply lines_nonempty.
    assert (Hp : solid p).
    { apply (@quiet_solid (newline :: x) p); eauto.
      intro E; discriminate. }
    assert (Hfirst' : blank (hd [] (lines (b ++ z))) = false).
    { rewrite lines_line in * by assumption. cbn [hd].
      destruct (blank (b ++ hd [] (lines z))) eqn:E; [|reflexivity].
      exfalso. unfold blank in E. rewrite forallb_app in E.
      apply andb_prop in E as [_ E].
      assert (Hz : z = [] \/ exists c z', z = c :: z' /\ is_space c = false).
      { unfold z. clear. induction x as [|c x IHx]; [now left|].
        cbn [span]. destruct (is_space c) eqn:Ec.
        - destruct (span is_space x). exact IHx.
        - right. now exists c, x. }
      destruct Hz as [Ez|(c & z' & Ez & Hc)].
      - rewrite Ez in *. cbn [lines hd tl last] in *.
        unfold blank in Hlast. rewrite forallb_app, Hbs in Hlast.
        discriminate.
      - rewrite Ez in E.
        assert (Hn : c <> newline) by (intros ->; discriminate).
        rewrite lines_other in E by assumption. cbn [hd forallb] in E.
        now rewrite Hc in E. }
    destruct (IH Hfirst' Hlast) as [Hsolid Hg]. split.
    + now constructor.
    + rewrite gather_run; auto.
      * rewrite join_lines, gather_blanks by now apply blank_spaces.
        now rewrite Hg.
      * apply lines_nonempty.
      * right. rewrite hd_app_lines by apply lines_nonempty.
        pose proof (blank_spaces a Ha) as HB.
        destruct (lines a) eqn:E; [now apply lines_nonempty in E|].
        now inversion HB.
Qed.

(** *** The text without the white space around it *)

Lemma lstrip_spec s :
  exists lead, s = lead ++ lstrip s /\ forallb is_space lead = true
               /\ forall c r, lstrip s = c :: r -> is_space c = false.
Proof.
  induction s as [|c s (lead & E & Hl & Hc)].
  - exists []. repeat split; auto. discriminate.
  - cbn [lstrip]. destruct (is_space c) eqn:Ec.
    + exists (c :: lead). cbn [app forallb]. rewrite Ec, <- E. auto.
    + exists []. repeat split; auto. intros c' r [= <- <-]. exact Ec.
Qed.

Lemma strip_spec t :
  exists lead trail,
    t = lead ++ strip t ++ trail
    /\ forallb is_space lead = true /\ forallb is_space trail = true
    /\ (forall c r, strip t = c :: r -> is_space c = false)
    /\ (forall r c, strip t = r ++ [c] -> is_space c = false).
Proof.
  unfold strip.
  destruct (lstrip_spec t) as (lead & Et & Hlead & Hfirst).
  destruct (lstrip_spec (rev (lstrip t))) as (tr & Eu & Htr & Hlast).
  set (u := lstrip t) in *. set (v := lstrip (rev u)) in *.
  assert (Eu' : u = rev v ++ rev tr).
  { rewrite <- rev_app_distr, <- Eu. now rewrite rev_involutive. }
  exists lead, (rev tr). repeat split.
  - now rewrite <- Eu'.
  - exact Hlead.
  - rewrite forallb_forall in *. intros c Hc. apply Htr. now apply in_rev.
  - intros c r E. apply (Hfirst c (r ++ rev tr)). now rewrite Eu', E.
  - intros r c E. apply (Hlast c (rev r)).
    rewrite <- (rev_involutive v), E, rev_app_distr. reflexivity.
Qed.

Lemma strip_has_text t : has_text t = true -> strip t <> [].
Proof.
  intros H E. destruct (strip_spec t) as (lead & trail & Et & Hl & Htr & _).
  rewrite E in Et. cbn [app] in Et. unfold has_text in H.
  apply existsb_exists in H as (c & Hc & Hn). rewrite Et in Hc.
  rewrite forallb_forall in Hl, Htr.
  apply in_app_or in Hc as [Hc|Hc]; [apply Hl in Hc|apply Htr in Hc];
    rewrite Hc in Hn; discriminate.
Qed.

Lemma lines_last_char r : forall c,
  c <> newline ->
  exists l, last (lines (r ++ [c])) [] = l ++ [c].
Proof.
  induction r as [|d r IH]; intros c Hc.
  - exists []. cbn [app]. now rewrite lines_other.
  - destruct (IH c Hc) as [l El]. cbn [app].
    destruct (Ascii.eqb_spec d newline) as [->|Hd].
    + rewrite lines_newline. exists l.
      destruct (lines (r ++ [c])) eqn:E; [now apply lines_nonempty in E|].
      exact El.
    + rewrite lines_other by assumption.
      destruct (lines (r ++ [c])) as [|l0 [|l1 ls]] eqn:E.
      * now apply lines_nonempty in E.
      * cbn [hd tl last] in *. exists (d :: l). now rewrite El.
      * cbn [hd tl] in *. exists l. exact El.
Qed.

Lemma first_line_solid s :
  s <> [] -> (forall c r, s = c :: r -> is_space c = false) ->
  blank (hd [] (lines s)) = false.
Proof.
  intros Hs Hfirst. destruct s as [|c r]; [congruence|].
  specialize (Hfirst c r eq_refl).
  assert (Hn : c <> newline) by (intros ->; discriminate).
  rewrite lines_other by assumption. cbn [hd blank forallb].
  now rewrite Hfirst.
Qed.

Lemma last_line_solid s :
  s <> [] -> (forall r c, s = r ++ [c] -> is_space c = false) ->
  blank (last (lines s) []) = false.
Proof.
  intros Hs Hlast. destruct (exists_last Hs) as (r & c & ->).
  specialize (Hlast r c eq_refl).
  assert (Hn : c <> newline) by (intros ->; discriminate).
  destruct (lines_last_char r Hn) as [l ->].
  unfold blank. rewrite forallb_app. cbn [forallb]. rewrite Hlast.
  now rewrite andb_false_r.
Qed.

Lemma paragraphs_of_document t :
  has_text t = true ->
  paragraphs_of t = document_paragraphs (strip t)
  /\ Forall solid (paragraphs_of t).
Proof.
  intro H. apply strip_has_text in H.
  destruct (strip_spec t) as (_ & _ & _ & _ & _ & Hfirst & Hlast).
  unfold paragraphs_of, document_paragraphs.
  destruct (@layout_paragraphs (strip t) (Re.split BLANK_LINE (strip t)))
    as [Hs Hg].
  - apply layout_of_split.
  - now apply first_line_solid.
  - now apply last_line_solid.
  - now split.
Qed.

(** A chunk has the paragraphs it was joined from. *)
Lemma document_paragraphs_join g :
  Forall solid g -> document_paragraphs (join blank_line g) = g.
Proof.
  unfold document_paragraphs.
  induction g as [|p g IH]; intro H; [reflexivity|].
  inversion H as [|? ? Hp Hg]; subst.
  destruct g as [|q g]; [now apply gather_solid|].
  change (join blank_line (p :: q :: g))
    with (p ++ newline :: newline :: join blank_line (q :: g)).
  rewrite lines_app_newline, lines_newline.
  rewrite gather_run; auto.
  - rewrite join_lines. cbn [gather blank forallb]. now rewrite IH.
  - apply lines_nonempty.
Qed.

Lemma Forall_concat_solid (G : list (list text)) :
  Forall solid (concat G) -> Forall (Forall solid) G.
Proof.
  induction G as [|g G IH]; intro H; [constructor|].
  cbn [concat] in H. apply Forall_app in H as [Hg HG].
  constructor; auto.
Qed.

(** *** The paragraphs of the document and of the stripped text *)

Lemma removelast_cons (l : text) (L : list text) :
  L <> [] -> removelast (l :: L) = l :: removelast L.
Proof. destruct L; [congruence|reflexivity]. Qed.

Lemma last_cons (l : text) (L : list text) :
  L <> [] -> last (l :: L) [] = last L [].
Proof. destruct L; [congruence|reflexivity]. Qed.

Lemma lines_app a b :
  lines (a ++ b)
  = removelast (lines a)
    ++ (last (lines a) [] ++ hd [] (lines b)) :: tl (lines b).
Proof.
  induction a as [|c a IH].
  - cbn [app lines removelast last].
    destruct (lines b) eqn:E; [now apply lines_nonempty in E|reflexivity].
  - cbn [app]. destruct (Ascii.eqb_spec c newline) as [->|Hc].
    + rewrite !lines_newline, IH.
      rewrite removelast_cons, last_cons by apply lines_nonempty.
      reflexivity.
    + rewrite !lines_other, IH by assumption.
      destruct (lines a) as [|l [|l2 ls]] eqn:E.
      * now apply lines_nonempty in E.
      * reflexivity.
      * cbn [hd tl]. rewrite removelast_cons, last_cons by discriminate.
        cbn [removelast app hd tl]. reflexivity.
Qed.

Lemma gather_blank_suffix B : forall X,
  Forall (fun l => blank l = true) B -> gather (X ++ B) = gather X.
Proof.
  intros X HB. induction X as [|l X IH].
  - cbn [app]. rewrite <- (app_nil_r B). now rewrite gather_blanks.
  - cbn [app gather]. rewrite IH. destruct (blank l); [reflexivity|].
    destruct X as [|l' X]; [|reflexivity].
    cbn [app]. destruct B as [|b B]; [reflexivity|].
    inversion HB as [|? ? Hb HB']; subst. now rewrite Hb.
Qed.

Lemma blank_app w l : blank l = false -> blank (w ++ l) = false.
Proof.
  unfold blank. intro H. rewrite forallb_app, H. apply andb_false_r.
Qed.

Lemma blank_app_r l w : blank l = false -> blank (l ++ w) = false.
Proof. unfold blank. intro H. now rewrite forallb_app, H. Qed.

Lemma gather_prefix w l rest :
  blank l = false ->
  gather ((w ++ l) :: rest) = on_first (app w) (gather (l :: rest)).
Proof.
  intro Hl. cbn [gather]. rewrite Hl, (@blank_app w l Hl).
  destruct rest as [|l' rest]; [reflexivity|].
  destruct (blank l'); [reflexivity|].
  destruct (gather (l' :: rest)); cbn [on_first]; [reflexivity|].
  now rewrite <- app_assoc.
Qed.

Lemma gather_ends X : forall la,
  blank la = false -> gather (X ++ [la]) <> [].
Proof.
  induction X as [|l X IH]; intros la Hla.
  - cbn [app gather]. now rewrite Hla.
  - cbn [app gather]. destruct (blank l); [now apply IH|].
    destruct (X ++ [la]) as [|l' r] eqn:E; [discriminate|].
    destruct (blank l'); [discriminate|].
    destruct (gather (l' :: r)); discriminate.
Qed.

Lemma gather_suffix tr X : forall la,
  blank la = false ->
  gather (X ++ [la ++ tr])
  = on_last (fun p => p ++ tr) (gather (X ++ [la])).
Proof.
  induction X as [|l X IH]; intros la Hla.
  - cbn [app gather on_last]. now rewrite Hla, (@blank_app_r la tr Hla).
  - pose proof (@gather_ends X la Hla) as Hne.
    specialize (IH la Hla).
    cbn [app gather]. destruct (blank l); [exact IH|].
    destruct X as [|l' X].
    + cbn [app] in *. rewrite Hla, (@blank_app_r la tr Hla).
      cbn [gather] in *. rewrite Hla, (@blank_app_r la tr Hla).
      cbn [on_last]. now rewrite <- app_assoc.
    + cbn [app] in *. destruct (blank l').
      * rewrite IH.
        destruct (gather (l' :: X ++ [la])) as [|p ps] eqn:E;
          [elim (Hne E)|].
        reflexivity.
      * rewrite IH.
        destruct (gather (l' :: X ++ [la])) as [|p [|q ps]] eqn:E;
          [elim (Hne E)| |reflexivity].
        cbn [on_last]. now rewrite <- app_assoc.
Qed.

Lemma Forall_last_blank (L : list text) :
  Forall (fun l => blank l = true) L -> L <> [] ->
  blank (last L []) = true
  /\ Forall (fun l => blank l = true) (removelast L).
Proof.
  induction 1 as [|l L Hl HL IH]; [congruence|]. intros _.
  destruct L as [|l' L]; [now split|].
  destruct IH as [IH1 IH2]; [discriminate|].
  rewrite removelast_cons, last_cons by discriminate.
  split; [exact IH1 | now constructor].
Qed.

(** The paragraphs of a document are those of the stripped text, with
    white space before the first and behind the last. *)
Lemma document_paragraphs_strip t :
  has_text t = true ->
  exists indent tail,
    forallb is_space indent = true /\ forallb is_space tail = true
    /\ document_paragraphs t
       = on_first (app indent)
           (on_last (fun p => p ++ tail) (document_paragraphs (strip t))).
Proof.
  intro H. pose proof (strip_has_text t H) as Hs.
  destruct (strip_spec t) as (lead & trail & Et & Hl & Htr & Hfirst & Hlast).
  set (s := strip t) in *.
  assert (Hf : blank (hd [] (lines s)) = false)
    by now apply first_line_solid.
  assert (Hla0 : blank (last (lines s) []) = false)
    by now apply last_line_solid.
  destruct (@exists_last _ (lines s) (@lines_nonempty s)) as (X & la & EX).
  assert (Hla : blank la = false) by now rewrite EX, last_last in Hla0.
  destruct (Forall_last_blank (blank_spaces lead Hl) (@lines_nonempty lead))
    as [Hind Hlb].
  pose proof (blank_spaces trail Htr) as Htb.
  destruct (lines trail) as [|tr Bt] eqn:Etl;
    [now apply lines_nonempty in Etl|].
  apply Forall_cons_iff in Htb as [Htr0 HBt].
  exists (last (lines lead) []), tr. split; [exact Hind|].
  split; [exact Htr0|].
  unfold document_paragraphs. rewrite Et.
  rewrite (lines_app lead), (lines_app s), Etl, EX.
  rewrite removelast_last, last_last. cbn [hd tl].
  rewrite gather_blanks by assumption.
  assert (Hhd : blank (hd [] (X ++ (la ++ tr) :: Bt)) = false).
  { destruct X as [|x X]; cbn [app hd].
    - now apply blank_app_r.
    - rewrite EX in Hf. exact Hf. }
  destruct (X ++ (la ++ tr) :: Bt) as [|y Y] eqn:EY.
  { destruct X; discriminate. }
  cbn [hd tl] in *. rewrite gather_prefix by assumption. f_equal.
  rewrite <- EY.
  change (X ++ (la ++ tr) :: Bt) with (X ++ [la ++ tr] ++ Bt).
  rewrite app_assoc, gather_blank_suffix by assumption.
  now apply gather_suffix.
Qed.

(** A text that begins and ends with characters that are not white
    space is left as it is. *)
Lemma strip_bare t c r r' c' :
  t = c :: r -> is_space c = false ->
  t = r' ++ [c'] -> is_space c' = false ->
  strip t = t.
Proof.
  intros E1 Hc E2 Hc'.
  destruct (strip_spec t) as (lead & trail & Et & Hl & Htr & _).
  assert (lead = []) as ->.
  { destruct lead as [|a lead]; [reflexivity|]. exfalso.
    rewrite E1 in Et. cbn [app] in Et. injection Et as <- _.
    cbn [forallb] in Hl. now rewrite Hc in Hl. }
  assert (trail = []) as ->.
  { destruct (rev trail) as [|a tr] eqn:Er.
    - apply (f_equal (@rev ascii)) in Er. now rewrite rev_involutive in Er.
    - exfalso. apply (f_equal (@rev ascii)) in Er.
      rewrite rev_involutive in Er. cbn [rev] in Er.
      rewrite Er, E2 in Et. rewrite !app_assoc in Et.
      apply app_inj_tail in Et as [_ <-].
      rewrite Er, forallb_app in Htr. cbn [forallb] in Htr.
      rewrite Hc' in Htr. now rewrite andb_false_r in Htr. }
  cbn [app] in Et. now rewrite app_nil_r in Et.
Qed.

(** C5.  For a document with a character that is not white space: the
    document is white space, the stripped text, white space, and the
    stripped text begins and ends with a character that is not white
    space; the chunks are the paragraphs of the stripped text, gathered in
    groups and joined with a blank line; every chunk holds exactly the
    paragraphs of its group, and the paragraphs of the chunks put end to
    end are the paragraphs of the stripped text, none lost, repeated or
    moved, each as it was. *)
Theorem split_into_chunks_keeps_paragraphs (t : text) (B : Z) :
  has_text t = true ->
  let s := strip t in
  let paragraphs := document_paragraphs s in
  let groups := chunk_groups B paragraphs in
  let chunks := split_into_chunks t B in
  (exists lead trail,
     t = lead ++ s ++ trail
     /\ forallb is_space lead = true /\ forallb is_space trail = true)
  /\ (exists c r, s = c :: r /\ is_space c = false)
  /\ (exists r c, s = r ++ [c] /\ is_space c = false)
  /\ chunks = map (join blank_line) groups
  /\ concat groups = paragraphs
  /\ map document_paragraphs chunks = groups
  /\ concat (map document_paragraphs chunks) = paragraphs
  /\ (exists indent tail,
        forallb is_space indent = true /\ forallb is_space tail = true
        /\ document_paragraphs t
           = on_first (app indent)
               (on_last (fun p => p ++ tail)
                  (concat (map document_paragraphs chunks))))
  /\ ((exists c r, t = c :: r /\ is_space c = false) ->
      (exists r c, t = r ++ [c] /\ is_space c = false) ->
      concat (map document_paragraphs chunks) = document_paragraphs t).
Proof.
  intros H s paragraphs groups chunks.
  destruct (paragraphs_of_document t H) as [Ep Hsolid].
  fold s in Ep. fold paragraphs in Ep.
  destruct (strip_spec t) as (lead & trail & Et & Hl & Htr & Hfirst & Hlast).
  fold s in Et, Hfirst, Hlast.
  assert (Hs : s <> []) by now apply strip_has_text.
  assert (Ec : chunks = map (join blank_line) groups).
  { unfold chunks, split_into_chunks. rewrite Ep.
    apply chunk_paragraphs_close. }
  assert (Eg : concat groups = paragraphs) by apply concat_chunk_groups.
  assert (Em : map document_paragraphs chunks = groups).
  { rewrite Ec, map_map.
    assert (HG : Forall (Forall solid) groups).
    { apply Forall_concat_solid. rewrite Eg, <- Ep. exact Hsolid. }
    clear - HG. induction HG as [|g G Hg _ IH]; [reflexivity|].
    cbn [map]. now rewrite document_paragraphs_join, IH. }
  split; [now exists lead, trail|]. split.
  { destruct s as [|c r]; [congruence|]. exists c, r. eauto. }
  split.
  { destruct (exists_last Hs) as (r & c & E). exists r, c. eauto. }
  split; [exact Ec|]. split; [exact Eg|]. split; [exact Em|].
  split; [now rewrite Em|]. split.
  { destruct (document_paragraphs_strip t H) as (ind & tl0 & Hi & Ht & E).
    exists ind, tl0. rewrite Em, Eg. unfold paragraphs, s. auto. }
  intros (c & r & Ec0 & Hc) (r' & c' & Ec1 & Hc').
  rewrite Em, Eg. unfold paragraphs. f_equal.
  now apply strip_bare with (c := c) (r := r) (r' := r') (c' := c').
Qed.

Lemma split_into_chunks_keeps_paragraphs_witness :
  map document_paragraphs (split_into_chunks spaced_document 3)
  = [[lit "one" ++ [newline] ++ lit "two "; lit " three"]; [lit "four"]]
  /\ concat (map document_paragraphs (split_into_chunks spaced_document 3))
     = document_paragraphs (strip spaced_document).
Proof.
  pose proof (@split_into_chunks_keeps_paragraphs spaced_document 3 eq_refl)
    as (_ & _ & _ & _ & _ & Em & Ec & _ & _).
  split; [exact Em | exact Ec].
Defined.

(** C5 as stated fails: the document is stripped before it is cut, so the
    first paragraph comes without its indentation (and the last without
    the white space at its end). *)
Lemma first_paragraph_loses_indentation :
  let chunks := split_into_chunks indented_document CHUNK_SIZE in
  document_paragraphs indented_document = [lit "  a"; lit "b"]
  /\ concat (map document_paragraphs chunks) = [lit "a"; lit "b"]
  /\ concat (map (Re.split BLANK_LINE) chunks) = [lit "a"; lit "b"]
  /\ concat (map document_paragraphs chunks)
     <> document_paragraphs indented_document.
Proof.
  repeat split. vm_compute. discriminate.
Qed.
